(** * Soundux audio engine ([src/helper/audio/audio.cpp])

    A shallow embedding of [Soundux::Objects::Audio] and of the real-time
    [data_callback], together with the properties of the engine's
    specification that can be stated over it.

    Conventions of the embedding:
    - unsigned integers are [Z] with the wrap-around written out
      ([Num.u32], [Num.u64]);
    - [double] is IEEE 754 binary64 as given by [SpecFloat]; a conversion
      of a [double] to [std::uint64_t] has a value only when the truncated
      number fits, otherwise the C++ program has no defined behaviour;
    - pointers ([ma_device *], [ma_decoder *]) are addresses in [Z]; the
      objects they point to live in two finite maps of the [System];
    - every engine operation is a computation in the monad [M]: it reads
      and writes the [System], emits [Event]s (sink notifications, log
      lines, miniaudio calls) and may be [Undefined]. *)

From Stdlib Require Import ZArith Lia Bool.
From Stdlib Require Import Floats.SpecFloat.
From stdpp Require Import gmap strings list fin_maps sorting.

Open Scope Z_scope.

(** ** Machine numbers *)

Module Num.

Definition u32 (z : Z) : Z := z mod 2 ^ 32.
Definition u64 (z : Z) : Z := z mod 2 ^ 64.

(** [static_cast<double>(n)] for an unsigned 64-bit [n]. *)
Definition d_of_u64 (n : Z) : spec_float := binary_normalize 53 1024 n 0 false.

Definition ddiv : spec_float -> spec_float -> spec_float := SFdiv 53 1024.
Definition dmul : spec_float -> spec_float -> spec_float := SFmul 53 1024.

(** [static_cast<std::uint64_t>(x)]: truncation toward zero; no value
    for NaN, the infinities and numbers outside [0, 2^64). *)
Definition d_to_u64 (x : spec_float) : option Z :=
  match x with
  | S754_zero _ => Some 0
  | S754_finite s m e =>
      let t := if 0 <=? e then Z.shiftl (Z.pos m) e
               else Z.shiftr (Z.pos m) (- e) in
      if s then (if t =? 0 then Some 0 else None)
      else if t <? 2 ^ 64 then Some t else None
  | S754_infinity _ | S754_nan => None
  end.

(** The expression [(double)a / (double)b * (double)c] cast back to
    [std::uint64_t]; it occurs four times in the engine. *)
Definition scale (a b c : Z) : option Z :=
  d_to_u64 (dmul (ddiv (d_of_u64 a) (d_of_u64 b)) (d_of_u64 c)).

(** The [float] literal [1.f]. *)
Definition one_f : spec_float := SFone 24 128.

End Num.

(** ** Data model

    [audio.cpp] includes [audio.hpp] and [globals.hpp] for the declarations
    of its types and globals; the records below carry the members that
    [audio.cpp] reads and writes. *)

(** Modelled from the spec: [AudioDevice] (declared in [audio.hpp]): a
    name, the default flag and the volume; the opaque platform descriptor
    [raw] is left out, nothing in the engine reads it. *)
Record AudioDevice := mkAudioDevice {
  name : string;
  isDefault : bool;
  volume : spec_float
}.

(** Modelled from the spec: [Sound], the source sound reference; the
    engine reads its [path] only. *)
Record Sound := mkSound { path : string }.

(** Modelled from the spec: [PlayingSound] (declared in [audio.hpp]), the
    playback session.  The integer fields are unsigned 64-bit, the id is
    unsigned 32-bit.  The members that [play] does not assign ([readFrames],
    [readInMs], [paused], [repeat], [shouldSeek], [seekTo], [buffer]) start
    at zero and [false]: a new session has read nothing, is not paused,
    does not repeat and has no seek pending. *)
Record PlayingSound := mkPlayingSound {
  ps_sound : Sound;
  ps_device : AudioDevice;
  rawDevice : Z;
  rawDecoder : Z;
  ps_length : Z;
  lengthInMs : Z;
  readFrames : Z;
  readInMs : Z;
  sampleRate : Z;
  ps_id : Z;
  paused : bool;
  ps_repeat : bool;
  shouldSeek : bool;
  seekTo : Z;
  buffer : Z
}.

Definition set_readFrames (v : Z) (p : PlayingSound) : PlayingSound :=
  mkPlayingSound (ps_sound p) (ps_device p) (rawDevice p) (rawDecoder p)
    (ps_length p) (lengthInMs p) v (readInMs p) (sampleRate p) (ps_id p)
    (paused p) (ps_repeat p) (shouldSeek p) (seekTo p) (buffer p).

Definition set_readInMs (v : Z) (p : PlayingSound) : PlayingSound :=
  mkPlayingSound (ps_sound p) (ps_device p) (rawDevice p) (rawDecoder p)
    (ps_length p) (lengthInMs p) (readFrames p) v (sampleRate p) (ps_id p)
    (paused p) (ps_repeat p) (shouldSeek p) (seekTo p) (buffer p).

Definition set_paused (v : bool) (p : PlayingSound) : PlayingSound :=
  mkPlayingSound (ps_sound p) (ps_device p) (rawDevice p) (rawDecoder p)
    (ps_length p) (lengthInMs p) (readFrames p) (readInMs p) (sampleRate p)
    (ps_id p) v (ps_repeat p) (shouldSeek p) (seekTo p) (buffer p).

Definition set_shouldSeek (v : bool) (p : PlayingSound) : PlayingSound :=
  mkPlayingSound (ps_sound p) (ps_device p) (rawDevice p) (rawDecoder p)
    (ps_length p) (lengthInMs p) (readFrames p) (readInMs p) (sampleRate p)
    (ps_id p) (paused p) (ps_repeat p) v (seekTo p) (buffer p).

Definition set_seekTo (v : Z) (p : PlayingSound) : PlayingSound :=
  mkPlayingSound (ps_sound p) (ps_device p) (rawDevice p) (rawDecoder p)
    (ps_length p) (lengthInMs p) (readFrames p) (readInMs p) (sampleRate p)
    (ps_id p) (paused p) (ps_repeat p) (shouldSeek p) v (buffer p).

Definition set_buffer (v : Z) (p : PlayingSound) : PlayingSound :=
  mkPlayingSound (ps_sound p) (ps_device p) (rawDevice p) (rawDecoder p)
    (ps_length p) (lengthInMs p) (readFrames p) (readInMs p) (sampleRate p)
    (ps_id p) (paused p) (ps_repeat p) (shouldSeek p) (seekTo p) v.

(** ** The miniaudio objects the engine holds pointers to

    The decoding capability and the hardware stream capability of the
    specification: a decoder yields the frames of a file in order, knows
    its length and can seek; a stream is bound to a decoder and is started,
    stopped and released. *)

Record ma_decoder := mkDecoder {
  outputSampleRate : Z;
  dec_length : Z;          (* ma_decoder_get_length_in_pcm_frames *)
  dec_cursor : Z;          (* next frame to be read *)
  dec_inited : bool        (* false once ma_decoder_uninit ran *)
}.

Inductive stream_state := StreamUninit | StreamStopped | StreamStarted.

Record ma_device := mkDevice {
  pUserData : option Z;    (* the decoder; None is nullptr *)
  playback_name : string;
  masterVolumeFactor : spec_float;
  dev_state : stream_state
}.

(** What the platform answers; fixed for the duration of one call. *)
Record Platform := mkPlatform {
  default_name : string;              (* name of the default-configured stream *)
  context_init_ok : bool;             (* ma_context_init *)
  context_devices : option (list string); (* ma_context_get_devices *)
  decode_file : string -> option (Z * Z); (* length in frames, sample rate *)
  device_init_ok : bool;              (* ma_device_init *)
  device_start_ok : bool              (* ma_device_start *)
}.

(** Modelled from the spec: [Globals::gSettings], the settings
    collaborator: the overlapping flag and the persisted device volumes. *)
Record Settings := mkSettings {
  allowOverlapping : bool;
  deviceSettings : list AudioDevice
}.

(** ** Events *)

Inductive LogLine :=
| FailedCreateDecoder (p : string)
| FailedCreateDevice
| FailedPlay (p : string)
| FailedStop (i : Z)
| FailedPause (i : Z)
| FailedResume (i : Z)
| FailedSeek (i : Z)
| FinishedNotPlaying.

Inductive MaCall :=
| DecoderInitFile (p : string) (dec : Z)
| DecoderUninit (dec : option Z)
| DecoderRead (dec : Z) (count : Z)
| DecoderSeek (dec : Z) (frame : Z)
| DeviceInit (dev : Z)
| DeviceStart (dev : Z)
| DeviceStop (dev : Z)
| DeviceUninit (dev : Z).

Inductive Event :=
| GuiSoundPlayed (s : PlayingSound)
| GuiSoundProgressed (s : PlayingSound)
| GuiSoundFinished (s : PlayingSound)
| Log (l : LogLine)
| Ma (c : MaCall).

Definition is_gui (e : Event) : bool :=
  match e with
  | GuiSoundPlayed _ | GuiSoundProgressed _ | GuiSoundFinished _ => true
  | _ => false
  end.

Definition is_ma (e : Event) : bool :=
  match e with Ma _ => true | _ => false end.

(** A task of [Globals::gQueue].  The engine queues one kind only: the
    closure [[&device] { Globals::gAudio.onFinished(device); }] that
    [data_callback] makes.  It captures [device], the callback's own
    parameter, by reference: what the closure holds is the place of that
    parameter, which exists as long as the callback run that made the
    closure, and not the handle. *)
Inductive Task := TaskOnFinished.

(** ** The state

    Modelled from the spec: the members of [Audio] (declared in
    [audio.hpp]): the device collection (a [std::map] by name), the pointer
    to the default device, the registry (a [std::map] by stream handle) and
    the id counter.  Next to them the state holds what the raw pointers
    point to and the task queue. *)

Record System := mkSystem {
  (* Audio *)
  devices : gmap string AudioDevice;
  defaultOutputDevice : option string;   (* pointer to an element of devices *)
  playingSounds : gmap Z PlayingSound;     (* keyed by ma_device * *)
  playingSoundIdCounter : Z;
  (* objects behind the raw pointers *)
  next_ptr : Z;
  decoders : gmap Z ma_decoder;
  streams : gmap Z ma_device;
  (* Globals::gQueue *)
  gQueue : list (Z * Task)
}.

Definition set_devices v (s : System) : System :=
  mkSystem v (defaultOutputDevice s) (playingSounds s)
    (playingSoundIdCounter s) (next_ptr s) (decoders s) (streams s) (gQueue s).
Definition set_defaultOutputDevice v (s : System) : System :=
  mkSystem (devices s) v (playingSounds s)
    (playingSoundIdCounter s) (next_ptr s) (decoders s) (streams s) (gQueue s).
Definition set_playingSounds v (s : System) : System :=
  mkSystem (devices s) (defaultOutputDevice s) v
    (playingSoundIdCounter s) (next_ptr s) (decoders s) (streams s) (gQueue s).
Definition set_playingSoundIdCounter v (s : System) : System :=
  mkSystem (devices s) (defaultOutputDevice s) (playingSounds s)
    v (next_ptr s) (decoders s) (streams s) (gQueue s).
Definition set_next_ptr v (s : System) : System :=
  mkSystem (devices s) (defaultOutputDevice s) (playingSounds s)
    (playingSoundIdCounter s) v (decoders s) (streams s) (gQueue s).
Definition set_decoders v (s : System) : System :=
  mkSystem (devices s) (defaultOutputDevice s) (playingSounds s)
    (playingSoundIdCounter s) (next_ptr s) v (streams s) (gQueue s).
Definition set_streams v (s : System) : System :=
  mkSystem (devices s) (defaultOutputDevice s) (playingSounds s)
    (playingSoundIdCounter s) (next_ptr s) (decoders s) v (gQueue s).
Definition set_gQueue v (s : System) : System :=
  mkSystem (devices s) (defaultOutputDevice s) (playingSounds s)
    (playingSoundIdCounter s) (next_ptr s) (decoders s) (streams s) v.

(** ** The monad of engine computations *)

Inductive outcome (A : Type) :=
| Ret (a : A) (s : System) (evs : list Event)
| Undefined.
Arguments Ret {A} a s evs.
Arguments Undefined {A}.

Definition M (A : Type) : Type := System -> outcome A.

Definition ret {A} (a : A) : M A := fun s => Ret a s [].

Definition bind {A B} (m : M A) (k : A -> M B) : M B :=
  fun s =>
    match m s with
    | Ret a s1 e1 =>
        match k a s1 with
        | Ret b s2 e2 => Ret b s2 (e1 ++ e2)
        | Undefined => Undefined
        end
    | Undefined => Undefined
    end.

Notation "x <~ m ;; k" := (bind m (fun x => k))
  (at level 100, m at level 90, right associativity).
Notation "m ;;; k" := (bind m (fun _ => k))
  (at level 100, right associativity).

Definition get : M System := fun s => Ret s s [].
Definition modify (f : System -> System) : M unit := fun s => Ret tt (f s) [].
Definition emit (e : Event) : M unit := fun s => Ret tt s [e].
Definition undefined {A} : M A := fun _ => Undefined.

Definition when (b : bool) (m : M unit) : M unit := if b then m else ret tt.

Fixpoint for_each {A} (l : list A) (body : A -> M unit) : M unit :=
  match l with
  | [] => ret tt
  | x :: l' => body x ;;; for_each l' body
  end.

Definition lift_option {A} (o : option A) : M A :=
  match o with Some a => ret a | None => undefined end.

(** ** miniaudio, as far as the engine uses it

    A decoder is a seekable stream of [dec_length] frames; a device is a
    hardware stream bound to a decoder through [pUserData].  Objects are
    created by [new] and never deleted, so an address is never reused. *)

(** [new ma_decoder], [new ma_device]: a fresh address. *)
Definition new_object : M Z :=
  fun s => Ret (next_ptr s) (set_next_ptr (next_ptr s + 1) s) [].

(** Dereferencing a pointer: undefined where no initialised object has
    ever been stored. *)
Definition the_decoder (dec : Z) : M ma_decoder :=
  s <~ get ;; lift_option (decoders s !! dec).

Definition the_stream (dev : Z) : M ma_device :=
  s <~ get ;; lift_option (streams s !! dev).

Definition store_decoder (dec : Z) (d : ma_decoder) : M unit :=
  modify (fun s => set_decoders (<[dec := d]> (decoders s)) s).

Definition store_stream (dev : Z) (d : ma_device) : M unit :=
  modify (fun s => set_streams (<[dev := d]> (streams s)) s).

Definition ma_decoder_get_length_in_pcm_frames (dec : Z) : M Z :=
  d <~ the_decoder dec ;; ret (dec_length d).

(** A null decoder is rejected without effect. *)
Definition ma_decoder_uninit (dec : option Z) : M unit :=
  emit (Ma (DecoderUninit dec)) ;;;
  match dec with
  | None => ret tt
  | Some p =>
      d <~ the_decoder p ;;
      store_decoder p
        (mkDecoder (outputSampleRate d) (dec_length d) (dec_cursor d) false)
  end.

(** Reads as many of the [frameCount] frames as are left and returns
    their number. *)
Definition ma_decoder_read_pcm_frames (dec : Z) (frameCount : Z) : M Z :=
  emit (Ma (DecoderRead dec frameCount)) ;;;
  d <~ the_decoder dec ;;
  let n := Z.max 0 (Z.min frameCount (dec_length d - dec_cursor d)) in
  store_decoder dec
    (mkDecoder (outputSampleRate d) (dec_length d) (dec_cursor d + n)
       (dec_inited d)) ;;;
  ret n.

(** A seek past the last frame fails and leaves the cursor; the engine
    ignores the result. *)
Definition ma_decoder_seek_to_pcm_frame (dec : Z) (frame : Z) : M unit :=
  emit (Ma (DecoderSeek dec frame)) ;;;
  d <~ the_decoder dec ;;
  if frame <=? dec_length d
  then store_decoder dec
         (mkDecoder (outputSampleRate d) (dec_length d) frame (dec_inited d))
  else ret tt.

Definition zeroed_device : ma_device :=
  mkDevice None EmptyString (S754_zero false) StreamUninit.

Definition ma_device_stop (dev : Z) : M unit :=
  emit (Ma (DeviceStop dev)) ;;;
  d <~ the_stream dev ;;
  match dev_state d with
  | StreamStarted =>
      store_stream dev
        (mkDevice (pUserData d) (playback_name d) (masterVolumeFactor d)
           StreamStopped)
  | _ => ret tt
  end.

(** Returns at once on a device that is not initialised; otherwise
    releases the stream and zeroes the object, [pUserData] included. *)
Definition ma_device_uninit (dev : Z) : M unit :=
  emit (Ma (DeviceUninit dev)) ;;;
  d <~ the_stream dev ;;
  match dev_state d with
  | StreamUninit => ret tt
  | _ => store_stream dev zeroed_device
  end.

(** ** [Globals::gQueue] *)

(** Modelled from the spec: the task queue ([Globals::gQueue], class not
    part of [audio.cpp]).  It is a deferred, de-duplicating queue keyed by
    the stream handle: a push whose key is already pending is dropped, so
    at most one task is pending per key; tasks run later, on the queue's
    own thread, oldest first. *)
Definition push_unique (key : Z) (t : Task) : M unit :=
  modify (fun s =>
    if existsb (fun kt => fst kt =? key) (gQueue s) then s
    else set_gQueue (gQueue s ++ [(key, t)]) s).

Definition pending (key : Z) (q : list (Z * Task)) : nat :=
  List.length (List.filter (fun kt => fst kt =? key) q).

(** ** Iterating over [playingSounds] *)

Definition key_le (a b : Z * PlayingSound) : Prop := fst a <= fst b.

#[global] Instance key_le_dec : RelDecision key_le.
Proof. intros a b. unfold key_le. apply Z_le_dec. Defined.

(** The entries in the order a [std::map] iterates: by ascending key. *)
Definition entries (m : gmap Z PlayingSound) : list (Z * PlayingSound) :=
  merge_sort key_le (map_to_list m).

(** [std::find_if(playingSounds.begin(), playingSounds.end(), id == soundId)] *)
Definition find_sound (soundId : Z) (m : gmap Z PlayingSound)
  : option (Z * PlayingSound) :=
  List.find (fun kv => ps_id (snd kv) =? soundId) (entries m).

(** [devices.insert({k, v})]: an existing element is kept. *)
Definition insert_new {K V} `{Countable K} (k : K) (v : V) (m : gmap K V)
  : gmap K V :=
  match m !! k with Some _ => m | None => <[k := v]> m end.

Section Engine.

Variable cfg : Settings.
Variable pf : Platform.

Definition ma_decoder_init_file (p : string) (dec : Z) : M bool :=
  emit (Ma (DecoderInitFile p dec)) ;;;
  match decode_file pf p with
  | Some (len, rate) => store_decoder dec (mkDecoder rate len 0 true) ;;; ret true
  | None => ret false
  end.

(** [ma_device_init(nullptr, &config, device)] with
    [config.pUserData = decoder]. *)
Definition ma_device_init (decoder dev : Z) : M bool :=
  emit (Ma (DeviceInit dev)) ;;;
  if device_init_ok pf
  then store_stream dev
         (mkDevice (Some decoder) (default_name pf) Num.one_f StreamStopped) ;;;
       ret true
  else ret false.

Definition ma_device_start (dev : Z) : M bool :=
  emit (Ma (DeviceStart dev)) ;;;
  d <~ the_stream dev ;;
  match dev_state d with
  | StreamUninit => ret false
  | _ =>
      if device_start_ok pf
      then store_stream dev
             (mkDevice (pUserData d) (playback_name d) (masterVolumeFactor d)
                StreamStarted) ;;;
           ret true
      else ret false
  end.

(** *** Device enumeration and construction *)

(** [Audio::getAudioDevices].  [default_name pf] is the name the throwaway
    default-configured stream resolves to.  The two failure exits also
    write a line to [std::cerr]. *)
Definition getAudioDevices : list AudioDevice :=
  let defaultName := default_name pf in
  if negb (context_init_ok pf) then []
  else
    match context_devices pf with
    | None => []
    | Some infos =>
        List.map (fun rawName =>
               mkAudioDevice rawName (String.eqb rawName defaultName) Num.one_f)
            infos
    end.

(** [Audio::Audio].  The members start empty, the default-device pointer
    null and the id counter at zero; no object has been allocated yet. *)
Definition Audio_Audio : System :=
  let deviceList := getAudioDevices in
  let '(devs, def) :=
    fold_left (fun (acc : gmap string AudioDevice * option string) device =>
                 let devs := insert_new (name device) device (fst acc) in
                 (devs, if isDefault device then Some (name device) else snd acc))
              deviceList (∅, None) in
  let devs' :=
    fold_left (fun (devs : gmap string AudioDevice) device =>
                 match devs !! name device with
                 | Some d =>
                     <[name device :=
                         mkAudioDevice (name d) (isDefault d) (volume device)]> devs
                 | None => devs
                 end)
              (deviceSettings cfg) devs in
  mkSystem devs' def ∅ 0 1 ∅ ∅ [].

(** *** [stopAll], [play] *)

(** [Audio::stopAll] *)
Definition stopAll : M unit :=
  s <~ get ;;
  for_each (entries (playingSounds s)) (fun sound =>
    d <~ the_stream (rawDevice (snd sound)) ;;
    let decoder := pUserData d in
    ma_device_uninit (rawDevice (snd sound)) ;;;
    ma_decoder_uninit decoder) ;;;
  modify (set_playingSounds ∅).

(** [*defaultOutputDevice] *)
Definition deref_defaultOutputDevice : M AudioDevice :=
  s <~ get ;;
  match defaultOutputDevice s with
  | None => undefined
  | Some k => lift_option (devices s !! k)
  end.

(** [++playingSoundIdCounter] *)
Definition next_id : M Z :=
  fun s =>
    let i := Num.u32 (playingSoundIdCounter s + 1) in
    Ret i (set_playingSoundIdCounter i s) [].

(** [Audio::play] *)
Definition play (sound : Sound) (playbackDevice : option AudioDevice)
  : M (option PlayingSound) :=
  when (negb (allowOverlapping cfg)) stopAll ;;;
  decoder <~ new_object ;;
  res <~ ma_decoder_init_file (path sound) decoder ;;
  if negb res then
    emit (Log (FailedCreateDecoder (path sound))) ;;; ret None
  else
    device <~ new_object ;;
    length_in_pcm_frames <~ ma_decoder_get_length_in_pcm_frames decoder ;;
    dec <~ the_decoder decoder ;;
    let config_sampleRate := outputSampleRate dec in
    inited <~ ma_device_init decoder device ;;
    if negb inited then
      emit (Log FailedCreateDevice) ;;; ret None
    else
      started <~ ma_device_start device ;;
      if negb started then
        ma_device_uninit device ;;;
        ma_decoder_uninit (Some decoder) ;;;
        emit (Log (FailedPlay (path sound))) ;;;
        ret None
      else
        ms <~ lift_option (Num.scale length_in_pcm_frames config_sampleRate 1000) ;;
        i <~ next_id ;;
        dev <~ match playbackDevice with
               | Some d => ret d
               | None => deref_defaultOutputDevice
               end ;;
        let pSound :=
          mkPlayingSound sound dev device decoder length_in_pcm_frames ms
            0 0 config_sampleRate i false false false 0 0 in
        modify (fun s => set_playingSounds (insert_new device pSound (playingSounds s)) s) ;;;
        emit (GuiSoundPlayed pSound) ;;;
        ret (Some pSound).

(** *** [stop]

    The three stretches of [stop] between its lock operations: the lookup
    (under the lock), the teardown (lock released), the erasure (lock
    taken again). *)

Definition stop_lookup (soundId : Z) : M (option (Z * PlayingSound * option Z)) :=
  s <~ get ;;
  match find_sound soundId (playingSounds s) with
  | Some sound =>
      d <~ the_stream (rawDevice (snd sound)) ;;
      ret (Some (sound, pUserData d))
  | None => ret None
  end.

Definition stop_teardown (sound : Z * PlayingSound) (decoder : option Z) : M unit :=
  ma_device_uninit (rawDevice (snd sound)) ;;;
  ma_decoder_uninit decoder.

(** [playingSounds.erase(sound)], through the iterator that [find_if]
    returned before the lock was released: defined as long as the node it
    points to is still in the map (a handle is never registered twice, so
    that is as long as the key is). *)
Definition stop_erase (sound : Z * PlayingSound) : M unit :=
  s <~ get ;;
  match playingSounds s !! fst sound with
  | Some _ =>
      modify (fun s => set_playingSounds (delete (fst sound) (playingSounds s)) s)
  | None => undefined
  end.

(** [Audio::stop] *)
Definition stop (soundId : Z) : M bool :=
  found <~ stop_lookup soundId ;;
  match found with
  | Some (sound, decoder) =>
      stop_teardown sound decoder ;;;
      stop_erase sound ;;;
      ret true
  | None =>
      emit (Log (FailedStop soundId)) ;;; ret false
  end.

(** *** [pause], [resume] *)

(** [Audio::pause]; the local [decoder] is read and not used. *)
Definition pause (soundId : Z) : M (option PlayingSound) :=
  s <~ get ;;
  match find_sound soundId (playingSounds s) with
  | Some (key, sound) =>
      d <~ the_stream (rawDevice sound) ;;
      let decoder := pUserData d in
      if negb (paused sound) then
        ma_device_stop (rawDevice sound) ;;;
        let sound' := set_paused true sound in
        modify (fun s => set_playingSounds (<[key := sound']> (playingSounds s)) s) ;;;
        ret (Some sound')
      else ret (Some sound)
  | None =>
      emit (Log (FailedPause soundId)) ;;; ret None
  end.

(** [Audio::resume]; the result of [ma_device_start] is dropped. *)
Definition resume (soundId : Z) : M (option PlayingSound) :=
  s <~ get ;;
  match find_sound soundId (playingSounds s) with
  | Some (key, sound) =>
      d <~ the_stream (rawDevice sound) ;;
      let decoder := pUserData d in
      if paused sound then
        ma_device_start (rawDevice sound) ;;;
        let sound' := set_paused false sound in
        modify (fun s => set_playingSounds (<[key := sound']> (playingSounds s)) s) ;;;
        ret (Some sound')
      else ret (Some sound)
  | None =>
      emit (Log (FailedResume soundId)) ;;; ret None
  end.

(** *** [getVolume], [getPlayingSound], [getPlayingSounds] *)

(** [Audio::getVolume]: [find], then [devices[name].volume], else [1.f]. *)
Definition getVolume (s : System) (n : string) : spec_float :=
  match devices s !! n with
  | Some d => volume d
  | None => Num.one_f
  end.

Definition getPlayingSound (s : System) (device : Z) : option PlayingSound :=
  playingSounds s !! device.

Definition getPlayingSounds (s : System) : list PlayingSound :=
  List.map snd (entries (playingSounds s)).

(** *** What the callback reports back: [onFinished], [onSoundProgressed],
    [onSoundSeeked] *)

(** [Audio::onFinished] *)
Definition onFinished (device : Z) : M unit :=
  s <~ get ;;
  match playingSounds s !! device with
  | Some sound =>
      ma_device_uninit (rawDevice sound) ;;;
      ma_decoder_uninit (Some (rawDecoder sound)) ;;;
      emit (GuiSoundFinished sound) ;;;
      modify (fun s => set_playingSounds (delete device (playingSounds s)) s)
  | None =>
      emit (Log FinishedNotPlaying)
  end.

(** [Audio::onSoundProgressed]; the sink is handed the session before
    [buffer] is reset. *)
Definition onSoundProgressed (device : Z) (frames : Z) : M unit :=
  s <~ get ;;
  match playingSounds s !! device with
  | Some sound =>
      let sound1 :=
        set_buffer (Num.u64 (buffer sound + frames))
          (set_readFrames (Num.u64 (readFrames sound + frames)) sound) in
      if sampleRate sound1 / 2 <? buffer sound1 then
        ms <~ lift_option
                (Num.scale (readFrames sound1) (ps_length sound1) (lengthInMs sound1)) ;;
        let sound2 := set_readInMs ms sound1 in
        emit (GuiSoundProgressed sound2) ;;;
        modify (fun s =>
          set_playingSounds (<[device := set_buffer 0 sound2]> (playingSounds s)) s)
      else
        modify (fun s => set_playingSounds (<[device := sound1]> (playingSounds s)) s)
  | None => ret tt
  end.

(** [Audio::onSoundSeeked] *)
Definition onSoundSeeked (device : Z) (frame : Z) : M unit :=
  s <~ get ;;
  match playingSounds s !! device with
  | Some sound =>
      let sound1 := set_readFrames frame (set_shouldSeek false sound) in
      ms <~ lift_option (Num.scale frame (ps_length sound1) (lengthInMs sound1)) ;;
      modify (fun s =>
        set_playingSounds (<[device := set_readInMs ms sound1]> (playingSounds s)) s)
  | None => ret tt
  end.

(** *** [seek] *)

(** [Audio::seek] *)
Definition seek (soundId : Z) (position : Z) : M (option PlayingSound) :=
  s <~ get ;;
  match find_sound soundId (playingSounds s) with
  | Some (key, sound) =>
      target <~ lift_option
                  (Num.scale position (lengthInMs sound) (ps_length sound)) ;;
      let sound' := set_shouldSeek true (set_seekTo target sound) in
      modify (fun s => set_playingSounds (<[key := sound']> (playingSounds s)) s) ;;;
      ms <~ lift_option
              (Num.scale (seekTo sound') (ps_length sound') (lengthInMs sound')) ;;
      let rtn := set_readInMs ms (set_readFrames (seekTo sound') sound') in
      ret (Some rtn)
  | None =>
      emit (Log (FailedSeek soundId)) ;;; ret None
  end.

(** *** The real-time callback *)

(** [Audio::data_callback].  The key handed to [push_unique] is the
    handle, by value; the closure handed to it refers to the parameter
    [device] of this run. *)
Definition data_callback (device : Z) (frameCount : Z) : M unit :=
  d <~ the_stream device ;;
  match pUserData d with
  | None => ret tt
  | Some decoder =>
      s <~ get ;;
      store_stream device
        (mkDevice (pUserData d) (playback_name d)
           (getVolume s (playback_name d)) (dev_state d)) ;;;
      readFrames <~ ma_decoder_read_pcm_frames decoder frameCount ;;
      s1 <~ get ;;
      let sound := getPlayingSound s1 device in
      match sound with
      | Some snap =>
          when (shouldSeek snap)
            (ma_decoder_seek_to_pcm_frame decoder (seekTo snap) ;;;
             onSoundSeeked device (seekTo snap))
      | None => ret tt
      end ;;;
      when (0 <? readFrames) (onSoundProgressed device readFrames) ;;;
      when (readFrames <=? 0)
        match sound with
        | Some snap =>
            if ps_repeat snap
            then ma_decoder_seek_to_pcm_frame decoder 0
            else push_unique device TaskOnFinished
        | None => push_unique device TaskOnFinished
        end
  end.

(** *** The queue's worker *)

(** Reading the [device] a closure has captured.  The worker runs a task
    on the queue's own thread, after the callback run that queued it has
    returned (every call of this embedding runs to completion): the
    parameter the closure refers to is gone, so the read has no defined
    value. *)
Definition captured_device (t : Task) : M Z :=
  match t with TaskOnFinished => undefined end.

(** The body of the closure [[&device] { gAudio.onFinished(device); }]. *)
Definition run_task (t : Task) : M unit :=
  device <~ captured_device t ;; onFinished device.

(** Modelled from the spec: the worker of [Globals::gQueue], which runs
    outside the callback: it takes the oldest pending task off the queue
    and runs it. *)
Definition queue_run_next : M unit :=
  s <~ get ;;
  match gQueue s with
  | [] => ret tt
  | (_, t) :: q => modify (set_gQueue q) ;;; run_task t
  end.

End Engine.

(** ** Well-formed states

    Every registered session points to a stream object, and every stream's
    [pUserData], when set, points to a decoder object. *)

Definition wf (s : System) : bool :=
  forallb (fun kv => bool_decide (is_Some (streams s !! rawDevice (snd kv))))
          (map_to_list (playingSounds s))
  && forallb (fun kv => match pUserData (snd kv) with
                        | Some p => bool_decide (is_Some (decoders s !! p))
                        | None => true
                        end)
             (map_to_list (streams s)).

(** ** Derived notions used in the statements *)

(** What [ma_device_stop] and [ma_device_start] leave behind in the
    stream object, and what [ma_device_start] returns. *)
Definition stopped (d : ma_device) : ma_device :=
  match dev_state d with
  | StreamStarted =>
      mkDevice (pUserData d) (playback_name d) (masterVolumeFactor d) StreamStopped
  | _ => d
  end.

Definition started (pf : Platform) (d : ma_device) : ma_device :=
  match dev_state d with
  | StreamUninit => d
  | _ =>
      if device_start_ok pf
      then mkDevice (pUserData d) (playback_name d) (masterVolumeFactor d) StreamStarted
      else d
  end.

Definition start_result (pf : Platform) (d : ma_device) : bool :=
  match dev_state d with
  | StreamUninit => false
  | _ => device_start_ok pf
  end.

Definition heap_ok (s : System) : Prop :=
  forall dev d p, streams s !! dev = Some d -> pUserData d = Some p ->
                  is_Some (decoders s !! p).

Definition released_stream (d : ma_device) : ma_device :=
  match dev_state d with
  | StreamUninit => d
  | _ => zeroed_device
  end.

Definition released_decoder (d : ma_decoder) : ma_decoder :=
  mkDecoder (outputSampleRate d) (dec_length d) (dec_cursor d) false.

(** The frame of a teardown: everything but the two object maps. *)
Definition same_engine (s s' : System) : Prop :=
  devices s' = devices s /\ defaultOutputDevice s' = defaultOutputDevice s /\
  playingSounds s' = playingSounds s /\
  playingSoundIdCounter s' = playingSoundIdCounter s /\
  next_ptr s' = next_ptr s /\ gQueue s' = gQueue s.

Definition is_released (s : System) (dev : Z) : Prop :=
  exists d, streams s !! dev = Some d /\ dev_state d = StreamUninit.

(** Every event of every defined run of [m] satisfies [P]. *)
Definition emits (P : Event -> Prop) {A} (m : M A) : Prop :=
  forall s a s' evs, m s = Ret a s' evs -> Forall P evs.


Definition read_count (frameCount : Z) (dc : ma_decoder) : Z :=
  Z.max 0 (Z.min frameCount (dec_length dc - dec_cursor dc)).

Definition advanced (n : Z) (dc : ma_decoder) : ma_decoder :=
  mkDecoder (outputSampleRate dc) (dec_length dc) (dec_cursor dc + n) (dec_inited dc).

Definition seeked (frame : Z) (dc : ma_decoder) : ma_decoder :=
  if frame <=? dec_length dc
  then mkDecoder (outputSampleRate dc) (dec_length dc) frame (dec_inited dc)
  else dc.

(** The queue after [push_unique device TaskOnFinished]. *)
Definition finish_queued (device : Z) (q : list (Z * Task)) : list (Z * Task) :=
  if existsb (fun kt => fst kt =? device) q then q
  else q ++ [(device, TaskOnFinished)].

(** A position survives the trip to frames and back up to one
    millisecond: both conversions are defined and the result is [p] or
    [p - 1]. *)
Definition seek_roundtrip_ok (lenMs len p : Z) : bool :=
  match Num.scale p lenMs len with
  | Some target =>
      match Num.scale target len lenMs with
      | Some ms => (p - 1 <=? ms) && (ms <=? p)
      | None => false
      end
  | None => false
  end.

(** The session of [device] follows its decoder: no seek is pending, the
    session does not repeat, [readFrames] is the decoder's cursor, and
    [readInMs] is 0 as long as no progress was reported and from then on
    the position of the last progress report (the frames read minus the
    frames accumulated since) scaled to milliseconds. *)
Definition tracks (device : Z) (s : System) : Prop :=
  exists sound d decoder dc,
    playingSounds s !! device = Some sound /\
    streams s !! device = Some d /\
    pUserData d = Some decoder /\
    decoders s !! decoder = Some dc /\
    shouldSeek sound = false /\ ps_repeat sound = false /\
    dec_length dc = ps_length sound /\ dec_cursor dc = readFrames sound /\
    0 <= buffer sound <= readFrames sound /\
    readFrames sound <= ps_length sound < 2 ^ 64 /\
    (readFrames sound = buffer sound /\ readInMs sound = 0 \/
     Num.scale (readFrames sound - buffer sound) (ps_length sound) (lengthInMs sound)
     = Some (readInMs sound)).


(** ** How the state changes between calls *)

(** The fields of a session that no operation of the engine writes after
    [play] has registered it. *)
Definition same_identity (p q : PlayingSound) : Prop :=
  ps_sound q = ps_sound p /\ ps_device q = ps_device p /\
  rawDevice q = rawDevice p /\ rawDecoder q = rawDecoder p /\
  ps_length q = ps_length p /\ lengthInMs q = lengthInMs p /\
  sampleRate q = sampleRate p /\ ps_id q = ps_id p /\
  ps_repeat q = ps_repeat p.

(** A stream object that is still the same stream: same decoder, and
    initialised exactly if it was. *)
Definition stream_kept (d d' : ma_device) : Prop :=
  pUserData d' = pUserData d /\
  (dev_state d' = StreamUninit <-> dev_state d = StreamUninit).

Definition stream_released (d' : ma_device) : Prop :=
  pUserData d' = None /\ dev_state d' = StreamUninit.

(** A decoder object that is still the same decoder; it may have been
    released, it is never initialised again. *)
Definition decoder_kept (c c' : ma_decoder) : Prop :=
  dec_length c' = dec_length c /\ outputSampleRate c' = outputSampleRate c /\
  (dec_inited c' = true -> dec_inited c = true).

(** [s'] comes from [s] without allocation and without registration:
    sessions may have gone and streams may have been released, nothing
    else of the engine's bookkeeping differs. *)
Definition evolves (s s' : System) : Prop :=
  devices s' = devices s /\
  defaultOutputDevice s' = defaultOutputDevice s /\
  playingSoundIdCounter s' = playingSoundIdCounter s /\
  next_ptr s' = next_ptr s /\
  (forall k q, playingSounds s' !! k = Some q ->
               exists p, playingSounds s !! k = Some p /\ same_identity p q) /\
  (forall k, is_Some (streams s' !! k) <-> is_Some (streams s !! k)) /\
  (forall k d d', streams s !! k = Some d -> streams s' !! k = Some d' ->
                  stream_kept d d' \/ stream_released d') /\
  (forall k, is_Some (decoders s' !! k) <-> is_Some (decoders s !! k)) /\
  (forall k c c', decoders s !! k = Some c -> decoders s' !! k = Some c' ->
                  decoder_kept c c').

(** ... and moreover no session has gone and no stream or decoder was
    released. *)
Definition steady (s s' : System) : Prop :=
  evolves s s' /\
  (forall k, is_Some (playingSounds s !! k) -> is_Some (playingSounds s' !! k)) /\
  (forall k d d', streams s !! k = Some d -> streams s' !! k = Some d' ->
                  stream_kept d d') /\
  (forall k c c', decoders s !! k = Some c -> decoders s' !! k = Some c' ->
                  dec_inited c' = dec_inited c).

(** Every defined run of [m] relates the state it starts in to the state
    it ends in by [R]. *)
Definition respects (R : System -> System -> Prop) {A} (m : M A) : Prop :=
  forall s a s' evs, m s = Ret a s' evs -> R s s'.

(** What holds of the state between any two calls. *)
Record Inv (s : System) : Prop := mkInv {
  inv_counter : 0 <= playingSoundIdCounter s < 2 ^ 32;
  inv_next : 0 < next_ptr s;
  inv_key : forall k p, playingSounds s !! k = Some p -> rawDevice p = k;
  inv_ids : forall k p, playingSounds s !! k = Some p ->
                        0 < ps_id p <= playingSoundIdCounter s;
  inv_unique : forall k k' p p',
      playingSounds s !! k = Some p -> playingSounds s !! k' = Some p' ->
      ps_id p = ps_id p' -> k = k';
  inv_alloc : forall k, is_Some (streams s !! k) \/ is_Some (decoders s !! k) ->
                        0 < k < next_ptr s;
  inv_bound : forall k p, playingSounds s !! k = Some p ->
      exists d, streams s !! k = Some d /\ pUserData d = Some (rawDecoder p) /\
                dev_state d <> StreamUninit;
  inv_open : forall k d, streams s !! k = Some d -> dev_state d <> StreamUninit ->
                         is_Some (playingSounds s !! k);
  inv_closed : forall k d, streams s !! k = Some d -> dev_state d = StreamUninit ->
                           pUserData d = None;
  inv_decoder : forall k p, playingSounds s !! k = Some p ->
      exists c, decoders s !! rawDecoder p = Some c /\
                dec_length c = ps_length p /\ outputSampleRate c = sampleRate p /\
                dec_inited c = true;
  inv_own : forall k k' p p',
      playingSounds s !! k = Some p -> playingSounds s !! k' = Some p' ->
      rawDecoder p = rawDecoder p' -> k = k';
  inv_heap : heap_ok s;
  inv_default : forall k, defaultOutputDevice s = Some k ->
      exists d, devices s !! k = Some d /\ name d = k /\ isDefault d = true
}.

(** One call into the engine that returns: by the control thread, by the
    audio thread ([data_callback]) or by the queue's worker.  The platform
    may answer differently from call to call.  [play] is taken while the
    id counter has not reached its last value.

    The worker's run of a queued task has no defined result in the code
    (see [captured_device]).  [call_finish] adds, beyond the code, the runs
    in which that read yields some handle: the oldest task is taken off
    the queue and [onFinished] is called with an arbitrary handle, among
    them the handle of the stream that queued the task. *)
Inductive call (cfg : Settings) : System -> System -> Prop :=
| call_play pf sound playbackDevice s r s' evs :
    playingSoundIdCounter s + 1 < 2 ^ 32 ->
    play cfg pf sound playbackDevice s = Ret r s' evs -> call cfg s s'
| call_stopAll s s' evs :
    stopAll s = Ret tt s' evs -> call cfg s s'
| call_stop soundId s r s' evs :
    stop soundId s = Ret r s' evs -> call cfg s s'
| call_pause soundId s r s' evs :
    pause soundId s = Ret r s' evs -> call cfg s s'
| call_resume pf soundId s r s' evs :
    resume pf soundId s = Ret r s' evs -> call cfg s s'
| call_seek soundId position s r s' evs :
    seek soundId position s = Ret r s' evs -> call cfg s s'
| call_callback device frameCount s s' evs :
    data_callback device frameCount s = Ret tt s' evs -> call cfg s s'
| call_worker s s' evs :
    queue_run_next s = Ret tt s' evs -> call cfg s s'
| call_finish device k t q s s' evs :
    gQueue s = (k, t) :: q ->
    onFinished device (set_gQueue q s) = Ret tt s' evs -> call cfg s s'.

(** The states the engine can be in: those after construction and any
    number of calls. *)
Inductive reachable (cfg : Settings) : System -> Prop :=
| reachable_new pf : reachable cfg (Audio_Audio cfg pf)
| reachable_call s s' : reachable cfg s -> call cfg s s' -> reachable cfg s'.




(** ** What [play] registers *)

(** The device a session is created for: the one passed in or, without
    one, the one the default-device pointer points to. *)
Definition chosen_device (playbackDevice : option AudioDevice) (s : System)
  : option AudioDevice :=
  match playbackDevice with
  | Some d => Some d
  | None =>
      match defaultOutputDevice s with
      | Some k => devices s !! k
      | None => None
      end
  end.

(** The session [play] builds in state [s] for a file of [len] frames at
    [rate] frames per second. *)
Definition new_session (sound : Sound) (dev : AudioDevice) (s : System)
    (len rate ms : Z) : PlayingSound :=
  mkPlayingSound sound dev (next_ptr s + 1) (next_ptr s) len ms 0 0 rate
    (Num.u32 (playingSoundIdCounter s + 1)) false false false 0 0.

(** One step of the second loop of the constructor: a stored setting
    overwrites the volume of the device of its name, if there is one. *)
Definition restore_volume (devs : gmap string AudioDevice) (device : AudioDevice)
  : gmap string AudioDevice :=
  match devs !! name device with
  | Some d => <[name device := mkAudioDevice (name d) (isDefault d) (volume device)]> devs
  | None => devs
  end.

(** No stream object is written. *)
Definition keeps_streams (s s' : System) : Prop := streams s' = streams s.

(** ** [SystemInfo::getSystemInfo] (Linux)

    The host's answers are inputs: what [exec("lsb_release -a", result)]
    returns and leaves in [result], and the value of the environment
    variable [XDG_CURRENT_DESKTOP]. *)

Inductive InfoLog :=
| LsbOutputEmpty
| LsbFailed
| DesktopNotSet.

Definition newline : string := String (Ascii.ascii_of_nat 10) EmptyString.

Definition getSystemInfo (exec_ok : bool) (exec_result : string)
    (desktopEnv : option string) : string * list InfoLog :=
  let '(result, log1) :=
    if exec_ok then
      if String.eqb exec_result EmptyString
      then ("lsb_release failed"%string, [LsbOutputEmpty])
      else (exec_result, [])
    else (exec_result, [LsbFailed]) in
  match desktopEnv with
  | Some env =>
      (String.append result
         (String.append (String.append (String.append newline "Current Desktop: ") env)
            newline),
       log1)
  | None => (result, log1 ++ [DesktopNotSet])
  end.

(** ** Concrete states used by the examples below *)

Module Ex.

Definition speakers : AudioDevice := mkAudioDevice "Speakers" true Num.one_f.

(** A platform with two output devices on which ["a.wav"] (ten seconds at
    44.1 kHz) decodes and nothing else does. *)
Definition platform : Platform :=
  mkPlatform "Speakers" true (Some ["HDMI"; "Speakers"]%string)
    (fun p => if String.eqb p "a.wav" then Some (441000, 44100) else None)
    true true.

(** The same platform when no output stream can be opened, when an
    opened stream cannot be started, and when enumeration fails. *)
Definition no_output : Platform :=
  mkPlatform "Speakers" true (Some ["HDMI"; "Speakers"]%string)
    (decode_file platform) false true.

Definition no_start : Platform :=
  mkPlatform "Speakers" true (Some ["HDMI"; "Speakers"]%string)
    (decode_file platform) true false.

Definition no_context : Platform :=
  mkPlatform "Speakers" false None (decode_file platform) true true.

Definition overlapping : Settings := mkSettings true [].
Definition exclusive : Settings := mkSettings false [].

Definition a_wav : Sound := mkSound "a.wav".

(** The session [play] creates for ["a.wav"]: stream object at address 2,
    decoder object at address 1. *)
Definition session : PlayingSound :=
  mkPlayingSound a_wav speakers 2 1 441000 10000 0 0 44100 1
    false false false 0 0.

Definition fresh : System := Audio_Audio overlapping platform.

Definition playing : System :=
  mkSystem (devices fresh) (Some "Speakers"%string) {[ 2 := session ]} 1 3
    {[ 1 := mkDecoder 44100 441000 0 true ]}
    {[ 2 := mkDevice (Some 1) "Speakers" Num.one_f StreamStarted ]} [].

(** The same session once the decoder has delivered its last frame. *)
Definition played_out : PlayingSound :=
  set_readInMs 10000 (set_readFrames 441000 session).

Definition at_end : System :=
  mkSystem (devices fresh) (Some "Speakers"%string) {[ 2 := played_out ]} 1 3
    {[ 1 := mkDecoder 44100 441000 441000 true ]}
    {[ 2 := mkDevice (Some 1) "Speakers" Num.one_f StreamStarted ]} [].

(** ... and once the callback has queued the finish task. *)
Definition finishing : System := set_gQueue [(2, TaskOnFinished)] at_end.

(** A session that repeats and a state in which it plays. *)
Definition looping : PlayingSound :=
  mkPlayingSound a_wav speakers 2 1 441000 10000 0 0 44100 1
    false true false 0 0.

Definition playing_loop : System :=
  set_playingSounds {[ 2 := looping ]} playing.

Definition loop_at_end : System :=
  set_playingSounds {[ 2 := set_readInMs 10000 (set_readFrames 441000 looping) ]}
    at_end.

(** The state a computation ends in. *)
Definition after {A} (m : M A) (s : System) : System :=
  match m s with Ret _ s' _ => s' | Undefined => s end.

Definition stream_2 : ma_device :=
  mkDevice (Some 1) "Speakers" Num.one_f StreamStarted.

(** [playing] after [stop 1]: nothing registered, stream 2 and decoder 1
    released. *)
Definition released : System := after (stop 1) playing.

(** The [float] 0.5, and stored settings with two entries for the
    speakers and one for a device that is not plugged in. *)
Definition half_f : spec_float := S754_finite false 8388608 (-24).

Definition quiet_speakers : Settings :=
  mkSettings true
    [mkAudioDevice "Speakers" false (S754_zero false);
     mkAudioDevice "Speakers" false half_f;
     mkAudioDevice "Headset" false half_f].

(** [playing] after [seek 1 2500]: a seek to frame 110250 is pending. *)
Definition seeking : System := after (seek 1 2500) playing.

(** The device table built from those settings. *)
Definition quiet_table : gmap string AudioDevice :=
  devices (Audio_Audio quiet_speakers platform).

Definition hdmi : AudioDevice := mkAudioDevice "HDMI" false Num.one_f.

(** [playing] after [pause 1]. *)
Definition paused_state : System := after (pause 1) playing.

(** Two plays of ["a.wav"] in a row with overlapping disabled, and the
    session of the second. *)
Definition first_play : System :=
  after (play exclusive platform a_wav None)
    (Audio_Audio exclusive platform).

Definition second_play : System :=
  after (play exclusive platform a_wav None) first_play.

Definition second_session : PlayingSound :=
  mkPlayingSound a_wav speakers 4 3 441000 10000 0 0 44100 2
    false false false 0 0.




End Ex.

(** ** Reduction behaviour

    The monad operations and the field updates unfold when applied; the
    engine operations stay folded until a lemma or [unfold] opens them. *)

Arguments bind {A B} m k s /.
Arguments ret {A} a s /.
Arguments get s /.
Arguments modify f s /.
Arguments emit e s /.
Arguments undefined {A} s /.
Arguments when b m /.
Arguments lift_option {A} o s /.
Arguments new_object s /.
Arguments the_decoder dec s /.
Arguments the_stream dev s /.
Arguments store_decoder dec d s /.
Arguments store_stream dev d s /.
Arguments next_id s /.
Arguments set_devices v s /.
Arguments set_defaultOutputDevice v s /.
Arguments set_playingSounds v s /.
Arguments set_playingSoundIdCounter v s /.
Arguments set_next_ptr v s /.
Arguments set_decoders v s /.
Arguments set_streams v s /.
Arguments set_gQueue v s /.
Arguments set_readFrames v p /.
Arguments set_readInMs v p /.
Arguments set_paused v p /.
Arguments set_shouldSeek v p /.
Arguments set_seekTo v p /.
Arguments set_buffer v p /.

Arguments ma_decoder_get_length_in_pcm_frames : simpl never.
Arguments ma_decoder_init_file : simpl never.
Arguments ma_decoder_uninit : simpl never.
Arguments ma_decoder_read_pcm_frames : simpl never.
Arguments ma_decoder_seek_to_pcm_frame : simpl never.
Arguments ma_device_init : simpl never.
Arguments ma_device_start : simpl never.
Arguments ma_device_stop : simpl never.
Arguments ma_device_uninit : simpl never.
Arguments for_each : simpl never.
Arguments push_unique : simpl never.
Arguments stopAll : simpl never.
Arguments deref_defaultOutputDevice : simpl never.
Arguments play : simpl never.
Arguments stop_lookup : simpl never.
Arguments stop_teardown : simpl never.
Arguments stop_erase : simpl never.
Arguments stop : simpl never.
Arguments pause : simpl never.
Arguments resume : simpl never.
Arguments onFinished : simpl never.
Arguments onSoundProgressed : simpl never.
Arguments onSoundSeeked : simpl never.
Arguments seek : simpl never.
Arguments data_callback : simpl never.
Arguments run_task : simpl never.
Arguments queue_run_next : simpl never.
Arguments getVolume : simpl never.
Arguments find_sound : simpl never.
Arguments entries : simpl never.
Arguments wf : simpl never.
Arguments Num.scale : simpl never.
Arguments Num.u64 : simpl never.
Arguments Num.u32 : simpl never.

(** ** Basic facts *)

Lemma forallb_map_to_list {V} (f : Z * V -> bool) (m : gmap Z V) :
  forallb f (map_to_list m) = true <->
  forall k v, m !! k = Some v -> f (k, v) = true.
Proof.
  rewrite forallb_forall. split.
  - intros H k v Hkv. apply H. apply list_elem_of_In.
    by apply elem_of_map_to_list.
  - intros H [k v] Hin. apply H. apply elem_of_map_to_list.
    by apply list_elem_of_In.
Qed.

Lemma wf_session (s : System) k sound :
  wf s = true -> playingSounds s !! k = Some sound ->
  is_Some (streams s !! rawDevice sound).
Proof.
  unfold wf. rewrite andb_true_iff. intros [H _] Hk.
  rewrite forallb_map_to_list in H. specialize (H _ _ Hk).
  by apply bool_decide_eq_true in H.
Qed.

Lemma wf_stream (s : System) dev d p :
  wf s = true -> streams s !! dev = Some d -> pUserData d = Some p ->
  is_Some (decoders s !! p).
Proof.
  unfold wf. rewrite andb_true_iff. intros [_ H] Hd Hp.
  rewrite forallb_map_to_list in H. specialize (H _ _ Hd).
  simpl in H. rewrite Hp in H. by apply bool_decide_eq_true in H.
Qed.

(** *** [find_sound]: the entry with the least key among those whose id
    matches *)

#[local] Instance key_le_total : Total key_le.
Proof. intros a b. unfold key_le. lia. Qed.

#[local] Instance key_le_trans : Transitive key_le.
Proof. intros a b c. unfold key_le. lia. Qed.

Lemma elem_of_entries (m : gmap Z PlayingSound) k v :
  (k, v) ∈ entries m <-> m !! k = Some v.
Proof.
  unfold entries. rewrite merge_sort_Permutation.
  apply elem_of_map_to_list.
Qed.

Lemma find_first {A} (f : A -> bool) (l : list A) x :
  List.find f l = Some x ->
  exists l1 l2, l = l1 ++ x :: l2 /\ f x = true /\ Forall (fun y => f y = false) l1.
Proof.
  induction l as [|a l IH]; simpl; [discriminate|].
  destruct (f a) eqn:Ha.
  - intros [= ->]. exists [], l. by repeat split.
  - intros H. destruct (IH H) as (l1 & l2 & -> & Hx & Hl1).
    exists (a :: l1), l2. repeat split; [done|]. by constructor.
Qed.

Lemma find_sound_Some soundId (m : gmap Z PlayingSound) k v :
  find_sound soundId m = Some (k, v) <->
  m !! k = Some v /\ ps_id v = soundId /\
  (forall k' v', m !! k' = Some v' -> ps_id v' = soundId -> k <= k').
Proof.
  assert (Hdir : forall k v, find_sound soundId m = Some (k, v) ->
    m !! k = Some v /\ ps_id v = soundId /\
    (forall k' v', m !! k' = Some v' -> ps_id v' = soundId -> k <= k')).
  { clear k v. intros k v H. unfold find_sound in H.
    destruct (find_first _ _ _ H) as (l1 & l2 & Hl & Hf & Hl1).
    simpl in Hf. apply Z.eqb_eq in Hf.
    assert (Hin : (k, v) ∈ entries m) by (rewrite Hl; set_solver).
    split; [by apply elem_of_entries|]. split; [done|].
    intros k' v' Hk' Hid.
    apply elem_of_entries in Hk'. rewrite Hl in Hk'.
    apply elem_of_app in Hk' as [Hk'|Hk'].
    - rewrite Forall_forall in Hl1. specialize (Hl1 _ Hk'). simpl in Hl1.
      apply Z.eqb_neq in Hl1. done.
    - apply elem_of_cons in Hk' as [[= -> ->]|Hk']; [lia|].
      pose proof (StronglySorted_merge_sort key_le (map_to_list m)) as Hs.
      fold (entries m) in Hs. rewrite Hl in Hs.
      apply StronglySorted_app_1_r in Hs.
      apply StronglySorted_inv in Hs as [_ Hs].
      rewrite Forall_forall in Hs. apply (Hs (k', v') Hk'). }
  split; [apply Hdir|].
  intros (Hk & Hid & Hmin).
  destruct (find_sound soundId m) as [[k0 v0]|] eqn:Hfind.
  - destruct (Hdir _ _ eq_refl) as (Hk0 & Hid0 & Hmin0).
    assert (k0 = k) as -> by (specialize (Hmin _ _ Hk0 Hid0);
                              specialize (Hmin0 _ _ Hk Hid); lia).
    congruence.
  - exfalso. unfold find_sound in Hfind.
    assert (Hin : In (k, v) (entries m))
      by (apply list_elem_of_In; by apply elem_of_entries).
    pose proof (find_none _ _ Hfind _ Hin) as Hf. simpl in Hf.
    apply Z.eqb_neq in Hf. done.
Qed.

Lemma find_sound_None soundId (m : gmap Z PlayingSound) :
  find_sound soundId m = None <->
  forall k v, m !! k = Some v -> ps_id v <> soundId.
Proof.
  split.
  - intros H k v Hk Hid. unfold find_sound in H.
    assert (Hin : In (k, v) (entries m))
      by (apply list_elem_of_In; by apply elem_of_entries).
    pose proof (find_none _ _ H _ Hin) as Hf. simpl in Hf.
    apply Z.eqb_neq in Hf. done.
  - intros H. destruct (find_sound soundId m) as [[k v]|] eqn:Hf; [|done].
    apply find_sound_Some in Hf as (Hk & Hid & _). by destruct (H _ _ Hk).
Qed.

(** Updating the found entry in place without changing its id leaves it
    the found entry. *)
Lemma find_sound_update soundId (m : gmap Z PlayingSound) k v v' :
  find_sound soundId m = Some (k, v) -> ps_id v' = ps_id v ->
  find_sound soundId (<[k := v']> m) = Some (k, v').
Proof.
  intros (Hk & Hid & Hmin)%find_sound_Some Hid'.
  apply find_sound_Some. split; [by rewrite lookup_insert_eq|].
  split; [congruence|].
  intros k' w Hk' Hw. destruct (decide (k = k')) as [->|Hne]; [lia|].
  rewrite lookup_insert_ne in Hk' by done. eauto.
Qed.

(** ** Running a computation step by step *)

Lemma bind_Ret {A B} (m : M A) (k : A -> M B) s a s1 e1 :
  m s = Ret a s1 e1 ->
  bind m k s = match k a s1 with
               | Ret b s2 e2 => Ret b s2 (e1 ++ e2)
               | Undefined => Undefined
               end.
Proof. unfold bind. by intros ->. Qed.

Lemma bind_Undefined {A B} (m : M A) (k : A -> M B) s :
  m s = Undefined -> bind m k s = Undefined.
Proof. unfold bind. by intros ->. Qed.

(** ** The example states *)

Lemma fresh_play_a_wav :
  play Ex.overlapping Ex.platform Ex.a_wav None Ex.fresh
  = Ret (Some Ex.session) Ex.playing
      [Ma (DecoderInitFile "a.wav" 1); Ma (DeviceInit 2); Ma (DeviceStart 2);
       GuiSoundPlayed Ex.session].
Proof. vm_compute. reflexivity. Qed.

Lemma playing_wf : wf Ex.playing = true.
Proof. vm_compute. reflexivity. Qed.

Lemma playing_find_session : find_sound 1 (playingSounds Ex.playing) = Some (2, Ex.session).
Proof. vm_compute. reflexivity. Qed.

(** ** [getVolume] *)

(** C9. [getVolume] is a total function of the device collection and the
    name: for a name that is present it returns that device's stored
    volume, and for a name that is absent it returns exactly 1.0 (the
    binary32 number with mantissa 2^23 and exponent -23). *)
Theorem getVolume_known_or_one (s : System) (n : string) :
  (forall d, devices s !! n = Some d -> getVolume s n = volume d) /\
  (devices s !! n = None -> getVolume s n = S754_finite false 8388608 (-23)).
Proof.
  unfold getVolume. split.
  - by intros d ->.
  - by intros ->.
Qed.

Lemma getVolume_known_or_one_witness :
  getVolume Ex.playing "Speakers" = volume Ex.speakers /\
  getVolume Ex.playing "Headset" = S754_finite false 8388608 (-23).
Proof.
  split.
  - apply (proj1 (getVolume_known_or_one Ex.playing "Speakers")).
    vm_compute. reflexivity.
  - apply (proj2 (getVolume_known_or_one Ex.playing "Headset")).
    vm_compute. reflexivity.
Defined.

(** ** [pause] and [resume] *)

Lemma pause_unknown soundId s :
  find_sound soundId (playingSounds s) = None ->
  pause soundId s = Ret None s [Log (FailedPause soundId)].
Proof. intros H. unfold pause. cbn. by rewrite H. Qed.

Lemma resume_unknown pf soundId s :
  find_sound soundId (playingSounds s) = None ->
  resume pf soundId s = Ret None s [Log (FailedResume soundId)].
Proof. intros H. unfold resume. cbn. by rewrite H. Qed.

Lemma ma_device_stop_known dev d s :
  streams s !! dev = Some d ->
  ma_device_stop dev s
  = Ret tt (set_streams (<[dev := stopped d]> (streams s)) s) [Ma (DeviceStop dev)].
Proof.
  intros Hd. unfold ma_device_stop, stopped. cbn. rewrite Hd. cbn.
  destruct (dev_state d); cbn; try done.
  all: rewrite insert_id; [by destruct s | by destruct d].
Qed.

Lemma ma_device_start_known pf dev d s :
  streams s !! dev = Some d ->
  ma_device_start pf dev s
  = Ret (start_result pf d) (set_streams (<[dev := started pf d]> (streams s)) s)
      [Ma (DeviceStart dev)].
Proof.
  intros Hd. unfold ma_device_start, started, start_result. cbn. rewrite Hd. cbn.
  destruct (dev_state d); cbn; try destruct (device_start_ok pf); cbn; try done.
  all: rewrite insert_id; [by destruct s | by destruct d].
Qed.

Lemma set_paused_same b sound : paused sound = b -> set_paused b sound = sound.
Proof. intros <-. by destruct sound. Qed.

Lemma pause_found soundId s key sound d :
  find_sound soundId (playingSounds s) = Some (key, sound) ->
  streams s !! rawDevice sound = Some d ->
  pause soundId s =
    if paused sound then Ret (Some sound) s []
    else Ret (Some (set_paused true sound))
           (set_playingSounds (<[key := set_paused true sound]> (playingSounds s))
              (set_streams (<[rawDevice sound := stopped d]> (streams s)) s))
           [Ma (DeviceStop (rawDevice sound))].
Proof.
  intros Hf Hd. unfold pause. cbn. rewrite Hf. cbn. rewrite Hd. cbn.
  destruct (paused sound); cbn; [done|].
  rewrite (ma_device_stop_known _ _ _ Hd). done.
Qed.

Lemma resume_found pf soundId s key sound d :
  find_sound soundId (playingSounds s) = Some (key, sound) ->
  streams s !! rawDevice sound = Some d ->
  resume pf soundId s =
    if paused sound then
      Ret (Some (set_paused false sound))
        (set_playingSounds (<[key := set_paused false sound]> (playingSounds s))
           (set_streams (<[rawDevice sound := started pf d]> (streams s)) s))
        [Ma (DeviceStart (rawDevice sound))]
    else Ret (Some sound) s [].
Proof.
  intros Hf Hd. unfold resume. cbn. rewrite Hf. cbn. rewrite Hd. cbn.
  destruct (paused sound); cbn; [|done].
  rewrite (ma_device_start_known _ _ _ _ Hd). done.
Qed.

Lemma started_ok pf d :
  device_start_ok pf = true -> dev_state d <> StreamUninit ->
  dev_state (started pf d) = StreamStarted.
Proof. intros Hok Ho. unfold started. rewrite Hok. by destruct (dev_state d). Qed.

Lemma started_fail pf d : device_start_ok pf = false -> started pf d = d.
Proof. intros Hf. unfold started. rewrite Hf. by destruct (dev_state d). Qed.

Lemma stopped_open d : dev_state d <> StreamUninit -> dev_state (stopped d) <> StreamUninit.
Proof. unfold stopped. by destruct (dev_state d) eqn:E; cbn; rewrite ?E. Qed.

(** C7 (as the code has it). For a registered id, [pause] stops the
    hardware stream only when the session is not paused yet and returns
    the session (now marked paused) either way; the [resume] that follows
    calls [ma_device_start] on the stream, clears the paused flag and
    returns the session with the [readFrames] and [readInMs] it had at the
    moment of [pause]; no other session changes.  The stream runs again
    when that call succeeds on an initialised stream; its result is
    dropped, so when it fails the stream is left as [pause] left it while
    the session is returned as resumed.  For an unknown id both return
    nothing and report the failure. *)
Theorem pause_then_resume (pf : Platform) (soundId : Z) (s : System) :
  wf s = true ->
  match find_sound soundId (playingSounds s) with
  | None =>
      pause soundId s = Ret None s [Log (FailedPause soundId)] /\
      resume pf soundId s = Ret None s [Log (FailedResume soundId)]
  | Some (key, sound) =>
      exists d s1 s2 snap1 snap2,
        streams s !! rawDevice sound = Some d /\
        pause soundId s
        = Ret (Some snap1) s1
            (if paused sound then [] else [Ma (DeviceStop (rawDevice sound))]) /\
        playingSounds s1 !! key = Some snap1 /\
        paused snap1 = true /\
        streams s1 !! rawDevice sound
        = Some (if paused sound then d else stopped d) /\
        resume pf soundId s1
        = Ret (Some snap2) s2 [Ma (DeviceStart (rawDevice sound))] /\
        playingSounds s2 = <[key := snap2]> (playingSounds s) /\
        streams s2 !! rawDevice sound
        = Some (started pf (if paused sound then d else stopped d)) /\
        snap2 = set_paused false sound /\
        paused snap2 = false /\
        readFrames snap2 = readFrames sound /\
        readInMs snap2 = readInMs sound /\
        (device_start_ok pf = true -> dev_state d <> StreamUninit ->
         exists d2, streams s2 !! rawDevice sound = Some d2 /\
                    dev_state d2 = StreamStarted) /\
        (device_start_ok pf = false ->
         streams s2 !! rawDevice sound
         = Some (if paused sound then d else stopped d))
  end.
Proof.
  intros Hwf.
  destruct (find_sound soundId (playingSounds s)) as [[key sound]|] eqn:Hf.
  2: { split; [by apply pause_unknown | by apply resume_unknown]. }
  pose proof Hf as (Hk & Hid & _)%find_sound_Some.
  destruct (wf_session _ _ _ Hwf Hk) as [d Hd].
  rewrite (pause_found _ _ _ _ _ Hf Hd).
  destruct (paused sound) eqn:Hp.
  - exists d, s. eexists. exists sound. eexists.
    rewrite (resume_found _ _ _ _ _ _ Hf Hd), Hp. cbn.
    split_and!; first [done | reflexivity | cbn; by rewrite lookup_insert_eq | idtac].
    + intros Hok Ho. eexists. split; [cbn; apply lookup_insert_eq|].
      by apply started_ok.
    + intros Hfl. cbn. rewrite lookup_insert_eq. by rewrite started_fail.
  - eexists d, _, _, (set_paused true sound), _.
    split; [done|]. split; [reflexivity|]. cbn.
    split; [by rewrite lookup_insert_eq|]. split; [done|].
    split; [by rewrite lookup_insert_eq|].
    pose proof (find_sound_update _ _ _ _ (set_paused true sound) Hf eq_refl) as Hf1.
    rewrite (resume_found pf soundId _ key (set_paused true sound) (stopped d));
      [| exact Hf1 | cbn; by rewrite lookup_insert_eq].
    cbn. split; [reflexivity|]. cbn. rewrite !insert_insert_eq.
    split_and!; first [done | reflexivity | cbn; by rewrite lookup_insert_eq | idtac].
    + intros Hok Ho. eexists. split; [cbn; apply lookup_insert_eq|].
      apply started_ok; [done|by apply stopped_open].
    + intros Hfl. cbn. rewrite lookup_insert_eq. by rewrite started_fail.
Qed.

(** ["a.wav"] is paused and resumed: on a platform that starts the stream
    it runs again and the state is what it was; on one that fails to, the
    session comes back as resumed with its stream stopped. *)
Lemma pause_then_resume_witness :
  (exists s1 s2 d2,
      pause 1 Ex.playing
      = Ret (Some (set_paused true Ex.session)) s1 [Ma (DeviceStop 2)] /\
      resume Ex.platform 1 s1
      = Ret (Some Ex.session) s2 [Ma (DeviceStart 2)] /\
      playingSounds s2 = playingSounds Ex.playing /\
      streams s2 = streams Ex.playing /\
      streams s2 !! 2 = Some d2 /\ dev_state d2 = StreamStarted) /\
  (exists s1 s2 snap,
      pause 1 Ex.playing
      = Ret (Some (set_paused true Ex.session)) s1 [Ma (DeviceStop 2)] /\
      resume Ex.no_start 1 s1 = Ret (Some snap) s2 [Ma (DeviceStart 2)] /\
      paused snap = false /\ readFrames snap = readFrames Ex.session /\
      streams s2 !! 2 = Some (stopped Ex.stream_2)).
Proof.
  split.
  - pose proof (pause_then_resume Ex.platform 1 Ex.playing playing_wf) as H.
    rewrite playing_find_session in H.
    destruct H as (d & s1 & s2 & snap1 & snap2 & Hd & Hp & _ & _ & _ & Hr
                   & _ & _ & _ & _ & _ & _ & Hok & _).
    assert (Hd2 : d = Ex.stream_2) by (vm_compute in Hd; by injection Hd as <-).
    destruct (Hok eq_refl) as (d2 & Hs2 & Hst); [by rewrite Hd2|].
    exists s1, s2, d2. split; [|split; [|split; [|split; [|split]]]].
    + rewrite Hp. vm_compute in Hp. by injection Hp as <- <-.
    + rewrite Hr. vm_compute in Hp. injection Hp as <- <-.
      vm_compute in Hr. by injection Hr as <- <-.
    + vm_compute in Hp. injection Hp as <- <-.
      vm_compute in Hr. injection Hr as <- <-. by vm_compute.
    + vm_compute in Hp. injection Hp as <- <-.
      vm_compute in Hr. injection Hr as <- <-. by vm_compute.
    + exact Hs2.
    + exact Hst.
  - pose proof (pause_then_resume Ex.no_start 1 Ex.playing playing_wf) as H.
    rewrite playing_find_session in H.
    destruct H as (d & s1 & s2 & snap1 & snap2 & Hd & Hp & _ & _ & _ & Hr
                   & _ & _ & _ & Hpa & Hrf & _ & _ & Hfail).
    assert (Hd2 : d = Ex.stream_2) by (vm_compute in Hd; by injection Hd as <-).
    exists s1, s2, snap2. split; [|split; [exact Hr|split; [exact Hpa|split]]].
    + rewrite Hp. vm_compute in Hp. by injection Hp as <- <-.
    + exact Hrf.
    + pose proof (Hfail eq_refl) as Hs2. rewrite Hd2 in Hs2. exact Hs2.
Defined.

(** The stream is not restarted when [ma_device_start] fails: [resume]
    returns the session as resumed all the same, with the stream stopped. *)
Lemma resume_returns_resumed_with_stream_stopped :
  exists s1 s2 snap,
    pause 1 Ex.playing
    = Ret (Some (set_paused true Ex.session)) s1 [Ma (DeviceStop 2)] /\
    resume Ex.no_start 1 s1 = Ret (Some snap) s2 [Ma (DeviceStart 2)] /\
    paused snap = false /\
    streams s2 !! 2
    = Some (mkDevice (Some 1) "Speakers" Num.one_f StreamStopped).
Proof.
  eexists _, _, _. split; [vm_compute; reflexivity|].
  split; [vm_compute; reflexivity|]. split; vm_compute; reflexivity.
Qed.

(** ** [seek] *)

Lemma seek_unknown soundId position s :
  find_sound soundId (playingSounds s) = None ->
  seek soundId position s = Ret None s [Log (FailedSeek soundId)].
Proof. intros H. unfold seek. cbn. by rewrite H. Qed.

(** For a session of zero length (and so of zero milliseconds) the target
    is [position / 0.0 * 0.0], which is NaN: no position can be sought. *)
Lemma scale_by_zero position : Num.scale position 0 0 = None.
Proof.
  unfold Num.scale, Num.d_of_u64.
  change (binary_normalize 53 1024 0 0 false) with (S754_zero false).
  destruct (binary_normalize 53 1024 position 0 false) as [[]|[]| |[] m e];
    reflexivity.
Qed.

Lemma seek_found soundId position s key sound target ms :
  find_sound soundId (playingSounds s) = Some (key, sound) ->
  Num.scale position (lengthInMs sound) (ps_length sound) = Some target ->
  Num.scale target (ps_length sound) (lengthInMs sound) = Some ms ->
  seek soundId position s
  = Ret (Some (set_readInMs ms (set_readFrames target
                 (set_shouldSeek true (set_seekTo target sound)))))
      (set_playingSounds
         (<[key := set_shouldSeek true (set_seekTo target sound)]> (playingSounds s))
         s) [].
Proof.
  intros Hf Ht Hms. unfold seek. cbn. rewrite Hf. cbn. rewrite Ht. cbn.
  by rewrite Hms.
Qed.

(** For the ten-second sound every position from 0 to 10,000 ms comes
    back from [seek] as itself or one millisecond less. *)
Lemma example_sound_roundtrip p :
  0 <= p <= 10000 -> seek_roundtrip_ok 10000 441000 p = true.
Proof.
  intros Hp.
  assert (H : forallb (seek_roundtrip_ok 10000 441000)
                (List.map Z.of_nat (List.seq 0 (Z.to_nat 10001))) = true)
    by (vm_compute; reflexivity).
  rewrite forallb_forall in H. apply H.
  apply in_map_iff. exists (Z.to_nat p). split; [lia|].
  apply in_seq. lia.
Qed.



Example seek_example_sound_within_one_ms p :
  0 <= p <= 10000 ->
  exists rtn s',
    seek 1 p Ex.playing = Ret (Some rtn) s' [] /\
    (p - 1 <= readInMs rtn <= p).
Proof.
  intros Hp. pose proof (example_sound_roundtrip p Hp) as H.
  unfold seek_roundtrip_ok in H.
  destruct (Num.scale p 10000 441000) as [target|] eqn:Ht; [|done].
  destruct (Num.scale target 441000 10000) as [ms|] eqn:Hms; [|done].
  apply andb_true_iff in H as [H1 H2].
  rewrite (seek_found 1 p Ex.playing 2 Ex.session target ms
             playing_find_session Ht Hms).
  eexists _, _. split; [reflexivity|]. cbn. lia.
Qed.

(** Truncation shows in the snapshot: one millisecond into the same sound
    is frame 44, which reads back as millisecond 0. *)
Example seek_one_millisecond :
  exists rtn s', seek 1 1 Ex.playing = Ret (Some rtn) s' [] /\
                 readFrames rtn = 44 /\ readInMs rtn = 0.
Proof. vm_compute. eexists _, _. split_and!; reflexivity. Qed.


(** ** Releasing streams and decoders *)

Lemma wf_iff s :
  wf s = true <->
  (forall k sound, playingSounds s !! k = Some sound ->
                   is_Some (streams s !! rawDevice sound)) /\ heap_ok s.
Proof.
  split.
  - intros H. split.
    + intros k sound. by apply wf_session.
    + intros dev d p. by apply wf_stream.
  - intros [H1 H2]. unfold wf. apply andb_true_iff. split.
    + apply forallb_map_to_list. intros k v Hk. apply bool_decide_eq_true.
      by apply (H1 k).
    + apply forallb_map_to_list. intros k v Hk. simpl.
      destruct (pUserData v) eqn:Hp; [|done].
      apply bool_decide_eq_true. by apply (H2 k v).
Qed.

Lemma ma_device_uninit_known dev d s :
  streams s !! dev = Some d ->
  ma_device_uninit dev s
  = Ret tt (set_streams (<[dev := released_stream d]> (streams s)) s)
      [Ma (DeviceUninit dev)].
Proof.
  intros Hd. unfold ma_device_uninit, released_stream. cbn. rewrite Hd. cbn.
  destruct (dev_state d) eqn:E; cbn; try done.
  rewrite insert_id; [by destruct s | done].
Qed.

Lemma ma_decoder_uninit_known p dc s :
  decoders s !! p = Some dc ->
  ma_decoder_uninit (Some p) s
  = Ret tt (set_decoders (<[p := released_decoder dc]> (decoders s)) s)
      [Ma (DecoderUninit (Some p))].
Proof.
  intros Hd. unfold ma_decoder_uninit, released_decoder. cbn. by rewrite Hd.
Qed.

Lemma ma_decoder_uninit_null s :
  ma_decoder_uninit None s = Ret tt s [Ma (DecoderUninit None)].
Proof. reflexivity. Qed.

(** One teardown, as [stopAll] and [stop] perform it: read the decoder
    from the stream, release the stream, release the decoder. *)
Lemma teardown_ok (s0 s : System) (dev : Z) :
  same_engine s0 s -> heap_ok s -> is_Some (streams s !! dev) ->
  exists s' evs,
    (d <~ the_stream dev ;;
     ma_device_uninit dev ;;; ma_decoder_uninit (pUserData d)) s = Ret tt s' evs /\
    same_engine s0 s' /\ heap_ok s' /\ is_released s' dev /\
    (forall dev', is_Some (streams s !! dev') -> is_Some (streams s' !! dev')) /\
    (forall dev', is_released s dev' -> is_released s' dev') /\
    Forall (fun e => is_ma e = true) evs.
Proof.
  intros Hsame Hheap [d Hd]. cbn. rewrite Hd. cbn.
  rewrite (ma_device_uninit_known _ _ _ Hd).
  assert (Hrel : dev_state (released_stream d) = StreamUninit)
    by (unfold released_stream; by destruct (dev_state d) eqn:E).
  assert (Hrelp : forall p, pUserData (released_stream d) = Some p ->
                            pUserData d = Some p).
  { unfold released_stream. by destruct (dev_state d). }
  destruct (pUserData d) as [p|] eqn:Hp.
  - destruct (Hheap _ _ _ Hd Hp) as [dc Hdc].
    erewrite ma_decoder_uninit_known by (cbn; exact Hdc). cbn.
    eexists _, _. split; [reflexivity|]. split_and!.
    + destruct Hsame as (?&?&?&?&?&?). by repeat split.
    + intros dev' d' p' Hd' Hp'. cbn in *.
      assert (is_Some (decoders s !! p')) as [x Hx].
      { destruct (decide (dev = dev')) as [<-|Hne].
        - rewrite lookup_insert_eq in Hd'. injection Hd' as <-.
          apply Hrelp in Hp'. rewrite <- Hp in Hp'. eapply Hheap; eauto.
        - rewrite lookup_insert_ne in Hd' by done. eapply Hheap; eauto. }
      destruct (decide (p = p')) as [<-|Hne].
      * rewrite lookup_insert_eq. eauto.
      * rewrite lookup_insert_ne by done. eauto.
    + eexists. cbn. rewrite lookup_insert_eq. eauto.
    + intros dev' [x Hx]. cbn.
      destruct (decide (dev = dev')) as [<-|Hne].
      * rewrite lookup_insert_eq. eauto.
      * rewrite lookup_insert_ne by done. eauto.
    + intros dev' (x & Hx & Hs). unfold is_released. cbn.
      destruct (decide (dev = dev')) as [<-|Hne].
      * rewrite lookup_insert_eq. eauto.
      * rewrite lookup_insert_ne by done. eauto.
    + by repeat constructor.
  - rewrite ma_decoder_uninit_null. cbn.
    eexists _, _. split; [reflexivity|]. split_and!.
    + destruct Hsame as (?&?&?&?&?&?). by repeat split.
    + intros dev' d' p' Hd' Hp'. cbn in *.
      destruct (decide (dev = dev')) as [<-|Hne].
      * rewrite lookup_insert_eq in Hd'. injection Hd' as <-.
        apply Hrelp in Hp'. congruence.
      * rewrite lookup_insert_ne in Hd' by done. eapply Hheap; eauto.
    + eexists. cbn. rewrite lookup_insert_eq. eauto.
    + intros dev' [x Hx]. cbn.
      destruct (decide (dev = dev')) as [<-|Hne].
      * rewrite lookup_insert_eq. eauto.
      * rewrite lookup_insert_ne by done. eauto.
    + intros dev' (x & Hx & Hs). unfold is_released. cbn.
      destruct (decide (dev = dev')) as [<-|Hne].
      * rewrite lookup_insert_eq. eauto.
      * rewrite lookup_insert_ne by done. eauto.
    + by repeat constructor.
Qed.

Lemma teardown_all_ok (s0 : System) (l : list (Z * PlayingSound)) :
  forall s,
    same_engine s0 s -> heap_ok s ->
    (forall x, x ∈ l -> is_Some (streams s !! rawDevice (snd x))) ->
    exists s' evs,
      for_each l (fun sound =>
        d <~ the_stream (rawDevice (snd sound)) ;;
        let decoder := pUserData d in
        ma_device_uninit (rawDevice (snd sound)) ;;;
        ma_decoder_uninit decoder) s = Ret tt s' evs /\
      same_engine s0 s' /\ heap_ok s' /\
      (forall x, x ∈ l -> is_released s' (rawDevice (snd x))) /\
      (forall dev, is_released s dev -> is_released s' dev) /\
      (forall dev, is_Some (streams s !! dev) -> is_Some (streams s' !! dev)) /\
      Forall (fun e => is_ma e = true) evs.
Proof.
  induction l as [|x l IH]; intros s Hsame Hheap Hl.
  - exists s, []. cbn. split_and!; try done. intros x Hx. by apply elem_of_nil in Hx.
  - destruct (teardown_ok s0 s (rawDevice (snd x)) Hsame Hheap)
      as (s1 & e1 & H1 & Hsame1 & Hheap1 & Hrel1 & Hdom1 & Hkeep1 & Hev1).
    { apply Hl. by left. }
    destruct (IH s1 Hsame1 Hheap1)
      as (s2 & e2 & H2 & Hsame2 & Hheap2 & Hrel2 & Hkeep2 & Hdom2 & Hev2).
    { intros y Hy. apply Hdom1, Hl. by right. }
    exists s2, (e1 ++ e2). split.
    { change (for_each (x :: l) ?b) with (b x ;;; for_each l b).
      rewrite (bind_Ret _ _ _ _ _ _ H1). cbv beta. by rewrite H2. }
    split_and!; try done.
    + intros y [->|Hy]%elem_of_cons; [by apply Hkeep2 | by apply Hrel2].
    + intros dev Hdev. by apply Hkeep2, Hkeep1.
    + intros dev Hdev. by apply Hdom2, Hdom1.
    + by apply Forall_app.
Qed.

Lemma same_engine_refl s : same_engine s s.
Proof. by repeat split. Qed.

Lemma stopAll_ok (s : System) :
  wf s = true ->
  exists s' evs,
    stopAll s = Ret tt s' evs /\
    playingSounds s' = ∅ /\
    devices s' = devices s /\ defaultOutputDevice s' = defaultOutputDevice s /\
    playingSoundIdCounter s' = playingSoundIdCounter s /\
    next_ptr s' = next_ptr s /\ gQueue s' = gQueue s /\
    wf s' = true /\
    (forall k sound, playingSounds s !! k = Some sound ->
                     is_released s' (rawDevice sound)) /\
    Forall (fun e => is_ma e = true) evs.
Proof.
  intros [Hsess Hheap]%wf_iff.
  destruct (teardown_all_ok s (entries (playingSounds s)) s)
    as (s1 & e1 & H1 & Hsame & Hheap1 & Hrel & _ & _ & Hev);
    [apply same_engine_refl | done | |].
  { intros [k v] Hx%elem_of_entries. by apply (Hsess k). }
  destruct Hsame as (Hd & Hdef & Hps & Hc & Hn & Hq).
  exists (set_playingSounds ∅ s1), (e1 ++ []). split.
  { unfold stopAll. rewrite (bind_Ret get _ s s s [] eq_refl).
    rewrite (bind_Ret _ _ _ _ _ _ H1). reflexivity. }
  cbn. split_and!; try done.
  - apply wf_iff. cbn. split; [|done]. intros k v Hk.
    by rewrite lookup_empty in Hk.
  - intros k v Hk.
    destruct (Hrel (k, v)) as (d & Hd' & Hs); [by apply elem_of_entries|].
    exists d. by cbn.
  - rewrite app_nil_r. done.
Qed.

(** ** [play] *)

Lemma ma_decoder_init_file_fail pf p dec s :
  decode_file pf p = None ->
  ma_decoder_init_file pf p dec s = Ret false s [Ma (DecoderInitFile p dec)].
Proof. intros H. unfold ma_decoder_init_file. cbn. by rewrite H. Qed.

Lemma ma_decoder_init_file_ok pf p dec s len rate :
  decode_file pf p = Some (len, rate) ->
  ma_decoder_init_file pf p dec s
  = Ret true (set_decoders (<[dec := mkDecoder rate len 0 true]> (decoders s)) s)
      [Ma (DecoderInitFile p dec)].
Proof. intros H. unfold ma_decoder_init_file. cbn. by rewrite H. Qed.

Lemma ma_device_init_fail pf decoder dev s :
  device_init_ok pf = false ->
  ma_device_init pf decoder dev s = Ret false s [Ma (DeviceInit dev)].
Proof. intros H. unfold ma_device_init. cbn. by rewrite H. Qed.

Lemma ma_device_init_ok pf decoder dev s :
  device_init_ok pf = true ->
  ma_device_init pf decoder dev s
  = Ret true
      (set_streams
         (<[dev := mkDevice (Some decoder) (default_name pf) Num.one_f StreamStopped]>
            (streams s)) s)
      [Ma (DeviceInit dev)].
Proof. intros H. unfold ma_device_init. cbn. by rewrite H. Qed.

(** With overlapping disabled, [play] is [stopAll] followed by what [play]
    does with overlapping allowed. *)
Lemma play_exclusive cfg pf sound playbackDevice s s1 e1 :
  allowOverlapping cfg = false ->
  stopAll s = Ret tt s1 e1 ->
  play cfg pf sound playbackDevice s
  = match play (mkSettings true (deviceSettings cfg)) pf sound playbackDevice s1 with
    | Ret a s2 e2 => Ret a s2 (e1 ++ e2)
    | Undefined => Undefined
    end.
Proof.
  intros Hc Hs. unfold play. rewrite Hc. cbn [negb when allowOverlapping].
  rewrite (bind_Ret _ _ _ _ _ _ Hs).
  rewrite (bind_Ret (ret tt) _ s1 tt s1 [] eq_refl). cbn [app].
  match goal with |- match ?x with _ => _ end = _ => by destruct x end.
Qed.

Lemma play_bad_path_overlapping cfg pf sound playbackDevice s :
  allowOverlapping cfg = true ->
  decode_file pf (path sound) = None ->
  play cfg pf sound playbackDevice s
  = Ret None (set_next_ptr (next_ptr s + 1) s)
      [Ma (DecoderInitFile (path sound) (next_ptr s));
       Log (FailedCreateDecoder (path sound))].
Proof.
  intros Hc Hd. unfold play. rewrite Hc. cbn.
  rewrite (ma_decoder_init_file_fail _ _ _ _ Hd). reflexivity.
Qed.




(** C5. The decoder opens, the output stream does not: when
    [ma_device_init] fails, [play] returns nothing and reports the device
    failure, but the decoder it opened (object 1) is still initialised and
    no session refers to it; when [ma_device_start] fails, the sibling
    branch releases both the stream and the decoder. *)
Theorem play_stream_failure_decoder :
  (exists s',
     play Ex.overlapping Ex.no_output Ex.a_wav None Ex.fresh
     = Ret None s' [Ma (DecoderInitFile "a.wav" 1); Ma (DeviceInit 2);
                    Log FailedCreateDevice] /\
     decoders s' !! 1 = Some (mkDecoder 44100 441000 0 true) /\
     playingSounds s' = ∅) /\
  (exists s',
     play Ex.overlapping Ex.no_start Ex.a_wav None Ex.fresh
     = Ret None s' [Ma (DecoderInitFile "a.wav" 1); Ma (DeviceInit 2);
                    Ma (DeviceStart 2); Ma (DeviceUninit 2);
                    Ma (DecoderUninit (Some 1)); Log (FailedPlay "a.wav")] /\
     decoders s' !! 1 = Some (mkDecoder 44100 441000 0 false) /\
     playingSounds s' = ∅).
Proof.
  split; eexists; (split; [vm_compute; reflexivity|]);
    split; vm_compute; reflexivity.
Qed.

(** The same for every state and sound: a failed [ma_device_init] leaves
    the freshly opened decoder initialised. *)
Lemma play_device_init_failure cfg pf sound playbackDevice s len rate :
  allowOverlapping cfg = true ->
  decode_file pf (path sound) = Some (len, rate) ->
  device_init_ok pf = false ->
  exists s',
    play cfg pf sound playbackDevice s
    = Ret None s' [Ma (DecoderInitFile (path sound) (next_ptr s));
                   Ma (DeviceInit (next_ptr s + 1)); Log FailedCreateDevice] /\
    decoders s' !! next_ptr s = Some (mkDecoder rate len 0 true) /\
    playingSounds s' = playingSounds s.
Proof.
  intros Hc Hd Hi. unfold play. rewrite Hc. cbn.
  rewrite (ma_decoder_init_file_ok _ _ _ _ _ _ Hd). cbn.
  unfold ma_decoder_get_length_in_pcm_frames. cbn.
  repeat (rewrite lookup_insert_eq; cbn).
  rewrite (ma_device_init_fail _ _ _ _ Hi). cbn.
  eexists. split; [reflexivity|]. cbn. by rewrite lookup_insert_eq.
Qed.

(** ** Construction and the default device *)

Lemma getAudioDevices_isDefault pf d :
  d ∈ getAudioDevices pf -> (isDefault d = true <-> name d = default_name pf).
Proof.
  unfold getAudioDevices.
  destruct (context_init_ok pf); cbn; [|by intros ?%elem_of_nil].
  destruct (context_devices pf) as [infos|]; [|by intros ?%elem_of_nil].
  intros (raw & -> & _)%list_elem_of_fmap. cbn. apply String.eqb_eq.
Qed.

Lemma default_pointer_fold (l : list AudioDevice) :
  forall (acc : gmap string AudioDevice * option string),
    is_Some (snd (fold_left
      (fun (acc : gmap string AudioDevice * option string) device =>
         let devs := insert_new (name device) device (fst acc) in
         (devs, if isDefault device then Some (name device) else snd acc))
      l acc))
    <-> is_Some (snd acc) \/ exists d, d ∈ l /\ isDefault d = true.
Proof.
  induction l as [|x l IH]; intros acc; cbn [fold_left].
  - split; [by left|]. intros [H|(d & Hd & _)]; [done|by apply elem_of_nil in Hd].
  - rewrite IH. cbn [snd]. split.
    + intros [H|(d & Hd & Hdef)].
      * destruct (isDefault x) eqn:Hx; [|by left].
        right. exists x. split; [by left|done].
      * right. exists d. split; [by right|done].
    + intros [H|(d & [->|Hd]%elem_of_cons & Hdef)].
      * left. by destruct (isDefault x).
      * left. by rewrite Hdef.
      * right. by exists d.
Qed.

Lemma Audio_Audio_default cfg pf :
  is_Some (defaultOutputDevice (Audio_Audio cfg pf))
  <-> exists d, d ∈ getAudioDevices pf /\ isDefault d = true.
Proof.
  unfold Audio_Audio.
  pose proof (default_pointer_fold (getAudioDevices pf) (∅, None)) as H.
  destruct (fold_left _ (getAudioDevices pf) (∅, None)) as [devs def] eqn:E.
  cbn in *. rewrite H. split; [|by right].
  intros [[x Hx]|H']; [done|exact H'].
Qed.

Lemma play_without_default_overlapping cfg pf sound s len rate :
  allowOverlapping cfg = true ->
  defaultOutputDevice s = None ->
  decode_file pf (path sound) = Some (len, rate) ->
  device_init_ok pf = true -> device_start_ok pf = true ->
  play cfg pf sound None s = Undefined.
Proof.
  intros Hc Hdef Hd Hi Hst. unfold play. rewrite Hc. cbn.
  rewrite (ma_decoder_init_file_ok _ _ _ _ _ _ Hd). cbn.
  unfold ma_decoder_get_length_in_pcm_frames. cbn.
  repeat (rewrite lookup_insert_eq; cbn).
  rewrite (ma_device_init_ok _ _ _ _ Hi). cbn.
  erewrite ma_device_start_known by (cbn; apply lookup_insert_eq).
  unfold start_result. cbn. rewrite Hst. cbn.
  destruct (Num.scale len rate 1000); cbn; [|done].
  unfold deref_defaultOutputDevice. cbn. by rewrite Hdef.
Qed.

(** C10. The default-device pointer is set by the constructor exactly when
    an enumerated device carries the name of the platform's default stream.
    [play] without an explicit device dereferences that pointer
    unconditionally: in a state where it is not set, a [play] whose decoder
    and stream both open and start has no defined result. *)
Theorem play_needs_default_device (cfg : Settings) (pf : Platform) :
  (is_Some (defaultOutputDevice (Audio_Audio cfg pf))
   <-> exists d, d ∈ getAudioDevices pf /\ name d = default_name pf) /\
  (forall sound s len rate,
      wf s = true ->
      defaultOutputDevice s = None ->
      decode_file pf (path sound) = Some (len, rate) ->
      device_init_ok pf = true -> device_start_ok pf = true ->
      play cfg pf sound None s = Undefined).
Proof.
  split.
  - rewrite Audio_Audio_default. split; intros (d & Hd & H); exists d.
    + split; [done|]. by apply (getAudioDevices_isDefault pf d Hd).
    + split; [done|]. by apply (getAudioDevices_isDefault pf d Hd).
  - intros sound s len rate Hwf Hdef Hd Hi Hst.
    destruct (allowOverlapping cfg) eqn:Hc.
    + by eapply play_without_default_overlapping.
    + destruct (stopAll_ok s Hwf)
        as (s1 & e1 & Hs & _ & _ & Hdef1 & _).
      rewrite (play_exclusive _ _ _ _ _ _ _ Hc Hs).
      erewrite play_without_default_overlapping; try done.
      by rewrite Hdef1.
Qed.

(** Enumeration failed: no devices, no default, and [play] without a
    device is undefined although decoder and stream are fine. *)
Lemma play_needs_default_device_witness :
  getAudioDevices Ex.no_context = [] /\
  defaultOutputDevice (Audio_Audio Ex.overlapping Ex.no_context) = None /\
  play Ex.overlapping Ex.no_context Ex.a_wav None
    (Audio_Audio Ex.overlapping Ex.no_context) = Undefined.
Proof.
  split; [reflexivity|]. split; [reflexivity|].
  apply (proj2 (play_needs_default_device Ex.overlapping Ex.no_context)
           Ex.a_wav _ 441000 44100); reflexivity.
Defined.

(** In the same state the branch with an explicit device is defined. *)
Example play_explicit_device_without_default :
  exists ps s' evs,
    play Ex.overlapping Ex.no_context Ex.a_wav (Some Ex.speakers)
      (Audio_Audio Ex.overlapping Ex.no_context) = Ret (Some ps) s' evs /\
    ps_device ps = Ex.speakers.
Proof. vm_compute. eexists _, _, _. split; reflexivity. Qed.

(** ** What a computation may emit *)

Section Emits.

Variable P : Event -> Prop.

Lemma emits_bind {A B} (m : M A) (k : A -> M B) :
  emits P m -> (forall a, emits P (k a)) -> emits P (bind m k).
Proof.
  intros Hm Hk s b s' evs. unfold bind.
  destruct (m s) as [a s1 e1|] eqn:E1; [|done].
  destruct (k a s1) as [b' s2 e2|] eqn:E2; [|done].
  intros [= <- <- <-]. apply Forall_app. split; [by eapply Hm|by eapply Hk].
Qed.

Lemma emits_pure {A} (f : System -> outcome A) :
  (forall s a s' evs, f s = Ret a s' evs -> evs = []) -> emits P f.
Proof. intros H s a s' evs Hf. by rewrite (H _ _ _ _ Hf). Qed.

Lemma emits_ret {A} (a : A) : emits P (ret a).
Proof. apply emits_pure. by intros s a' s' evs [= <- <- <-]. Qed.

Lemma emits_get : emits P get.
Proof. apply emits_pure. by intros s a' s' evs [= <- <- <-]. Qed.

Lemma emits_modify f : emits P (modify f).
Proof. apply emits_pure. by intros s a' s' evs [= <- <- <-]. Qed.

Lemma emits_undefined {A} : emits P (@undefined A).
Proof. by intros s a s' evs. Qed.

Lemma emits_lift_option {A} (o : option A) : emits P (lift_option o).
Proof. destruct o; [apply emits_ret | apply emits_undefined]. Qed.

Lemma emits_emit e : P e -> emits P (emit e).
Proof. intros H s a s' evs [= <- <- <-]. by constructor. Qed.


Lemma emits_the_stream dev : emits P (the_stream dev).
Proof.
  apply emits_bind; [apply emits_get|]. intros s. apply emits_lift_option.
Qed.

Lemma emits_the_decoder dec : emits P (the_decoder dec).
Proof.
  apply emits_bind; [apply emits_get|]. intros s. apply emits_lift_option.
Qed.


End Emits.




(** ** The finish task *)

Lemma onFinished_unregistered device s :
  playingSounds s !! device = None ->
  onFinished device s = Ret tt s [Log FinishedNotPlaying].
Proof. intros H. unfold onFinished. cbn. by rewrite H. Qed.

Lemma onFinished_registered device s sound d dc :
  playingSounds s !! device = Some sound ->
  streams s !! rawDevice sound = Some d ->
  decoders s !! rawDecoder sound = Some dc ->
  onFinished device s
  = Ret tt
      (mkSystem (devices s) (defaultOutputDevice s)
         (delete device (playingSounds s)) (playingSoundIdCounter s) (next_ptr s)
         (<[rawDecoder sound := released_decoder dc]> (decoders s))
         (<[rawDevice sound := released_stream d]> (streams s)) (gQueue s))
      [Ma (DeviceUninit (rawDevice sound));
       Ma (DecoderUninit (Some (rawDecoder sound)));
       GuiSoundFinished sound].
Proof.
  intros Hs Hd Hdc. unfold onFinished. cbn. rewrite Hs. cbn.
  rewrite (ma_device_uninit_known _ _ _ Hd). cbn.
  erewrite ma_decoder_uninit_known by (cbn; exact Hdc). reflexivity.
Qed.

(** ** Closed forms for the callback *)

Lemma ma_decoder_read_known dec dc n s :
  decoders s !! dec = Some dc ->
  ma_decoder_read_pcm_frames dec n s
  = Ret (read_count n dc)
      (set_decoders (<[dec := advanced (read_count n dc) dc]> (decoders s)) s)
      [Ma (DecoderRead dec n)].
Proof. intros H. unfold ma_decoder_read_pcm_frames. cbn. by rewrite H. Qed.

Lemma ma_decoder_seek_known dec dc frame s :
  decoders s !! dec = Some dc ->
  ma_decoder_seek_to_pcm_frame dec frame s
  = Ret tt (set_decoders (<[dec := seeked frame dc]> (decoders s)) s)
      [Ma (DecoderSeek dec frame)].
Proof.
  intros H. unfold ma_decoder_seek_to_pcm_frame, seeked. cbn. rewrite H. cbn.
  destruct (frame <=? dec_length dc); cbn; [done|].
  rewrite insert_id by done. by destruct s.
Qed.

Lemma advanced_0 dc : advanced 0 dc = dc.
Proof. unfold advanced. rewrite Z.add_0_r. by destruct dc. Qed.

Lemma pending_app key q1 q2 : pending key (q1 ++ q2) = (pending key q1 + pending key q2)%nat.
Proof. unfold pending. by rewrite List.filter_app, length_app. Qed.

Lemma pending_0 key q :
  existsb (fun kt => fst kt =? key) q = false -> pending key q = 0%nat.
Proof.
  unfold pending. induction q as [|x q IH]; cbn; [done|].
  intros [-> Hq]%orb_false_iff. by apply IH.
Qed.

Lemma pending_pos key q :
  existsb (fun kt => fst kt =? key) q = true -> (1 <= pending key q)%nat.
Proof.
  unfold pending. induction q as [|x q IH]; cbn; [done|].
  destruct (fst x =? key); cbn; [lia|]. apply IH.
Qed.

Lemma finish_queued_pending device q :
  pending device (finish_queued device q) = Nat.max 1 (pending device q).
Proof.
  unfold finish_queued.
  destruct (existsb _ q) eqn:E.
  - pose proof (pending_pos _ _ E). lia.
  - rewrite pending_app, (pending_0 _ _ E). unfold pending. cbn.
    by rewrite Z.eqb_refl.
Qed.

Lemma finish_queued_other device k q :
  k <> device -> pending k (finish_queued device q) = pending k q.
Proof.
  intros Hne. unfold finish_queued. destruct (existsb _ q); [done|].
  rewrite pending_app. unfold pending at 2. cbn.
  destruct (device =? k) eqn:E; [apply Z.eqb_eq in E; congruence|]. cbn. lia.
Qed.

Lemma finish_queued_idem device q :
  finish_queued device (finish_queued device q) = finish_queued device q.
Proof.
  unfold finish_queued. destruct (existsb _ q) eqn:E; [by rewrite E|].
  rewrite existsb_app. cbn. by rewrite Z.eqb_refl, orb_true_r.
Qed.

Lemma is_Some_insert_present {V} (m : gmap Z V) k v k' :
  is_Some (m !! k) -> (is_Some (<[k := v]> m !! k') <-> is_Some (m !! k')).
Proof.
  intros Hk. destruct (decide (k = k')) as [<-|Hne].
  - rewrite lookup_insert_eq. split; eauto.
  - by rewrite lookup_insert_ne.
Qed.

Lemma push_unique_finish device s :
  push_unique device TaskOnFinished s
  = Ret tt (set_gQueue (finish_queued device (gQueue s)) s) [].
Proof.
  unfold push_unique, finish_queued. cbn.
  destruct (existsb _ (gQueue s)); [|done]. by destruct s.
Qed.

Lemma onSoundSeeked_registered device frame s sound ms :
  playingSounds s !! device = Some sound ->
  Num.scale frame (ps_length sound) (lengthInMs sound) = Some ms ->
  onSoundSeeked device frame s
  = Ret tt
      (set_playingSounds
         (<[device := set_readInMs ms (set_readFrames frame (set_shouldSeek false sound))]>
            (playingSounds s)) s) [].
Proof. intros Hs Hms. unfold onSoundSeeked. cbn. rewrite Hs. cbn. by rewrite Hms. Qed.

(** A callback whose read yields no frame: what it leaves behind. *)
Lemma data_callback_no_frame
    (device frameCount : Z) (s : System) d decoder dc :
  streams s !! device = Some d ->
  pUserData d = Some decoder ->
  decoders s !! decoder = Some dc ->
  0 <= dec_length dc ->
  Z.min frameCount (dec_length dc - dec_cursor dc) <= 0 ->
  (forall sound, playingSounds s !! device = Some sound ->
                 shouldSeek sound = true ->
                 is_Some (Num.scale (seekTo sound) (ps_length sound) (lengthInMs sound))) ->
  exists s' evs,
    data_callback device frameCount s = Ret tt s' evs /\
    Forall (fun e => is_gui e = false) evs /\
    (forall k, is_Some (playingSounds s' !! k) <-> is_Some (playingSounds s !! k)) /\
    match playingSounds s !! device with
    | Some sound =>
        if ps_repeat sound then
          gQueue s' = gQueue s /\
          exists dc', decoders s' !! decoder = Some dc' /\ dec_cursor dc' = 0
        else gQueue s' = finish_queued device (gQueue s)
    | None => gQueue s' = finish_queued device (gQueue s)
    end.
Proof.
  intros Hd Hp Hdc Hlen Heos Hseek.
  assert (Hr : read_count frameCount dc = 0) by (unfold read_count; lia).
  unfold data_callback. cbn. rewrite Hd. cbn. rewrite Hp. cbn.
  erewrite ma_decoder_read_known by (cbn; exact Hdc).
  rewrite Hr, advanced_0. cbn. rewrite (insert_id (decoders s)) by done.
  unfold getPlayingSound. cbn.
  destruct (playingSounds s !! device) as [sound|] eqn:Hs; cbn.
  - destruct (shouldSeek sound) eqn:Hsk; cbn.
    + destruct (Hseek sound eq_refl Hsk) as [ms Hms].
      erewrite ma_decoder_seek_known by (cbn; exact Hdc). cbn.
      erewrite onSoundSeeked_registered by (cbn; eassumption). cbn.
      destruct (ps_repeat sound) eqn:Hrep; cbn.
      * erewrite ma_decoder_seek_known by (cbn; apply lookup_insert_eq). cbn.
        eexists _, _. split; [reflexivity|]. cbn. split_and!.
        -- by repeat constructor.
        -- intros k. by apply is_Some_insert_present.
        -- done.
        -- eexists. rewrite lookup_insert_eq. split; [done|].
           assert (dec_length (seeked (seekTo sound) dc) = dec_length dc) as Hl
             by (unfold seeked; by destruct (_ <=? _)).
           unfold seeked at 1. rewrite Hl.
           by destruct (0 <=? dec_length dc) eqn:E; [|lia].
      * rewrite push_unique_finish.
        eexists _, _. split; [reflexivity|]. cbn. split_and!.
        -- by repeat constructor.
        -- intros k. by apply is_Some_insert_present.
        -- done.
    + destruct (ps_repeat sound) eqn:Hrep; cbn.
      * erewrite ma_decoder_seek_known by (cbn; exact Hdc). cbn.
        eexists _, _. split; [reflexivity|]. cbn. split_and!.
        -- by repeat constructor.
        -- done.
        -- done.
        -- eexists. rewrite lookup_insert_eq. split; [done|].
           unfold seeked. by destruct (0 <=? dec_length dc) eqn:E; [|lia].
      * rewrite push_unique_finish.
        eexists _, _. split; [reflexivity|]. cbn. split_and!.
        -- by repeat constructor.
        -- done.
        -- done.
  - rewrite push_unique_finish.
    eexists _, _. split; [reflexivity|]. cbn. split_and!.
    + by repeat constructor.
    + done.
    + done.
Qed.

(** Whatever the worker takes off the queue is a closure over a parameter
    that is gone. *)
Lemma queue_run_next_dangling s :
  gQueue s <> [] -> queue_run_next s = Undefined.
Proof.
  intros H. unfold queue_run_next. cbn.
  destruct (gQueue s) as [|[k []] q]; [done|reflexivity].
Qed.

Lemma finish_queued_nonempty device q : finish_queued device q <> [].
Proof.
  intros H. pose proof (finish_queued_pending device q) as Hp.
  rewrite H in Hp. cbn in Hp. lia.
Qed.

(** ** The real-time callback and the notification sink *)




(** ** [stop] *)

Lemma stop_unknown soundId s :
  find_sound soundId (playingSounds s) = None ->
  stop soundId s = Ret false s [Log (FailedStop soundId)].
Proof. intros H. unfold stop, stop_lookup. cbn. by rewrite H. Qed.


Lemma stop_erase_gone key sound s :
  playingSounds s !! key = None -> stop_erase (key, sound) s = Undefined.
Proof. intros H. unfold stop_erase. cbn. by rewrite H. Qed.




(** ** The callback at the end of the stream *)

(** C8. A callback whose read yields no frame makes no notification and
    removes no session.  If the session of the stream repeats, the decoder
    ends at frame 0 and the queue is untouched.  Otherwise (also when the
    stream has no session) a task is pushed under the stream handle; the
    push is dropped when a task with that key is pending, so the number of
    pending tasks of the stream becomes [max 1] of what it was and other
    keys keep theirs.  The task is not a finish notification: it is the
    closure over the callback's own parameter, and the worker's next run
    on the state the callback leaves has no defined result. *)
Theorem callback_end_of_stream
    (device frameCount : Z) (s : System) d decoder dc :
  streams s !! device = Some d ->
  pUserData d = Some decoder ->
  decoders s !! decoder = Some dc ->
  0 <= dec_length dc ->
  Z.min frameCount (dec_length dc - dec_cursor dc) <= 0 ->
  (forall sound, playingSounds s !! device = Some sound ->
                 shouldSeek sound = true ->
                 is_Some (Num.scale (seekTo sound) (ps_length sound) (lengthInMs sound))) ->
  exists s' evs,
    data_callback device frameCount s = Ret tt s' evs /\
    Forall (fun e => is_gui e = false) evs /\
    (forall k, is_Some (playingSounds s' !! k) <-> is_Some (playingSounds s !! k)) /\
    if match playingSounds s !! device with
       | Some sound => ps_repeat sound
       | None => false
       end
    then
      gQueue s' = gQueue s /\
      exists dc', decoders s' !! decoder = Some dc' /\ dec_cursor dc' = 0
    else
      gQueue s' = finish_queued device (gQueue s) /\
      pending device (gQueue s') = Nat.max 1 (pending device (gQueue s)) /\
      (forall k, k <> device -> pending k (gQueue s') = pending k (gQueue s)) /\
      queue_run_next s' = Undefined.
Proof.
  intros Hd Hp Hdc Hlen Heos Hseek.
  destruct (data_callback_no_frame device frameCount s d decoder dc
              Hd Hp Hdc Hlen Heos Hseek) as (s' & evs & Hc & Hev & Hdom & Hm).
  exists s', evs. split_and!; try done.
  assert (Hpush : gQueue s' = finish_queued device (gQueue s) ->
            gQueue s' = finish_queued device (gQueue s) /\
            pending device (gQueue s') = Nat.max 1 (pending device (gQueue s)) /\
            (forall k, k <> device -> pending k (gQueue s') = pending k (gQueue s)) /\
            queue_run_next s' = Undefined).
  { intros Hq. split; [done|]. rewrite Hq. split_and!.
    - apply finish_queued_pending.
    - intros k. apply finish_queued_other.
    - apply queue_run_next_dangling. rewrite Hq. apply finish_queued_nonempty. }
  destruct (playingSounds s !! device) as [sound|]; [|by apply Hpush].
  destruct (ps_repeat sound); [done|by apply Hpush].
Qed.

(** At the end of ["a.wav"]: the first callback queues the task, the next
    one finds it pending and queues nothing, and the worker's run on
    either result is undefined; the repeating session is rewound instead
    and stays registered. *)
Lemma callback_end_of_stream_witness :
  (exists s' evs, data_callback 2 512 Ex.at_end = Ret tt s' evs /\
                  gQueue s' = [(2, TaskOnFinished)] /\
                  queue_run_next s' = Undefined) /\
  (exists s' evs, data_callback 2 512 Ex.finishing = Ret tt s' evs /\
                  gQueue s' = [(2, TaskOnFinished)] /\
                  queue_run_next s' = Undefined) /\
  (exists s' evs dc', data_callback 2 512 Ex.loop_at_end = Ret tt s' evs /\
                      gQueue s' = [] /\
                      decoders s' !! 1 = Some dc' /\ dec_cursor dc' = 0 /\
                      is_Some (playingSounds s' !! 2)).
Proof.
  assert (Hno : forall (m : gmap Z PlayingSound) x,
            m !! 2 = Some x -> shouldSeek x = false ->
            forall sound, m !! 2 = Some sound -> shouldSeek sound = true ->
              is_Some (Num.scale (seekTo sound) (ps_length sound) (lengthInMs sound))).
  { intros m x Hx Hf sound Hs Ht. congruence. }
  assert (Hlen : 0 <= dec_length (mkDecoder 44100 441000 441000 true)) by (cbn; lia).
  assert (Heos : Z.min 512 (dec_length (mkDecoder 44100 441000 441000 true)
                            - dec_cursor (mkDecoder 44100 441000 441000 true)) <= 0)
    by (cbn; lia).
  split; [|split].
  - destruct (callback_end_of_stream 2 512 Ex.at_end Ex.stream_2 1
                (mkDecoder 44100 441000 441000 true)
                eq_refl eq_refl eq_refl Hlen Heos
                (Hno (playingSounds Ex.at_end) Ex.played_out eq_refl eq_refl))
      as (s' & evs & Hc & _ & _ & Hm).
    assert (Hb : match playingSounds Ex.at_end !! 2 with
                 | Some sound => ps_repeat sound
                 | None => false
                 end = false) by (vm_compute; reflexivity).
    rewrite Hb in Hm.
    exists s', evs. split; [done|]. split; [apply Hm|apply Hm].
  - destruct (callback_end_of_stream 2 512 Ex.finishing Ex.stream_2 1
                (mkDecoder 44100 441000 441000 true)
                eq_refl eq_refl eq_refl Hlen Heos
                (Hno (playingSounds Ex.finishing) Ex.played_out eq_refl eq_refl))
      as (s' & evs & Hc & _ & _ & Hm).
    assert (Hb : match playingSounds Ex.finishing !! 2 with
                 | Some sound => ps_repeat sound
                 | None => false
                 end = false) by (vm_compute; reflexivity).
    rewrite Hb in Hm.
    exists s', evs. split; [done|]. split; [apply Hm|apply Hm].
  - destruct (callback_end_of_stream 2 512 Ex.loop_at_end Ex.stream_2 1
                (mkDecoder 44100 441000 441000 true)
                eq_refl eq_refl eq_refl Hlen Heos
                (Hno (playingSounds Ex.loop_at_end)
                   (set_readInMs 10000 (set_readFrames 441000 Ex.looping))
                   eq_refl eq_refl))
      as (s' & evs & Hc & _ & Hdom & Hm).
    assert (Hb : match playingSounds Ex.loop_at_end !! 2 with
                 | Some sound => ps_repeat sound
                 | None => false
                 end = true) by (vm_compute; reflexivity).
    rewrite Hb in Hm.
    destruct Hm as (Hq & dc' & Hdc' & Hcur).
    exists s', evs, dc'. split_and!; try done.
    apply Hdom. by exists (set_readInMs 10000 (set_readFrames 441000 Ex.looping)).
Defined.

(** ** Read position during plain playback *)

Lemma u64_small z : 0 <= z < 2 ^ 64 -> Num.u64 z = z.
Proof. intros H. unfold Num.u64. by apply Z.mod_small. Qed.









(** The callback of a stream whose session follows its decoder returns,
    provided the position it may have to report has a value. *)
Lemma callback_defined device frameCount s :
  tracks device s -> 0 <= frameCount ->
  (forall sound d decoder dc,
      playingSounds s !! device = Some sound ->
      streams s !! device = Some d -> pUserData d = Some decoder ->
      decoders s !! decoder = Some dc ->
      sampleRate sound `div` 2 < buffer sound + read_count frameCount dc ->
      is_Some (Num.scale (readFrames sound + read_count frameCount dc)
                 (ps_length sound) (lengthInMs sound))) ->
  exists s1 e1, data_callback device frameCount s = Ret tt s1 e1.
Proof.
  intros (sound & d & decoder & dc & Hs & Hd & Hp & Hdc & Hsk & Hrep
          & Hlen & Hcur & Hbuf & Hrf & Hms) Hn Hdef.
  specialize (Hdef _ _ _ _ Hs Hd Hp Hdc).
  unfold data_callback. cbn. rewrite Hd. cbn. rewrite Hp. cbn.
  erewrite ma_decoder_read_known by (cbn; exact Hdc). cbn.
  unfold getPlayingSound. cbn. rewrite Hs. cbn. rewrite Hsk, Hrep. cbn.
  assert (Hr : 0 <= read_count frameCount dc <= ps_length sound - readFrames sound)
    by (unfold read_count; lia).
  set (r := read_count frameCount dc) in *.
  destruct (0 <? r) eqn:Hpos; cbn.
  - apply Z.ltb_lt in Hpos.
    assert ((r <=? 0) = false) as -> by lia. cbn.
    unfold onSoundProgressed. cbn. rewrite Hs. cbn.
    rewrite !u64_small by lia.
    destruct (sampleRate sound `div` 2 <? buffer sound + r) eqn:Hth; cbn.
    + apply Z.ltb_lt in Hth. destruct (Hdef Hth) as [ms ->]. cbn. eauto.
    + eauto.
  - apply Z.ltb_ge in Hpos.
    assert ((r <=? 0) = true) as -> by lia. cbn.
    rewrite push_unique_finish. cbn. eauto.
Qed.

(** * Further properties of the engine

    Invariants of the states the engine reaches, and how its operations
    compose. *)

(** ** Relations between states *)

Lemma same_identity_refl p : same_identity p p.
Proof. by repeat split. Qed.

Lemma same_identity_trans p q r :
  same_identity p q -> same_identity q r -> same_identity p r.
Proof.
  intros (?&?&?&?&?&?&?&?&?) (?&?&?&?&?&?&?&?&?).
  repeat split; congruence.
Qed.

Lemma stream_kept_refl d : stream_kept d d.
Proof. by split. Qed.

Lemma evolves_refl s : evolves s s.
Proof.
  unfold evolves. split_and!; try done.
  - intros k q Hq. exists q. split; [done|apply same_identity_refl].
  - intros k d d' Hd Hd'. left. assert (d' = d) as -> by congruence.
    apply stream_kept_refl.
  - intros k c c' Hc Hc'. assert (c' = c) as -> by congruence. by repeat split.
Qed.

Lemma evolves_trans s1 s2 s3 : evolves s1 s2 -> evolves s2 s3 -> evolves s1 s3.
Proof.
  intros (Hd1 & Hf1 & Hc1 & Hn1 & Hr1 & Hsd1 & Hs1 & Hdd1 & Hdc1)
         (Hd2 & Hf2 & Hc2 & Hn2 & Hr2 & Hsd2 & Hs2 & Hdd2 & Hdc2).
  unfold evolves. split_and!; try congruence.
  - intros k q Hq. destruct (Hr2 _ _ Hq) as (p2 & Hp2 & Hi2).
    destruct (Hr1 _ _ Hp2) as (p1 & Hp1 & Hi1).
    exists p1. split; [done|by eapply same_identity_trans].
  - intros k. by rewrite Hsd2, Hsd1.
  - intros k d d'' Hd Hd''.
    assert (is_Some (streams s2 !! k)) as [d' Hd'] by (apply Hsd1; eauto).
    destruct (Hs2 _ _ _ Hd' Hd'') as [[Hp Hu]|Hrel]; [|by right].
    destruct (Hs1 _ _ _ Hd Hd') as [[Hp' Hu']|[Hp' Hu']].
    + left. split; [congruence|]. by rewrite Hu, Hu'.
    + right. split; [congruence|]. by apply Hu.
  - intros k. by rewrite Hdd2, Hdd1.
  - intros k c c'' Hc Hc''.
    assert (is_Some (decoders s2 !! k)) as [c' Hc'] by (apply Hdd1; eauto).
    destruct (Hdc1 _ _ _ Hc Hc') as (? & ? & ?).
    destruct (Hdc2 _ _ _ Hc' Hc'') as (? & ? & ?).
    split_and!; [congruence|congruence|auto].
Qed.

Lemma steady_refl s : steady s s.
Proof.
  split; [apply evolves_refl|]. split; [done|]. split.
  - intros k d d' Hd Hd'. assert (d' = d) as -> by congruence.
    apply stream_kept_refl.
  - intros k c c' Hc Hc'. congruence.
Qed.

Lemma steady_trans s1 s2 s3 : steady s1 s2 -> steady s2 s3 -> steady s1 s3.
Proof.
  intros (He1 & Hk1 & Hs1 & Hi1) (He2 & Hk2 & Hs2 & Hi2).
  split; [by eapply evolves_trans|]. split; [by eauto|]. split.
  - intros k d d'' Hd Hd''.
    assert (is_Some (streams s2 !! k)) as [d' Hd'].
    { destruct He1 as (_&_&_&_&_&Hsd&_). apply Hsd. eauto. }
    destruct (Hs1 _ _ _ Hd Hd') as [Hp Hu]. destruct (Hs2 _ _ _ Hd' Hd'') as [Hp' Hu'].
    split; [congruence|]. by rewrite Hu', Hu.
  - intros k c c'' Hc Hc''.
    assert (is_Some (decoders s2 !! k)) as [c' Hc'].
    { destruct He1 as (_&_&_&_&_&_&_&Hdd&_). apply Hdd. eauto. }
    rewrite (Hi2 _ _ _ Hc' Hc''). by apply (Hi1 k).
Qed.

Lemma steady_evolves s s' : steady s s' -> evolves s s'.
Proof. by intros [? _]. Qed.

(** ** Computations that respect a relation *)

Section Respects.

Variable R : System -> System -> Prop.
Hypothesis R_refl : forall s, R s s.
Hypothesis R_trans : forall s1 s2 s3, R s1 s2 -> R s2 s3 -> R s1 s3.

Lemma respects_bind {A B} (m : M A) (k : A -> M B) :
  respects R m -> (forall a, respects R (k a)) -> respects R (bind m k).
Proof.
  intros Hm Hk s b s' evs. unfold bind.
  destruct (m s) as [a s1 e1|] eqn:E1; [|done].
  destruct (k a s1) as [b' s2 e2|] eqn:E2; [|done].
  intros [= <- <- <-]. eapply R_trans; [by eapply Hm|by eapply Hk].
Qed.

Lemma respects_same {A} (f : System -> outcome A) :
  (forall s a s' evs, f s = Ret a s' evs -> s' = s) -> respects R f.
Proof. intros H s a s' evs Hf. rewrite (H _ _ _ _ Hf). apply R_refl. Qed.

Lemma respects_ret {A} (a : A) : respects R (ret a).
Proof. apply respects_same. by intros s a' s' evs [= <- <- <-]. Qed.

Lemma respects_get : respects R get.
Proof. apply respects_same. by intros s a' s' evs [= <- <- <-]. Qed.

Lemma respects_emit e : respects R (emit e).
Proof. apply respects_same. by intros s a' s' evs [= <- <- <-]. Qed.

Lemma respects_undefined {A} : respects R (@undefined A).
Proof. by intros s a s' evs. Qed.

Lemma respects_lift_option {A} (o : option A) : respects R (lift_option o).
Proof. destruct o; [apply respects_ret | apply respects_undefined]. Qed.

Lemma respects_modify f : (forall s, R s (f s)) -> respects R (modify f).
Proof. intros H s a s' evs [= <- <- <-]. apply H. Qed.

Lemma respects_when b m : respects R m -> respects R (when b m).
Proof. destruct b; [done|intros _; apply respects_ret]. Qed.

Lemma respects_the_stream dev : respects R (the_stream dev).
Proof.
  apply respects_bind; [apply respects_get|]. intros s. apply respects_lift_option.
Qed.

Lemma respects_the_decoder dec : respects R (the_decoder dec).
Proof.
  apply respects_bind; [apply respects_get|]. intros s. apply respects_lift_option.
Qed.

Lemma respects_for_each {A} (l : list A) (body : A -> M unit) :
  (forall x, respects R (body x)) -> respects R (for_each l body).
Proof.
  intros Hb. induction l as [|x l IH]; [apply respects_ret|].
  change (for_each (x :: l) body) with (body x ;;; for_each l body).
  apply respects_bind; [apply Hb|]. intros _. apply IH.
Qed.

End Respects.

Lemma respects_weaken (R R' : System -> System -> Prop) {A} (m : M A) :
  (forall s s', R s s' -> R' s s') -> respects R m -> respects R' m.
Proof. intros H Hm s a s' evs Hr. apply H. by eapply Hm. Qed.

(** ** Single updates *)

Lemma evolves_set_decoder s k c c' :
  decoders s !! k = Some c -> decoder_kept c c' ->
  evolves s (set_decoders (<[k := c']> (decoders s)) s).
Proof.
  intros Hc Hk. unfold evolves. cbn. split_and!; try done.
  - intros k0 q Hq. exists q. split; [done|apply same_identity_refl].
  - intros k0 d d' Hd Hd'. left. assert (d' = d) as -> by congruence.
    apply stream_kept_refl.
  - intros k0. by apply is_Some_insert_present.
  - intros k0 c0 c0' Hc0 Hc0'. destruct (decide (k = k0)) as [<-|Hne].
    + rewrite lookup_insert_eq in Hc0'. congruence.
    + rewrite lookup_insert_ne in Hc0' by done.
      assert (c0' = c0) as -> by congruence. by repeat split.
Qed.

Lemma steady_set_decoder s k c c' :
  decoders s !! k = Some c -> decoder_kept c c' -> dec_inited c' = dec_inited c ->
  steady s (set_decoders (<[k := c']> (decoders s)) s).
Proof.
  intros Hc Hk Hi. split; [by eapply evolves_set_decoder|].
  split; [done|]. cbn. split.
  - intros k0 d d' Hd Hd'. assert (d' = d) as -> by congruence.
    apply stream_kept_refl.
  - intros k0 c0 c0' Hc0 Hc0'. destruct (decide (k = k0)) as [<-|Hne].
    + rewrite lookup_insert_eq in Hc0'. congruence.
    + rewrite lookup_insert_ne in Hc0' by done. congruence.
Qed.

Lemma steady_set_stream s k d d' :
  streams s !! k = Some d -> stream_kept d d' ->
  steady s (set_streams (<[k := d']> (streams s)) s).
Proof.
  intros Hd Hk.
  assert (Hs : forall k0 d0 d0', streams s !! k0 = Some d0 ->
             <[k := d']> (streams s) !! k0 = Some d0' -> stream_kept d0 d0').
  { intros k0 d0 d0' Hd0 Hd0'. destruct (decide (k = k0)) as [<-|Hne].
    - rewrite lookup_insert_eq in Hd0'. congruence.
    - rewrite lookup_insert_ne in Hd0' by done.
      assert (d0' = d0) as -> by congruence. apply stream_kept_refl. }
  split; [|split; [done|split; [exact Hs|cbn; congruence]]].
  unfold evolves. cbn. split_and!; try done.
  - intros k0 q Hq. exists q. split; [done|apply same_identity_refl].
  - intros k0. by apply is_Some_insert_present.
  - intros k0 d0 d0' Hd0 Hd0'. left. by eapply Hs.
  - intros k0 c c' Hc Hc'. assert (c' = c) as -> by congruence. by repeat split.
Qed.

Lemma steady_set_session s k p q :
  playingSounds s !! k = Some p -> same_identity p q ->
  steady s (set_playingSounds (<[k := q]> (playingSounds s)) s).
Proof.
  intros Hp Hi. split; [|split; [|split]].
  4: { cbn. congruence. }
  - unfold evolves. cbn. split_and!; try done.
    + intros k0 q0 Hq0. destruct (decide (k = k0)) as [<-|Hne].
      * rewrite lookup_insert_eq in Hq0. injection Hq0 as <-. eauto.
      * rewrite lookup_insert_ne in Hq0 by done.
        exists q0. split; [done|apply same_identity_refl].
    + intros k0 d d' Hd Hd'. left. assert (d' = d) as -> by congruence.
      apply stream_kept_refl.
    + intros k0 c c' Hc Hc'. assert (c' = c) as -> by congruence. by repeat split.
  - cbn. intros k0 Hk0. by apply is_Some_insert_present.
  - cbn. intros k0 d d' Hd Hd'. assert (d' = d) as -> by congruence.
    apply stream_kept_refl.
Qed.

Lemma steady_set_gQueue s q : steady s (set_gQueue q s).
Proof.
  split; [|split; [|split]]; cbn.
  4: { congruence. }
  - unfold evolves. cbn. split_and!; try done.
    + intros k0 q0 Hq0. exists q0. split; [done|apply same_identity_refl].
    + intros k0 d d' Hd Hd'. left. assert (d' = d) as -> by congruence.
      apply stream_kept_refl.
    + intros k0 c c' Hc Hc'. assert (c' = c) as -> by congruence. by repeat split.
  - done.
  - intros k0 d d' Hd Hd'. assert (d' = d) as -> by congruence.
    apply stream_kept_refl.
Qed.

Lemma evolves_release_stream s k d d' :
  streams s !! k = Some d -> stream_released d' ->
  evolves s (set_streams (<[k := d']> (streams s)) s).
Proof.
  intros Hd Hr. unfold evolves. cbn. split_and!; try done.
  - intros k0 q Hq. exists q. split; [done|apply same_identity_refl].
  - intros k0. by apply is_Some_insert_present.
  - intros k0 d0 d0' Hd0 Hd0'. destruct (decide (k = k0)) as [<-|Hne].
    + rewrite lookup_insert_eq in Hd0'. injection Hd0' as <-. by right.
    + rewrite lookup_insert_ne in Hd0' by done. left.
      assert (d0' = d0) as -> by congruence. apply stream_kept_refl.
  - intros k0 c c' Hc Hc'. assert (c' = c) as -> by congruence. by repeat split.
Qed.

Lemma evolves_fewer_sessions s (m : gmap Z PlayingSound) :
  (forall k q, m !! k = Some q -> playingSounds s !! k = Some q) ->
  evolves s (set_playingSounds m s).
Proof.
  intros Hm. unfold evolves. cbn. split_and!; try done.
  - intros k q Hq. exists q. split; [by apply Hm|apply same_identity_refl].
  - intros k0 d d' Hd Hd'. left. assert (d' = d) as -> by congruence.
    apply stream_kept_refl.
  - intros k0 c c' Hc Hc'. assert (c' = c) as -> by congruence. by repeat split.
Qed.

(** ** The operations and the relations *)

Lemma steady_decoder_read dec n : respects steady (ma_decoder_read_pcm_frames dec n).
Proof.
  intros s a s' evs. unfold ma_decoder_read_pcm_frames. cbn.
  destruct (decoders s !! dec) as [c|] eqn:Hc; cbn; [|done].
  intros [= _ <- _]. by apply (steady_set_decoder s dec c).
Qed.

Lemma steady_decoder_seek dec n : respects steady (ma_decoder_seek_to_pcm_frame dec n).
Proof.
  intros s a s' evs. unfold ma_decoder_seek_to_pcm_frame. cbn.
  destruct (decoders s !! dec) as [c|] eqn:Hc; cbn; [|done].
  destruct (n <=? dec_length c); cbn; intros [= _ <- _].
  - by apply (steady_set_decoder s dec c).
  - apply steady_refl.
Qed.

Lemma steady_device_stop dev : respects steady (ma_device_stop dev).
Proof.
  intros s a s' evs. unfold ma_device_stop. cbn.
  destruct (streams s !! dev) as [d|] eqn:Hd; cbn; [|done].
  destruct (dev_state d) eqn:Hs; cbn; intros [= _ <- _]; try apply steady_refl.
  apply (steady_set_stream s dev d); [done|]. split; [done|]. cbn.
  rewrite Hs. split; discriminate.
Qed.

Lemma steady_device_start pf dev : respects steady (ma_device_start pf dev).
Proof.
  intros s a s' evs. unfold ma_device_start. cbn.
  destruct (streams s !! dev) as [d|] eqn:Hd; cbn; [|done].
  destruct (dev_state d) eqn:Hs; cbn; try destruct (device_start_ok pf); cbn;
    intros [= _ <- _]; try apply steady_refl.
  all: apply (steady_set_stream s dev d); [done|]; split; [done|]; cbn;
    rewrite Hs; split; discriminate.
Qed.

Lemma steady_push_unique key t : respects steady (push_unique key t).
Proof.
  intros s a s' evs. unfold push_unique. cbn.
  destruct (existsb _ (gQueue s)); intros [= _ <- _];
    [apply steady_refl|apply steady_set_gQueue].
Qed.

Lemma steady_onSoundProgressed device frames :
  respects steady (onSoundProgressed device frames).
Proof.
  intros s a s' evs. unfold onSoundProgressed. cbn.
  destruct (playingSounds s !! device) as [p|] eqn:Hp; cbn;
    [|intros [= _ <- _]; apply steady_refl].
  destruct (_ <? _); cbn.
  - destruct (Num.scale _ _ _); cbn; [|done].
    intros [= _ <- _]. by apply (steady_set_session s device p).
  - intros [= _ <- _]. by apply (steady_set_session s device p).
Qed.

Lemma steady_onSoundSeeked device frame :
  respects steady (onSoundSeeked device frame).
Proof.
  intros s a s' evs. unfold onSoundSeeked. cbn.
  destruct (playingSounds s !! device) as [p|] eqn:Hp; cbn;
    [|intros [= _ <- _]; apply steady_refl].
  destruct (Num.scale _ _ _); cbn; [|done].
  intros [= _ <- _]. by apply (steady_set_session s device p).
Qed.

Lemma evolves_device_uninit dev : respects evolves (ma_device_uninit dev).
Proof.
  intros s a s' evs. unfold ma_device_uninit. cbn.
  destruct (streams s !! dev) as [d|] eqn:Hd; cbn; [|done].
  destruct (dev_state d) eqn:Hs; cbn; intros [= _ <- _]; try apply evolves_refl.
  all: by apply (evolves_release_stream s dev d).
Qed.

Lemma evolves_decoder_uninit dec : respects evolves (ma_decoder_uninit dec).
Proof.
  intros s a s' evs. unfold ma_decoder_uninit. cbn.
  destruct dec as [p|]; cbn; [|intros [= _ <- _]; apply evolves_refl].
  destruct (decoders s !! p) as [c|] eqn:Hc; cbn; [|done].
  intros [= _ <- _]. by apply (evolves_set_decoder s p c).
Qed.

Lemma bind_inv {A B} (m : M A) (k : A -> M B) s b s' evs :
  bind m k s = Ret b s' evs ->
  exists a s1 e1 e2, m s = Ret a s1 e1 /\ k a s1 = Ret b s' e2 /\ evs = e1 ++ e2.
Proof.
  unfold bind. destruct (m s) as [a s1 e1|]; [|done].
  destruct (k a s1) as [b' s2 e2|] eqn:E; [|done].
  intros [= <- <- <-]. by exists a, s1, e1, e2.
Qed.

Ltac steady_auto :=
  repeat first
    [ apply steady_decoder_read | apply steady_decoder_seek
    | apply steady_device_stop | apply steady_device_start
    | apply steady_push_unique
    | apply steady_onSoundProgressed | apply steady_onSoundSeeked
    | apply (respects_ret steady steady_refl)
    | apply (respects_get steady steady_refl)
    | apply (respects_emit steady steady_refl)
    | apply (respects_lift_option steady steady_refl)
    | apply (respects_undefined steady)
    | apply (respects_the_stream steady steady_refl steady_trans)
    | apply (respects_the_decoder steady steady_refl steady_trans)
    | apply (respects_when steady steady_refl)
    | apply (respects_bind steady steady_trans); [|intros ?]
    | match goal with
      | |- respects _ (match ?x with _ => _ end) => destruct x
      | |- respects _ (let _ := _ in _) => cbv zeta
      end ].

Lemma steady_data_callback device frameCount :
  respects steady (data_callback device frameCount).
Proof.
  intros s a s' evs H. unfold data_callback in H.
  apply bind_inv in H as (d & s0 & e0 & e1 & Hd & H & _).
  unfold the_stream in Hd. cbn in Hd.
  destruct (streams s !! device) as [d0|] eqn:Hs; [|done].
  cbn in Hd. injection Hd as <- <- _.
  destruct (pUserData d0) as [decoder|] eqn:Hp.
  2: { injection H as _ <- _. apply steady_refl. }
  apply bind_inv in H as (s1 & s2 & e2 & e3 & Hg & H & _).
  injection Hg as <- <- _.
  apply bind_inv in H as ([] & s3 & e4 & e5 & Hst & H & _).
  cbn in Hst. injection Hst as <- _.
  eapply steady_trans; cycle 1.
  - revert H.
    match goal with |- ?m _ = _ -> _ =>
      assert (Hrest : respects steady m);
        [|intros H; exact (Hrest _ _ _ _ H)] end.
    unfold getPlayingSound. steady_auto.
  - apply (steady_set_stream s device d0); [done|]. by split.
Qed.

Lemma steady_pause soundId : respects steady (pause soundId).
Proof.
  intros s a s' evs. unfold pause. cbn.
  destruct (find_sound soundId (playingSounds s)) as [[key p]|] eqn:Hf; cbn;
    [|intros [= _ <- _]; apply steady_refl].
  apply find_sound_Some in Hf as (Hk & _ & _).
  destruct (streams s !! rawDevice p) as [d|] eqn:Hd; cbn; [|done].
  destruct (paused p); cbn; [intros [= _ <- _]; apply steady_refl|].
  destruct (ma_device_stop (rawDevice p) s) as [[] s1 e1|] eqn:E; [|done].
  cbn. intros [= _ <- _].
  pose proof (steady_device_stop _ _ _ _ _ E) as H1.
  eapply steady_trans; [exact H1|].
  assert (Hk1 : is_Some (playingSounds s1 !! key))
    by (destruct H1 as (_ & H1 & _); apply H1; eauto).
  destruct Hk1 as [p1 Hp1].
  assert (Hi : same_identity p1 p).
  { destruct H1 as ((_&_&_&_&Hr&_) & _). destruct (Hr _ _ Hp1) as (p0 & Hp0 & Hi).
    assert (p0 = p) as -> by congruence. destruct Hi as (?&?&?&?&?&?&?&?&?).
    by repeat split. }
  apply (steady_set_session s1 key p1); [done|].
  eapply same_identity_trans; [exact Hi|]. by repeat split.
Qed.

Lemma steady_resume pf soundId : respects steady (resume pf soundId).
Proof.
  intros s a s' evs. unfold resume. cbn.
  destruct (find_sound soundId (playingSounds s)) as [[key p]|] eqn:Hf; cbn;
    [|intros [= _ <- _]; apply steady_refl].
  apply find_sound_Some in Hf as (Hk & _ & _).
  destruct (streams s !! rawDevice p) as [d|] eqn:Hd; cbn; [|done].
  destruct (paused p); cbn; [|intros [= _ <- _]; apply steady_refl].
  destruct (ma_device_start pf (rawDevice p) s) as [b s1 e1|] eqn:E; [|done].
  cbn. intros [= _ <- _].
  pose proof (steady_device_start _ _ _ _ _ _ E) as H1.
  eapply steady_trans; [exact H1|].
  assert (Hk1 : is_Some (playingSounds s1 !! key))
    by (destruct H1 as (_ & H1 & _); apply H1; eauto).
  destruct Hk1 as [p1 Hp1].
  assert (Hi : same_identity p1 p).
  { destruct H1 as ((_&_&_&_&Hr&_) & _). destruct (Hr _ _ Hp1) as (p0 & Hp0 & Hi).
    assert (p0 = p) as -> by congruence. destruct Hi as (?&?&?&?&?&?&?&?&?).
    by repeat split. }
  apply (steady_set_session s1 key p1); [done|].
  eapply same_identity_trans; [exact Hi|]. by repeat split.
Qed.

Lemma steady_seek soundId position : respects steady (seek soundId position).
Proof.
  intros s a s' evs. unfold seek. cbn.
  destruct (find_sound soundId (playingSounds s)) as [[key p]|] eqn:Hf; cbn;
    [|intros [= _ <- _]; apply steady_refl].
  apply find_sound_Some in Hf as (Hk & _ & _).
  destruct (Num.scale position _ _) as [t|]; cbn; [|done].
  destruct (Num.scale t _ _) as [ms|]; cbn; [|done].
  intros [= _ <- _]. by apply (steady_set_session s key p).
Qed.

Ltac evolves_auto :=
  repeat first
    [ apply evolves_device_uninit | apply evolves_decoder_uninit
    | apply (respects_ret evolves evolves_refl)
    | apply (respects_get evolves evolves_refl)
    | apply (respects_emit evolves evolves_refl)
    | apply (respects_lift_option evolves evolves_refl)
    | apply (respects_undefined evolves)
    | apply (respects_the_stream evolves evolves_refl evolves_trans)
    | apply (respects_when evolves evolves_refl)
    | apply (respects_bind evolves evolves_trans); [|intros ?]
    | match goal with
      | |- respects _ (match ?x with _ => _ end) => destruct x
      | |- respects _ (let _ := _ in _) => cbv zeta
      end ].

Lemma evolves_delete k :
  respects evolves
    (modify (fun s => set_playingSounds (delete k (playingSounds s)) s)).
Proof.
  apply respects_modify. intros s. apply evolves_fewer_sessions.
  intros k0 q Hq. by apply lookup_delete_Some in Hq as [_ ?].
Qed.

Lemma evolves_onFinished device : respects evolves (onFinished device).
Proof.
  unfold onFinished. evolves_auto. apply evolves_delete.
Qed.

Lemma evolves_stop soundId : respects evolves (stop soundId).
Proof.
  unfold stop, stop_lookup, stop_teardown, stop_erase. evolves_auto.
  apply evolves_delete.
Qed.

Lemma evolves_stopAll : respects evolves stopAll.
Proof.
  unfold stopAll. evolves_auto.
  - apply (respects_for_each evolves evolves_refl evolves_trans).
    intros x. evolves_auto.
  - apply respects_modify. intros s. apply evolves_fewer_sessions.
    intros k0 q Hq. by rewrite lookup_empty in Hq.
Qed.

Lemma run_task_undefined t s : run_task t s = Undefined.
Proof. by destruct t. Qed.

Lemma evolves_queue_run_next : respects evolves queue_run_next.
Proof.
  unfold queue_run_next.
  apply (respects_bind evolves evolves_trans);
    [apply (respects_get evolves evolves_refl)|].
  intros s. destruct (gQueue s) as [|[k t] q];
    [apply (respects_ret evolves evolves_refl)|].
  apply (respects_bind evolves evolves_trans).
  - apply respects_modify. intros s0. apply steady_evolves, steady_set_gQueue.
  - intros _ s0 a s1 e H. by rewrite run_task_undefined in H.
Qed.

Lemma evolves_finish device q s s' evs :
  onFinished device (set_gQueue q s) = Ret tt s' evs -> evolves s s'.
Proof.
  intros H. apply (evolves_trans _ (set_gQueue q s)).
  - apply steady_evolves, steady_set_gQueue.
  - by eapply evolves_onFinished.
Qed.

(** ** [play], branch by branch *)

Lemma play_start_failure_overlapping cfg pf sound playbackDevice s len rate :
  allowOverlapping cfg = true ->
  decode_file pf (path sound) = Some (len, rate) ->
  device_init_ok pf = true -> device_start_ok pf = false ->
  play cfg pf sound playbackDevice s
  = Ret None
      (mkSystem (devices s) (defaultOutputDevice s) (playingSounds s)
         (playingSoundIdCounter s) (next_ptr s + 1 + 1)
         (<[next_ptr s := mkDecoder rate len 0 false]> (decoders s))
         (<[next_ptr s + 1 := zeroed_device]> (streams s)) (gQueue s))
      [Ma (DecoderInitFile (path sound) (next_ptr s));
       Ma (DeviceInit (next_ptr s + 1)); Ma (DeviceStart (next_ptr s + 1));
       Ma (DeviceUninit (next_ptr s + 1));
       Ma (DecoderUninit (Some (next_ptr s)));
       Log (FailedPlay (path sound))].
Proof.
  intros Hc Hd Hi Hst. unfold play. rewrite Hc. cbn.
  rewrite (ma_decoder_init_file_ok _ _ _ _ _ _ Hd). cbn.
  unfold ma_decoder_get_length_in_pcm_frames. cbn.
  repeat (rewrite lookup_insert_eq; cbn).
  rewrite (ma_device_init_ok _ _ _ _ Hi). cbn.
  erewrite ma_device_start_known by (cbn; apply lookup_insert_eq).
  unfold start_result, started. cbn. rewrite Hst. cbn.
  erewrite ma_device_uninit_known by (cbn; apply lookup_insert_eq). cbn.
  erewrite ma_decoder_uninit_known by (cbn; apply lookup_insert_eq). cbn.
  unfold released_stream, released_decoder. cbn.
  by rewrite !insert_insert_eq.
Qed.

Lemma play_init_failure_overlapping cfg pf sound playbackDevice s len rate :
  allowOverlapping cfg = true ->
  decode_file pf (path sound) = Some (len, rate) ->
  device_init_ok pf = false ->
  play cfg pf sound playbackDevice s
  = Ret None
      (mkSystem (devices s) (defaultOutputDevice s) (playingSounds s)
         (playingSoundIdCounter s) (next_ptr s + 1 + 1)
         (<[next_ptr s := mkDecoder rate len 0 true]> (decoders s))
         (streams s) (gQueue s))
      [Ma (DecoderInitFile (path sound) (next_ptr s));
       Ma (DeviceInit (next_ptr s + 1)); Log FailedCreateDevice].
Proof.
  intros Hc Hd Hi. unfold play. rewrite Hc. cbn.
  rewrite (ma_decoder_init_file_ok _ _ _ _ _ _ Hd). cbn.
  unfold ma_decoder_get_length_in_pcm_frames. cbn.
  repeat (rewrite lookup_insert_eq; cbn).
  by rewrite (ma_device_init_fail _ _ _ _ Hi).
Qed.

Lemma play_started_overlapping cfg pf sound playbackDevice s len rate :
  allowOverlapping cfg = true ->
  decode_file pf (path sound) = Some (len, rate) ->
  device_init_ok pf = true -> device_start_ok pf = true ->
  play cfg pf sound playbackDevice s
  = match Num.scale len rate 1000, chosen_device playbackDevice s with
    | Some ms, Some dev =>
        let pSound := new_session sound dev s len rate ms in
        Ret (Some pSound)
          (mkSystem (devices s) (defaultOutputDevice s)
             (insert_new (next_ptr s + 1) pSound (playingSounds s))
             (Num.u32 (playingSoundIdCounter s + 1)) (next_ptr s + 1 + 1)
             (<[next_ptr s := mkDecoder rate len 0 true]> (decoders s))
             (<[next_ptr s + 1 :=
                  mkDevice (Some (next_ptr s)) (default_name pf) Num.one_f
                    StreamStarted]> (streams s))
             (gQueue s))
          [Ma (DecoderInitFile (path sound) (next_ptr s));
           Ma (DeviceInit (next_ptr s + 1)); Ma (DeviceStart (next_ptr s + 1));
           GuiSoundPlayed pSound]
    | _, _ => Undefined
    end.
Proof.
  intros Hc Hd Hi Hst. unfold play. rewrite Hc. cbn.
  rewrite (ma_decoder_init_file_ok _ _ _ _ _ _ Hd). cbn.
  unfold ma_decoder_get_length_in_pcm_frames. cbn.
  repeat (rewrite lookup_insert_eq; cbn).
  rewrite (ma_device_init_ok _ _ _ _ Hi). cbn.
  erewrite ma_device_start_known by (cbn; apply lookup_insert_eq).
  unfold start_result, started. cbn. rewrite Hst. cbn.
  rewrite insert_insert_eq.
  destruct (Num.scale len rate 1000) as [ms|]; cbn; [|done].
  unfold chosen_device, deref_defaultOutputDevice.
  destruct playbackDevice as [dev|]; cbn; [done|].
  destruct (defaultOutputDevice s) as [k|]; cbn; [|done].
  by destruct (devices s !! k) as [dev|].
Qed.

(** ** The invariant *)

Lemma Inv_wf s : Inv s -> wf s = true.
Proof.
  intros I. apply wf_iff. split; [|apply (inv_heap s I)].
  intros k p Hp. destruct (inv_bound s I k p Hp) as (d & Hd & _).
  rewrite (inv_key s I k p Hp). eauto.
Qed.

Lemma Inv_unregistered s k :
  Inv s -> next_ptr s <= k -> playingSounds s !! k = None.
Proof.
  intros I Hk. destruct (playingSounds s !! k) as [p|] eqn:Hp; [|done].
  destruct (inv_bound s I k p Hp) as (d & Hd & _).
  assert (0 < k < next_ptr s) by (apply (inv_alloc s I); eauto). lia.
Qed.

Lemma Inv_evolves s s' :
  Inv s -> evolves s s' ->
  (forall k d', is_Some (playingSounds s' !! k) -> streams s' !! k = Some d' ->
                dev_state d' <> StreamUninit) ->
  (forall k d', streams s' !! k = Some d' -> dev_state d' <> StreamUninit ->
                is_Some (playingSounds s' !! k)) ->
  (forall k q c', playingSounds s' !! k = Some q ->
                  decoders s' !! rawDecoder q = Some c' -> dec_inited c' = true) ->
  Inv s'.
Proof.
  intros I (Hd & Hf & Hc & Hn & Hr & Hsd & Hs & Hdd & Hdc) H1 H2 H3.
  assert (Hheap : heap_ok s').
  { intros k d' x Hd' Hx.
    assert (is_Some (streams s !! k)) as [d Hd0] by (apply Hsd; eauto).
    destruct (Hs _ _ _ Hd0 Hd') as [[Hp _]|[Hp _]]; [|congruence].
    apply Hdd. apply (inv_heap s I k d x Hd0). congruence. }
  split; try done.
  - rewrite Hc. apply (inv_counter s I).
  - rewrite Hn. apply (inv_next s I).
  - intros k q Hq. destruct (Hr _ _ Hq) as (p & Hp & Hi).
    destruct Hi as (_&_&->&_). by apply (inv_key s I).
  - intros k q Hq. destruct (Hr _ _ Hq) as (p & Hp & Hi).
    destruct Hi as (_&_&_&_&_&_&_&->&_). rewrite Hc. by apply (inv_ids s I k).
  - intros k k' q q' Hq Hq' Hid.
    destruct (Hr _ _ Hq) as (p & Hp & Hi). destruct (Hr _ _ Hq') as (p' & Hp' & Hi').
    destruct Hi as (_&_&_&_&_&_&_&Hid1&_). destruct Hi' as (_&_&_&_&_&_&_&Hid2&_).
    apply (inv_unique s I k k' p p' Hp Hp'). congruence.
  - intros k Hk. rewrite Hn. apply (inv_alloc s I). by rewrite <- Hsd, <- Hdd.
  - intros k q Hq. destruct (Hr _ _ Hq) as (p & Hp & Hi).
    destruct (inv_bound s I k p Hp) as (d & Hd0 & Hu & Ho).
    assert (is_Some (streams s' !! k)) as [d' Hd'] by (apply Hsd; eauto).
    exists d'. split; [done|].
    assert (Hopen : dev_state d' <> StreamUninit) by (apply (H1 k); eauto).
    split; [|done].
    destruct (Hs _ _ _ Hd0 Hd') as [[Hp' _]|[_ Hrel]]; [|done].
    destruct Hi as (_&_&_&->&_). congruence.
  - intros k d' Hd' Hu.
    assert (is_Some (streams s !! k)) as [d Hd0] by (apply Hsd; eauto).
    destruct (Hs _ _ _ Hd0 Hd') as [[Hp Hiff]|[Hp _]]; [|done].
    rewrite Hp. apply (inv_closed s I k d Hd0). by apply Hiff.
  - intros k q Hq. destruct (Hr _ _ Hq) as (p & Hp & Hi).
    destruct (inv_decoder s I k p Hp) as (c & Hc0 & Hl & Hrate & _).
    destruct Hi as (_&_&_&Hdec&Hlen&_&Hsr&_).
    assert (is_Some (decoders s' !! rawDecoder p)) as [c' Hc'] by (apply Hdd; eauto).
    destruct (Hdc _ _ _ Hc0 Hc') as (Hl' & Hr' & _).
    exists c'. rewrite Hdec. split; [done|]. split_and!; try congruence.
    apply (H3 k q c' Hq). by rewrite Hdec.
  - intros k k' q q' Hq Hq' Heq.
    destruct (Hr _ _ Hq) as (p & Hp & Hi). destruct (Hr _ _ Hq') as (p' & Hp' & Hi').
    destruct Hi as (_&_&_&Hx&_). destruct Hi' as (_&_&_&Hx'&_).
    apply (inv_own s I k k' p p' Hp Hp'). congruence.
  - intros k Hk. rewrite Hf in Hk. rewrite Hd. by apply (inv_default s I).
Qed.

Lemma Inv_steady s s' : Inv s -> steady s s' -> Inv s'.
Proof.
  intros I (He & Hk & Hs & Hdi). apply (Inv_evolves s s' I He).
  - intros k d' [q Hq] Hd'.
    destruct He as (_&_&_&_&Hr&_). destruct (Hr _ _ Hq) as (p & Hp & _).
    destruct (inv_bound s I k p Hp) as (d & Hd0 & _ & Ho).
    destruct (Hs _ _ _ Hd0 Hd') as [_ Hiff]. by rewrite Hiff.
  - intros k d' Hd' Ho. apply Hk.
    assert (is_Some (streams s !! k)) as [d Hd0].
    { destruct He as (_&_&_&_&_&Hsd&_). apply Hsd. eauto. }
    destruct (Hs _ _ _ Hd0 Hd') as [_ Hiff].
    apply (inv_open s I k d Hd0). by rewrite <- Hiff.
  - intros k q c' Hq Hc'.
    destruct He as (_&_&_&_&Hr&_&_&Hdd&_). destruct (Hr _ _ Hq) as (p & Hp & Hi).
    destruct Hi as (_&_&_&Hx&_). rewrite Hx in Hc'.
    destruct (inv_decoder s I k p Hp) as (c & Hc0 & _ & _ & Hin).
    by rewrite (Hdi _ _ _ Hc0 Hc').
Qed.

Lemma released_stream_uninit d : dev_state (released_stream d) = StreamUninit.
Proof. unfold released_stream. by destruct (dev_state d) eqn:E. Qed.

(** The state [stop] and [onFinished] leave: the session erased, its
    stream and decoder released. *)
Lemma Inv_release s key p d dc q :
  Inv s -> playingSounds s !! key = Some p ->
  streams s !! key = Some d -> decoders s !! rawDecoder p = Some dc ->
  Inv (mkSystem (devices s) (defaultOutputDevice s)
         (delete key (playingSounds s)) (playingSoundIdCounter s) (next_ptr s)
         (<[rawDecoder p := released_decoder dc]> (decoders s))
         (<[key := released_stream d]> (streams s)) q).
Proof.
  intros I Hp Hd Hx. split; cbn.
  - apply (inv_counter s I).
  - apply (inv_next s I).
  - intros k p0 [_ Hp0]%lookup_delete_Some. by apply (inv_key s I).
  - intros k p0 [_ Hp0]%lookup_delete_Some. by apply (inv_ids s I k).
  - intros k k' p0 p0' [_ Hp0]%lookup_delete_Some [_ Hp0']%lookup_delete_Some.
    by apply (inv_unique s I k k' p0 p0').
  - intros k Hk. apply (inv_alloc s I).
    destruct Hk as [Hk|Hk]; [left|right];
      rewrite is_Some_insert_present in Hk by eauto; done.
  - intros k p0 [Hne Hp0]%lookup_delete_Some.
    rewrite lookup_insert_ne by done. by apply (inv_bound s I).
  - intros k d0 Hd0 Ho. destruct (decide (key = k)) as [<-|Hne].
    + rewrite lookup_insert_eq in Hd0. injection Hd0 as <-.
      by rewrite released_stream_uninit in Ho.
    + rewrite lookup_insert_ne in Hd0 by done. rewrite lookup_delete_ne by done.
      by apply (inv_open s I k d0).
  - intros k d0 Hd0 Hu. destruct (decide (key = k)) as [<-|Hne].
    + rewrite lookup_insert_eq in Hd0. injection Hd0 as <-.
      unfold released_stream. destruct (dev_state d) eqn:E; try done.
      by apply (inv_closed s I key d).
    + rewrite lookup_insert_ne in Hd0 by done. by apply (inv_closed s I k d0).
  - intros k p0 [Hne Hp0]%lookup_delete_Some.
    destruct (inv_decoder s I k p0 Hp0) as (c & Hc & Hl & Hr).
    rewrite lookup_insert_ne; [eauto|].
    intros Heq. apply Hne. by apply (inv_own s I key k p p0).
  - intros k k' p0 p0' [_ Hp0]%lookup_delete_Some [_ Hp0']%lookup_delete_Some.
    by apply (inv_own s I k k' p0 p0').
  - intros k d0 y Hd0 Hy. cbn in Hd0 |- *.
    apply (is_Some_insert_present (decoders s) (rawDecoder p) (released_decoder dc) y);
      [eauto|].
    destruct (decide (key = k)) as [<-|Hne].
    + rewrite lookup_insert_eq in Hd0. injection Hd0 as <-.
      unfold released_stream in Hy. destruct (dev_state d) eqn:E; try done.
      rewrite (inv_closed s I key d Hd E) in Hy. done.
    + rewrite lookup_insert_ne in Hd0 by done. by apply (inv_heap s I k d0 y).
  - apply (inv_default s I).
Qed.

Lemma stop_found soundId s key sound d x dc :
  find_sound soundId (playingSounds s) = Some (key, sound) ->
  streams s !! rawDevice sound = Some d -> pUserData d = Some x ->
  decoders s !! x = Some dc ->
  stop soundId s
  = Ret true
      (mkSystem (devices s) (defaultOutputDevice s)
         (delete key (playingSounds s)) (playingSoundIdCounter s) (next_ptr s)
         (<[x := released_decoder dc]> (decoders s))
         (<[rawDevice sound := released_stream d]> (streams s)) (gQueue s))
      [Ma (DeviceUninit (rawDevice sound)); Ma (DecoderUninit (Some x))].
Proof.
  intros Hf Hd Hx Hdc. unfold stop, stop_lookup, stop_teardown, stop_erase. cbn.
  rewrite Hf. cbn. rewrite Hd. cbn. rewrite Hx.
  rewrite (ma_device_uninit_known _ _ _ Hd). cbn.
  erewrite ma_decoder_uninit_known by (cbn; exact Hdc). cbn.
  apply find_sound_Some in Hf as (Hk & _). by rewrite Hk.
Qed.

(** Under the invariant a registered id leads to its session's stream and
    decoder. *)
Lemma Inv_session s key p :
  Inv s -> playingSounds s !! key = Some p ->
  rawDevice p = key /\
  exists d dc, streams s !! key = Some d /\ pUserData d = Some (rawDecoder p) /\
               dev_state d <> StreamUninit /\
               decoders s !! rawDecoder p = Some dc /\
               dec_length dc = ps_length p /\ outputSampleRate dc = sampleRate p /\
               dec_inited dc = true.
Proof.
  intros I Hp. split; [by apply (inv_key s I)|].
  destruct (inv_bound s I key p Hp) as (d & Hd & Hu & Ho).
  destruct (inv_decoder s I key p Hp) as (dc & Hdc & Hl & Hr & Hi).
  by exists d, dc.
Qed.

Lemma Inv_stop soundId s r s' evs :
  Inv s -> stop soundId s = Ret r s' evs -> Inv s'.
Proof.
  intros I H.
  destruct (find_sound soundId (playingSounds s)) as [[key p]|] eqn:Hf.
  - pose proof Hf as (Hp & _)%find_sound_Some.
    destruct (Inv_session s key p I Hp) as (Hk & d & dc & Hd & Hu & _ & Hdc & _).
    rewrite <- Hk in Hd.
    rewrite (stop_found _ _ _ _ _ _ _ Hf Hd Hu Hdc) in H.
    injection H as _ <- _. rewrite Hk. rewrite Hk in Hd.
    by apply (Inv_release s key p).
  - rewrite (stop_unknown _ _ Hf) in H. by injection H as _ <- _.
Qed.

Lemma Inv_onFinished device s r s' evs :
  Inv s -> onFinished device s = Ret r s' evs -> Inv s'.
Proof.
  intros I H. destruct (playingSounds s !! device) as [p|] eqn:Hp.
  - destruct (Inv_session s device p I Hp) as (Hk & d & dc & Hd & Hu & _ & Hdc & _).
    rewrite <- Hk in Hd.
    rewrite (onFinished_registered _ _ _ _ _ Hp Hd Hdc) in H.
    injection H as _ <- _. rewrite Hk. rewrite Hk in Hd.
    by apply (Inv_release s device p).
  - rewrite (onFinished_unregistered _ _ Hp) in H. by injection H as _ <- _.
Qed.

Lemma Inv_set_gQueue s q : Inv s -> Inv (set_gQueue q s).
Proof. intros I. apply (Inv_steady s); [done|apply steady_set_gQueue]. Qed.

Lemma Inv_queue_run_next s r s' evs :
  Inv s -> queue_run_next s = Ret r s' evs -> Inv s'.
Proof.
  intros I H. unfold queue_run_next in H.
  apply bind_inv in H as (s0 & s1 & e0 & e1 & Hg & H & _).
  injection Hg as <- <- _.
  destruct (gQueue s) as [|[k t] q] eqn:Hq; [by injection H as _ <- _|].
  apply bind_inv in H as ([] & s2 & e2 & e3 & Hm & H & _).
  by rewrite run_task_undefined in H.
Qed.

Lemma Inv_stopAll s r s' evs :
  Inv s -> stopAll s = Ret r s' evs -> Inv s' /\ playingSounds s' = ∅.
Proof.
  intros I H. pose proof (evolves_stopAll _ _ _ _ H) as He.
  destruct (stopAll_ok s (Inv_wf s I))
    as (s1 & e1 & H1 & Hreg & _ & _ & _ & _ & _ & _ & Hrel & _).
  rewrite H in H1. injection H1 as _ <- _. split; [|done].
  apply (Inv_evolves s s' I He).
  - intros k d' [q Hq]. by rewrite Hreg, lookup_empty in Hq.
  - intros k d' Hd' Ho. exfalso.
    assert (is_Some (streams s !! k)) as [d Hd].
    { destruct He as (_&_&_&_&_&Hsd&_). apply Hsd. eauto. }
    destruct He as (_&_&_&_&_&_&Hs&_).
    destruct (Hs _ _ _ Hd Hd') as [[_ Hiff]|[_ Hu]]; [|done].
    assert (is_Some (playingSounds s !! k)) as [p Hp].
    { apply (inv_open s I k d Hd). by rewrite <- Hiff. }
    destruct (Hrel k p Hp) as (d0 & Hd0 & Hu).
    rewrite (inv_key s I k p Hp) in Hd0. congruence.
  - intros k q c' Hq. by rewrite Hreg, lookup_empty in Hq.
Qed.

(** A state that differs from one with the invariant by objects allocated
    since, none of them an open stream. *)
Lemma Inv_allocated s n' D S :
  Inv s -> next_ptr s <= n' ->
  (forall k, k < next_ptr s -> D !! k = decoders s !! k) ->
  (forall k, k < next_ptr s -> S !! k = streams s !! k) ->
  (forall k, is_Some (S !! k) \/ is_Some (D !! k) -> 0 < k < n') ->
  (forall k d, next_ptr s <= k -> S !! k = Some d -> stream_released d) ->
  Inv (mkSystem (devices s) (defaultOutputDevice s) (playingSounds s)
         (playingSoundIdCounter s) n' D S (gQueue s)).
Proof.
  intros I Hn HD HS HA HN.
  assert (Hold : forall k, is_Some (streams s !! k) \/ is_Some (decoders s !! k) ->
                           k < next_ptr s).
  { intros k Hk. by apply (inv_alloc s I) in Hk as [_ ?]. }
  assert (Hlow : forall k d, S !! k = Some d ->
             dev_state d <> StreamUninit \/ is_Some (pUserData d) ->
             streams s !! k = Some d).
  { intros k d Hd Hor. destruct (decide (k < next_ptr s)) as [Hlt|Hge].
    - by rewrite <- HS.
    - destruct (HN k d) as [Hp Hu]; [lia|done|].
      destruct Hor as [?|[? ?]]; [done|congruence]. }
  split; cbn.
  - apply (inv_counter s I).
  - pose proof (inv_next s I). lia.
  - apply (inv_key s I).
  - apply (inv_ids s I).
  - apply (inv_unique s I).
  - exact HA.
  - intros k p Hp. destruct (inv_bound s I k p Hp) as (d & Hd & Hu & Ho).
    exists d. split; [|done]. rewrite HS; [done|]. apply Hold. eauto.
  - intros k d Hd Ho. apply (inv_open s I k d); [|done]. apply Hlow; auto.
  - intros k d Hd Hu. destruct (decide (k < next_ptr s)) as [Hlt|Hge].
    + rewrite HS in Hd by done. by apply (inv_closed s I k d).
    + destruct (HN k d) as [Hp _]; [lia|done|done].
  - intros k p Hp. destruct (inv_decoder s I k p Hp) as (c & Hc & Hl & Hr).
    exists c. split; [|done]. rewrite HD; [done|]. apply Hold. eauto.
  - apply (inv_own s I).
  - intros k d x Hd Hx. cbn in Hd |- *.
    assert (Hd0 : streams s !! k = Some d) by (apply Hlow; [done|right; eauto]).
    pose proof (inv_heap s I k d x Hd0 Hx) as Hdx.
    rewrite HD; [done|]. apply Hold. eauto.
  - apply (inv_default s I).
Qed.

Lemma u32_small z : 0 <= z < 2 ^ 32 -> Num.u32 z = z.
Proof. intros H. unfold Num.u32. by apply Z.mod_small. Qed.

(** The state a successful [play] leaves. *)
Lemma Inv_registered s p dc dev q :
  Inv s -> playingSoundIdCounter s + 1 < 2 ^ 32 ->
  rawDevice p = next_ptr s + 1 -> rawDecoder p = next_ptr s ->
  ps_id p = playingSoundIdCounter s + 1 ->
  ps_length p = dec_length dc -> sampleRate p = outputSampleRate dc ->
  dec_inited dc = true ->
  pUserData dev = Some (next_ptr s) -> dev_state dev <> StreamUninit ->
  Inv (mkSystem (devices s) (defaultOutputDevice s)
         (<[next_ptr s + 1 := p]> (playingSounds s))
         (playingSoundIdCounter s + 1) (next_ptr s + 1 + 1)
         (<[next_ptr s := dc]> (decoders s))
         (<[next_ptr s + 1 := dev]> (streams s)) q).
Proof.
  intros I Hc Hdev Hdec Hid Hlen Hrate Hin Hu Ho.
  assert (Hold : forall k, is_Some (streams s !! k) \/ is_Some (decoders s !! k) ->
                           0 < k < next_ptr s) by apply (inv_alloc s I).
  assert (Hreg : forall k p0, playingSounds s !! k = Some p0 -> k < next_ptr s).
  { intros k p0 Hp0. destruct (inv_bound s I k p0 Hp0) as (d & Hd & _).
    apply Hold. eauto. }
  pose proof (inv_counter s I) as Hcnt.
  pose proof (inv_next s I) as Hn.
  split; cbn.
  - lia.
  - lia.
  - intros k p0 [[<- <-]|[Hne Hp0]]%lookup_insert_Some; [done|].
    by apply (inv_key s I).
  - intros k p0 [[<- <-]|[Hne Hp0]]%lookup_insert_Some; [lia|].
    pose proof (inv_ids s I k p0 Hp0). lia.
  - intros k k' p0 p0' [[<- <-]|[Hne Hp0]]%lookup_insert_Some
      [[<- <-]|[Hne' Hp0']]%lookup_insert_Some Heq; try done.
    + pose proof (inv_ids s I k' p0' Hp0'). lia.
    + pose proof (inv_ids s I k p0 Hp0). lia.
    + by apply (inv_unique s I k k' p0 p0').
  - intros k [[d Hk]|[d Hk]].
    + apply lookup_insert_Some in Hk as [[<- _]|[_ Hk]]; [lia|].
      assert (0 < k < next_ptr s) by (apply Hold; eauto). lia.
    + apply lookup_insert_Some in Hk as [[<- _]|[_ Hk]]; [lia|].
      assert (0 < k < next_ptr s) by (apply Hold; eauto). lia.
  - intros k p0 [[<- <-]|[Hne Hp0]]%lookup_insert_Some.
    + rewrite lookup_insert_eq. exists dev. by rewrite Hdec.
    + rewrite lookup_insert_ne by done. by apply (inv_bound s I).
  - intros k d Hd Hod. destruct (decide (next_ptr s + 1 = k)) as [<-|Hne].
    + rewrite lookup_insert_eq. eauto.
    + rewrite lookup_insert_ne in Hd by done. rewrite lookup_insert_ne by done.
      by apply (inv_open s I k d).
  - intros k d [[<- <-]|[Hne Hd]]%lookup_insert_Some Hud; [done|].
    by apply (inv_closed s I k d).
  - intros k p0 [[<- <-]|[Hne Hp0]]%lookup_insert_Some.
    + rewrite Hdec, lookup_insert_eq. by exists dc.
    + destruct (inv_decoder s I k p0 Hp0) as (c & Hc0 & Hl & Hr).
      exists c. split; [|done]. rewrite lookup_insert_ne; [done|].
      assert (0 < rawDecoder p0 < next_ptr s) by (apply Hold; eauto). lia.
  - assert (Hdecs : forall k p0, playingSounds s !! k = Some p0 ->
                                 rawDecoder p0 < next_ptr s).
    { intros k p0 Hp0. destruct (inv_decoder s I k p0 Hp0) as (c & Hc0 & _).
      apply Hold. eauto. }
    intros k k' p0 p0' [[<- <-]|[Hne Hp0]]%lookup_insert_Some
      [[<- <-]|[Hne' Hp0']]%lookup_insert_Some Heq; try done.
    + pose proof (Hdecs k' p0' Hp0'). lia.
    + pose proof (Hdecs k p0 Hp0). lia.
    + by apply (inv_own s I k k' p0 p0').
  - intros k d y Hd Hy. cbn in Hd |- *.
    apply lookup_insert_Some in Hd as [[<- <-]|[Hne Hd]].
    + assert (y = next_ptr s) as -> by congruence. rewrite lookup_insert_eq. eauto.
    + pose proof (inv_heap s I k d y Hd Hy) as Hdy.
      rewrite lookup_insert_ne; [done|].
      assert (0 < y < next_ptr s) by (apply Hold; eauto). lia.
  - apply (inv_default s I).
Qed.

Lemma Inv_play_overlapping cfg pf sound playbackDevice s r s' evs :
  allowOverlapping cfg = true ->
  Inv s -> playingSoundIdCounter s + 1 < 2 ^ 32 ->
  play cfg pf sound playbackDevice s = Ret r s' evs -> Inv s'.
Proof.
  intros Hov I Hc H.
  assert (Hold : forall k, is_Some (streams s !! k) \/ is_Some (decoders s !! k) ->
                           0 < k < next_ptr s) by apply (inv_alloc s I).
  pose proof (inv_next s I) as Hn.
  destruct (decode_file pf (path sound)) as [[len rate]|] eqn:Hd.
  2: { rewrite (play_bad_path_overlapping _ _ _ _ _ Hov Hd) in H.
       injection H as _ <- _.
       apply (Inv_allocated s (next_ptr s + 1) (decoders s) (streams s) I);
         try done; [lia| |].
       - intros k Hk. apply Hold in Hk. lia.
       - intros k d Hk Hs. assert (0 < k < next_ptr s) by (apply Hold; eauto). lia. }
  destruct (device_init_ok pf) eqn:Hi.
  2: { rewrite (play_init_failure_overlapping _ _ _ _ _ _ _ Hov Hd Hi) in H.
       injection H as _ <- _.
       apply (Inv_allocated s _ _ _ I); [lia| |done| |].
       - intros k Hk. rewrite lookup_insert_ne; [done|lia].
       - intros k [Hk|[c Hk]].
         + assert (0 < k < next_ptr s) by (apply Hold; eauto). lia.
         + apply lookup_insert_Some in Hk as [[<- _]|[_ Hk]]; [lia|].
           assert (0 < k < next_ptr s) by (apply Hold; eauto). lia.
       - intros k d Hk Hs. assert (0 < k < next_ptr s) by (apply Hold; eauto). lia. }
  destruct (device_start_ok pf) eqn:Hst.
  2: { rewrite (play_start_failure_overlapping _ _ _ _ _ _ _ Hov Hd Hi Hst) in H.
       injection H as _ <- _.
       apply (Inv_allocated s _ _ _ I); [lia| | | |].
       - intros k Hk. rewrite lookup_insert_ne; [done|lia].
       - intros k Hk. rewrite lookup_insert_ne; [done|lia].
       - intros k [[c Hk]|[c Hk]].
         + apply lookup_insert_Some in Hk as [[<- _]|[_ Hk]]; [lia|].
           assert (0 < k < next_ptr s) by (apply Hold; eauto). lia.
         + apply lookup_insert_Some in Hk as [[<- _]|[_ Hk]]; [lia|].
           assert (0 < k < next_ptr s) by (apply Hold; eauto). lia.
       - intros k d Hk [[_ <-]|[_ Hs]]%lookup_insert_Some; [done|].
         assert (0 < k < next_ptr s) by (apply Hold; eauto). lia. }
  rewrite (play_started_overlapping _ _ _ _ _ _ _ Hov Hd Hi Hst) in H.
  destruct (Num.scale len rate 1000) as [ms|]; [|done].
  destruct (chosen_device playbackDevice s) as [dev|]; [|done].
  cbv zeta in H. injection H as _ <- _.
  unfold insert_new. rewrite (Inv_unregistered s (next_ptr s + 1) I) by lia.
  rewrite u32_small by (pose proof (inv_counter s I); lia).
  apply Inv_registered; try done. cbn.
  apply u32_small. pose proof (inv_counter s I). lia.
Qed.

Lemma Inv_play cfg pf sound playbackDevice s r s' evs :
  Inv s -> playingSoundIdCounter s + 1 < 2 ^ 32 ->
  play cfg pf sound playbackDevice s = Ret r s' evs -> Inv s'.
Proof.
  intros I Hc H. destruct (allowOverlapping cfg) eqn:Hov.
  - by eapply Inv_play_overlapping.
  - destruct (stopAll_ok s (Inv_wf s I)) as (s1 & e1 & H1 & _).
    rewrite (play_exclusive _ _ _ _ _ _ _ Hov H1) in H.
    destruct (Inv_stopAll _ _ _ _ I H1) as [I1 _].
    pose proof (evolves_stopAll _ _ _ _ H1) as (_ & _ & Hc1 & _).
    destruct (play _ pf sound playbackDevice s1) as [r2 s2 e2|] eqn:H2; [|done].
    injection H as _ <- _.
    eapply (Inv_play_overlapping _ _ _ _ s1); [| | |exact H2]; [done|done|].
    by rewrite Hc1.
Qed.


(** ** The constructor *)

Lemma enumerate_fold (dn : string) (l : list AudioDevice) :
  forall acc : gmap string AudioDevice * option string,
    (forall d, d ∈ l -> (isDefault d = true <-> name d = dn)) ->
    (forall k d, fst acc !! k = Some d ->
                 name d = k /\ (isDefault d = true <-> k = dn) /\
                 volume d = Num.one_f) ->
    (forall d, d ∈ l -> volume d = Num.one_f) ->
    (forall k, snd acc = Some k -> k = dn /\ is_Some (fst acc !! k)) ->
    let r :=
      fold_left (fun (acc : gmap string AudioDevice * option string) device =>
                   let devs := insert_new (name device) device (fst acc) in
                   (devs, if isDefault device then Some (name device) else snd acc))
                l acc in
    (forall k d, fst r !! k = Some d ->
                 name d = k /\ (isDefault d = true <-> k = dn) /\
                 volume d = Num.one_f) /\
    (forall k, snd r = Some k -> k = dn /\ is_Some (fst r !! k)) /\
    (forall k, is_Some (fst r !! k) <->
               is_Some (fst acc !! k) \/ exists d, d ∈ l /\ name d = k).
Proof.
  induction l as [|x l IH]; intros acc Hl Hacc Hvol Hdef; cbn.
  - split; [done|]. split; [done|]. intros k. split; [by left|].
    intros [?|(d & Hd & _)]; [done|]. by apply elem_of_nil in Hd.
  - set (acc1 := (insert_new (name x) x acc.1,
                  if isDefault x then Some (name x) else acc.2)).
    assert (Hdom1 : forall k, is_Some (acc1.1 !! k) <->
                              is_Some (acc.1 !! k) \/ name x = k).
    { intros k. unfold acc1, insert_new. cbn.
      destruct (acc.1 !! name x) as [d0|] eqn:E.
      - split; [by left|]. intros [?|<-]; [done|]. rewrite E. eauto.
      - rewrite lookup_insert_is_Some. split.
        + intros [?|[_ ?]]; [by right|by left].
        + intros [?|?]; [|by left]. destruct (decide (name x = k)); [by left|].
          by right. }
    destruct (IH acc1) as (H1 & H2 & H3).
    + intros d Hd. apply Hl. by right.
    + intros k d. unfold acc1, insert_new. cbn.
      destruct (acc.1 !! name x) as [d0|] eqn:E; [apply Hacc|].
      intros [[<- <-]|[_ Hk]]%lookup_insert_Some; [|by apply Hacc].
      split; [done|]. split; [apply Hl; by left|apply Hvol; by left].
    + intros d Hd. apply Hvol. by right.
    + intros k. unfold acc1 at 1. cbn. destruct (isDefault x) eqn:Ex.
      * intros [= <-]. split; [apply Hl; [by left|done]|].
        apply Hdom1. by right.
      * intros Hk. destruct (Hdef k Hk) as [-> Hs]. split; [done|].
        apply Hdom1. by left.
    + split; [done|]. split; [done|]. intros k. rewrite H3, Hdom1. split.
      * intros [[?|<-]|(d & Hd & Hn)]; [by left| |].
        -- right. exists x. split; [by left|done].
        -- right. exists d. split; [by right|done].
      * intros [?|(d & Hd & Hn)]; [by left; left|].
        apply elem_of_cons in Hd as [->|Hd]; [left; by right|].
        right. by exists d.
Qed.

Lemma restore_volume_lookup devs dv k :
  restore_volume devs dv !! k
  = match devs !! k with
    | Some d =>
        Some (if decide (name dv = k)
              then mkAudioDevice (name d) (isDefault d) (volume dv) else d)
    | None => None
    end.
Proof.
  unfold restore_volume. destruct (decide (name dv = k)) as [<-|Hne].
  - destruct (devs !! name dv) as [d|] eqn:E; [by rewrite lookup_insert_eq|].
    by rewrite E.
  - destruct (devs !! name dv) as [d|] eqn:E.
    + rewrite lookup_insert_ne by done. by destruct (devs !! k).
    + by destruct (devs !! k).
Qed.

Lemma restore_fold_shape (l : list AudioDevice) :
  forall devs k,
    match fold_left restore_volume l devs !! k, devs !! k with
    | Some d', Some d => name d' = name d /\ isDefault d' = isDefault d
    | None, None => True
    | _, _ => False
    end.
Proof.
  induction l as [|dv l IH]; intros devs k; cbn.
  - by destruct (devs !! k).
  - specialize (IH (restore_volume devs dv) k).
    rewrite restore_volume_lookup in IH.
    destruct (fold_left restore_volume l (restore_volume devs dv) !! k) as [d'|];
      destruct (devs !! k) as [d|]; try done.
    by destruct (decide (name dv = k)).
Qed.

Lemma restore_fold_skip (l : list AudioDevice) k :
  forall devs,
    (forall dv, dv ∈ l -> name dv <> k) ->
    fold_left restore_volume l devs !! k = devs !! k.
Proof.
  induction l as [|dv l IH]; intros devs Hl; cbn; [done|].
  rewrite IH by (intros dv' Hdv'; apply Hl; by right).
  rewrite restore_volume_lookup. destruct (devs !! k) as [d|]; [|done].
  destruct (decide (name dv = k)) as [He|]; [|done].
  exfalso. by apply (Hl dv); [left|].
Qed.

Lemma restore_fold_last (l1 l2 : list AudioDevice) dv devs d :
  devs !! name dv = Some d ->
  (forall dv', dv' ∈ l2 -> name dv' <> name dv) ->
  exists d', fold_left restore_volume (l1 ++ dv :: l2) devs !! name dv = Some d' /\
             volume d' = volume dv.
Proof.
  intros Hd Hl2. rewrite fold_left_app. cbn.
  rewrite (restore_fold_skip l2 (name dv)) by done.
  rewrite restore_volume_lookup.
  pose proof (restore_fold_shape l1 devs (name dv)) as Hs. rewrite Hd in Hs.
  destruct (fold_left restore_volume l1 devs !! name dv) as [d1|]; [|done].
  rewrite decide_True by done. eauto.
Qed.

Lemma getAudioDevices_volume pf d :
  d ∈ getAudioDevices pf -> volume d = Num.one_f.
Proof.
  unfold getAudioDevices. destruct (context_init_ok pf); cbn;
    [|by intros ?%elem_of_nil].
  destruct (context_devices pf) as [infos|]; [|by intros ?%elem_of_nil].
  by intros (n & -> & _)%list_elem_of_fmap.
Qed.

Lemma Audio_Audio_fields cfg pf :
  let r :=
    fold_left (fun (acc : gmap string AudioDevice * option string) device =>
                 let devs := insert_new (name device) device (fst acc) in
                 (devs, if isDefault device then Some (name device) else snd acc))
              (getAudioDevices pf) (∅, None) in
  devices (Audio_Audio cfg pf) = fold_left restore_volume (deviceSettings cfg) r.1 /\
  defaultOutputDevice (Audio_Audio cfg pf) = r.2 /\
  playingSounds (Audio_Audio cfg pf) = ∅ /\
  playingSoundIdCounter (Audio_Audio cfg pf) = 0 /\
  next_ptr (Audio_Audio cfg pf) = 1 /\
  decoders (Audio_Audio cfg pf) = ∅ /\ streams (Audio_Audio cfg pf) = ∅ /\
  gQueue (Audio_Audio cfg pf) = [].
Proof.
  unfold Audio_Audio.
  destruct (fold_left _ (getAudioDevices pf) _) as [devs def]. by cbn.
Qed.

(** The device table after construction. *)
Lemma Audio_Audio_table cfg pf :
  (forall k, is_Some (devices (Audio_Audio cfg pf) !! k) <->
             exists d, d ∈ getAudioDevices pf /\ name d = k) /\
  (forall k d, devices (Audio_Audio cfg pf) !! k = Some d ->
               name d = k /\ (isDefault d = true <-> k = default_name pf)) /\
  (forall k, defaultOutputDevice (Audio_Audio cfg pf) = Some k ->
             k = default_name pf /\ is_Some (devices (Audio_Audio cfg pf) !! k)) /\
  (forall k, (forall dv, dv ∈ deviceSettings cfg -> name dv <> k) ->
             getVolume (Audio_Audio cfg pf) k = Num.one_f).
Proof.
  destruct (Audio_Audio_fields cfg pf) as (Hdev & Hdef & _).
  destruct (enumerate_fold (default_name pf) (getAudioDevices pf) (∅, None))
    as (H1 & H2 & H3).
  { intros d. apply getAudioDevices_isDefault. }
  { intros k d H. cbn in H. by rewrite lookup_empty in H. }
  { intros d. apply getAudioDevices_volume. }
  { by intros k. }
  set (r := fold_left _ (getAudioDevices pf) (∅, None)) in *.
  assert (Hshape := fun k => restore_fold_shape (deviceSettings cfg) r.1 k).
  rewrite <- Hdev in Hshape.
  split_and!.
  - intros k. specialize (H3 k). cbn in H3. rewrite lookup_empty in H3.
    specialize (Hshape k).
    assert (Hiff : is_Some (devices (Audio_Audio cfg pf) !! k) <-> is_Some (r.1 !! k)).
    { destruct (devices (Audio_Audio cfg pf) !! k), (r.1 !! k); try done;
        split; try (intros [? ?]; done); eauto. }
    rewrite Hiff, H3. split; [|by right]. intros [[? ?]|?]; done.
  - intros k d Hd. specialize (Hshape k). rewrite Hd in Hshape.
    destruct (r.1 !! k) as [d0|] eqn:E; [|done].
    destruct Hshape as [-> ->]. destruct (H1 k d0 E) as (? & ? & _). done.
  - intros k Hk. rewrite Hdef in Hk. destruct (H2 k Hk) as [-> Hs].
    split; [done|]. specialize (Hshape (default_name pf)).
    destruct (devices (Audio_Audio cfg pf) !! default_name pf); [eauto|].
    destruct Hs as [d0 Hs]. by rewrite Hs in Hshape.
  - intros k Hk. unfold getVolume. rewrite Hdev, restore_fold_skip by done.
    destruct (r.1 !! k) as [d0|] eqn:E; [|done]. by destruct (H1 k d0 E) as (_&_&?).
Qed.

Lemma Inv_Audio_Audio cfg pf : Inv (Audio_Audio cfg pf).
Proof.
  destruct (Audio_Audio_fields cfg pf) as (_ & _ & Hreg & Hc & Hn & Hdec & Hstr & _).
  destruct (Audio_Audio_table cfg pf) as (_ & Hname & Hdef & _).
  split; rewrite ?Hreg, ?Hc, ?Hn, ?Hdec, ?Hstr; try done; try lia.
  - intros k [[? H]|[? H]]; by rewrite lookup_empty in H.
  - intros k d y H. by rewrite Hstr, lookup_empty in H.
  - intros k Hk. destruct (Hdef k Hk) as [-> [d Hd]].
    exists d. destruct (Hname _ _ Hd) as [? Hi]. split; [done|]. split; [done|].
    by apply Hi.
Qed.

Lemma Inv_call cfg s s' : Inv s -> call cfg s s' -> Inv s'.
Proof.
  intros I Hcall. revert I.
  destruct Hcall as [pf sound pd s0 r s1 evs Hc H | s0 s1 evs H | id s0 r s1 evs H
           | id s0 r s1 evs H | pf id s0 r s1 evs H | id pos s0 r s1 evs H
           | dev n s0 s1 evs H | s0 s1 evs H | dev k t q s0 s1 evs Hq H]; intros I.
  - by eapply Inv_play.
  - by eapply Inv_stopAll.
  - by eapply Inv_stop.
  - eapply Inv_steady; [done|]. by eapply steady_pause.
  - eapply Inv_steady; [done|]. by eapply steady_resume.
  - eapply Inv_steady; [done|]. by eapply steady_seek.
  - eapply Inv_steady; [done|]. by eapply steady_data_callback.
  - by eapply Inv_queue_run_next.
  - eapply Inv_onFinished; [|exact H]. by apply Inv_set_gQueue.
Qed.

Lemma Inv_reachable cfg s : reachable cfg s -> Inv s.
Proof.
  induction 1 as [pf|s s' _ IH Hc]; [apply Inv_Audio_Audio|by eapply Inv_call].
Qed.

(** ** What holds in every state the engine reaches *)

Lemma playing_reachable : reachable Ex.overlapping Ex.playing.
Proof.
  eapply reachable_call; [apply (reachable_new _ Ex.platform)|].
  eapply (call_play _ Ex.platform Ex.a_wav None); [|apply fresh_play_a_wav].
  vm_compute. reflexivity.
Qed.

Lemma find_sound_Inv s soundId k p :
  Inv s ->
  (find_sound soundId (playingSounds s) = Some (k, p)
   <-> playingSounds s !! k = Some p /\ ps_id p = soundId).
Proof.
  intros I. rewrite find_sound_Some. split; [by intros (? & ? & _)|].
  intros [Hp Hid]. split; [done|]. split; [done|].
  intros k' p' Hp' Hid'.
  assert (k = k') as -> by (apply (inv_unique s I k k' p p'); congruence). lia.
Qed.

(** X1. Ids identify sessions.  In every state the engine reaches by
    calls that each run to completion ([play] being called only while the
    32-bit id counter has not reached its last value), every registered
    session has an id between 1 and the current counter, no two registered
    sessions share an id, and the search by id that [stop], [pause],
    [resume] and [seek] start with finds a session exactly if it is
    registered under that id. *)
Theorem session_ids_unambiguous (cfg : Settings) (s : System) :
  reachable cfg s ->
  (forall k p, playingSounds s !! k = Some p ->
               0 < ps_id p <= playingSoundIdCounter s) /\
  (forall k k' p p', playingSounds s !! k = Some p ->
                     playingSounds s !! k' = Some p' ->
                     ps_id p = ps_id p' -> k = k' /\ p = p') /\
  (forall soundId k p,
      find_sound soundId (playingSounds s) = Some (k, p)
      <-> playingSounds s !! k = Some p /\ ps_id p = soundId).
Proof.
  intros I%Inv_reachable. split_and!.
  - apply (inv_ids s I).
  - intros k k' p p' Hp Hp' Hid.
    assert (k = k') as <- by by apply (inv_unique s I k k' p p').
    split; [done|congruence].
  - intros soundId k p. by apply find_sound_Inv.
Qed.

Lemma session_ids_unambiguous_witness :
  reachable Ex.overlapping Ex.playing /\
  (find_sound 1 (playingSounds Ex.playing) = Some (2, Ex.session)
   <-> playingSounds Ex.playing !! 2 = Some Ex.session /\ ps_id Ex.session = 1).
Proof.
  split; [apply playing_reachable|].
  apply (session_ids_unambiguous Ex.overlapping Ex.playing playing_reachable).
Defined.

(** X2. A registered session is backed by live objects.  In every state
    the engine reaches by calls that each run to completion, a session is
    registered under the handle of its own stream; that stream is
    initialised and bound to the session's decoder; the decoder is
    initialised, belongs to no other session, and its length and sample
    rate are the ones the session records. *)
Theorem registered_session_is_live (cfg : Settings) (s : System) k p :
  reachable cfg s -> playingSounds s !! k = Some p ->
  rawDevice p = k /\
  (exists d, streams s !! k = Some d /\ pUserData d = Some (rawDecoder p) /\
             dev_state d <> StreamUninit) /\
  (exists dc, decoders s !! rawDecoder p = Some dc /\ dec_inited dc = true /\
              dec_length dc = ps_length p /\ outputSampleRate dc = sampleRate p) /\
  (forall k' p', playingSounds s !! k' = Some p' ->
                 rawDecoder p' = rawDecoder p -> k' = k).
Proof.
  intros I%Inv_reachable Hp.
  destruct (Inv_session s k p I Hp) as (Hk & d & dc & Hd & Hu & Ho & Hdc & Hl & Hr & Hi).
  split_and!; [done|by exists d|by exists dc|].
  intros k' p' Hp' Heq. by apply (inv_own s I k' k p' p).
Qed.

Lemma registered_session_is_live_witness :
  rawDevice Ex.session = 2 /\
  exists dc, decoders Ex.playing !! rawDecoder Ex.session = Some dc /\
             dec_inited dc = true.
Proof.
  destruct (registered_session_is_live Ex.overlapping Ex.playing 2 Ex.session)
    as (Hk & _ & (dc & Hdc & Hi & _) & _).
  - apply playing_reachable.
  - vm_compute. reflexivity.
  - split; [exact Hk|]. exists dc. by split.
Defined.

(** X3. No stream is left open behind the registry's back.  In every
    state the engine reaches by calls that each run to completion, a
    stream object that is still initialised belongs to a registered
    session, a released stream object holds no decoder pointer, and a
    decoder pointer held by a stream points to a decoder object. *)
Theorem open_stream_is_registered (cfg : Settings) (s : System) k d :
  reachable cfg s -> streams s !! k = Some d ->
  (dev_state d <> StreamUninit -> is_Some (playingSounds s !! k)) /\
  (dev_state d = StreamUninit -> pUserData d = None) /\
  (forall x, pUserData d = Some x -> is_Some (decoders s !! x)).
Proof.
  intros I%Inv_reachable Hd. split_and!.
  - by apply (inv_open s I).
  - by apply (inv_closed s I k).
  - intros x Hx. by apply (inv_heap s I k d x).
Qed.

Lemma open_stream_is_registered_witness :
  is_Some (playingSounds Ex.playing !! 2).
Proof.
  destruct (open_stream_is_registered Ex.overlapping Ex.playing 2 Ex.stream_2)
    as (H & _).
  - apply playing_reachable.
  - vm_compute. reflexivity.
  - apply H. discriminate.
Defined.

(** X4. The callback of a stream without a session does nothing.  In every
    state the engine reaches by calls that each run to completion, a run of
    the callback for a stream object whose session is no longer registered
    (after [stop], [stopAll] or the finish task) returns at the null test
    of [pUserData]: the state is unchanged, no decoder is read and nothing
    is reported or queued. *)
Theorem callback_without_session_is_idle
    (cfg : Settings) (s : System) device frameCount d :
  reachable cfg s -> streams s !! device = Some d ->
  playingSounds s !! device = None ->
  data_callback device frameCount s = Ret tt s [].
Proof.
  intros I%Inv_reachable Hd Hp.
  assert (Hu : dev_state d = StreamUninit).
  { destruct (dev_state d) eqn:E; [done| |].
    all: destruct (inv_open s I device d Hd) as [p Hp']; [by rewrite E|congruence]. }
  pose proof (inv_closed s I device d Hd Hu) as Hnull.
  unfold data_callback. cbn. rewrite Hd. cbn. by rewrite Hnull.
Qed.

Lemma released_reachable : reachable Ex.overlapping Ex.released.
Proof.
  eapply reachable_call; [apply playing_reachable|].
  eapply (call_stop _ 1 Ex.playing true _
            [Ma (DeviceUninit 2); Ma (DecoderUninit (Some 1))]).
  vm_compute. reflexivity.
Qed.

Lemma callback_without_session_is_idle_witness :
  data_callback 2 512 Ex.released = Ret tt Ex.released [].
Proof.
  apply (callback_without_session_is_idle Ex.overlapping Ex.released 2 512
           zeroed_device).
  - apply released_reachable.
  - vm_compute. reflexivity.
  - vm_compute. reflexivity.
Defined.

(** ** Calls that always return *)

Lemma stop_defined_Inv s soundId :
  Inv s -> exists r s' evs, stop soundId s = Ret r s' evs.
Proof.
  intros I. destruct (find_sound soundId (playingSounds s)) as [[key p]|] eqn:Hf.
  - pose proof Hf as (Hp & _)%find_sound_Some.
    destruct (Inv_session s key p I Hp) as (Hk & d & dc & Hd & Hu & _ & Hdc & _).
    rewrite <- Hk in Hd. rewrite (stop_found _ _ _ _ _ _ _ Hf Hd Hu Hdc). eauto.
  - rewrite (stop_unknown _ _ Hf). eauto.
Qed.

Lemma pause_defined_Inv s soundId :
  Inv s -> exists r s' evs, pause soundId s = Ret r s' evs.
Proof.
  intros I. destruct (find_sound soundId (playingSounds s)) as [[key p]|] eqn:Hf.
  - pose proof Hf as (Hp & _)%find_sound_Some.
    destruct (Inv_session s key p I Hp) as (Hk & d & dc & Hd & _).
    rewrite <- Hk in Hd. rewrite (pause_found _ _ _ _ _ Hf Hd).
    destruct (paused p); eauto.
  - rewrite (pause_unknown _ _ Hf). eauto.
Qed.

Lemma resume_defined_Inv pf s soundId :
  Inv s -> exists r s' evs, resume pf soundId s = Ret r s' evs.
Proof.
  intros I. destruct (find_sound soundId (playingSounds s)) as [[key p]|] eqn:Hf.
  - pose proof Hf as (Hp & _)%find_sound_Some.
    destruct (Inv_session s key p I Hp) as (Hk & d & dc & Hd & _).
    rewrite <- Hk in Hd. rewrite (resume_found _ _ _ _ _ _ Hf Hd).
    destruct (paused p); eauto.
  - rewrite (resume_unknown _ _ _ Hf). eauto.
Qed.

Lemma onFinished_defined_Inv s device :
  Inv s -> exists s' evs, onFinished device s = Ret tt s' evs.
Proof.
  intros I. destruct (playingSounds s !! device) as [p|] eqn:Hp.
  - destruct (Inv_session s device p I Hp) as (Hk & d & dc & Hd & _ & _ & Hdc & _).
    rewrite <- Hk in Hd. rewrite (onFinished_registered _ _ _ _ _ Hp Hd Hdc). eauto.
  - rewrite (onFinished_unregistered _ _ Hp). eauto.
Qed.

(** X5. The control calls always return.  In every state the engine
    reaches by calls that each run to completion, [stop], [pause] and
    [resume] (for any id), [stopAll] and [onFinished] (for any stream
    handle) dereference only pointers to objects that exist: each of them
    has a defined result. *)
Theorem control_calls_return (cfg : Settings) (pf : Platform) (s : System) soundId :
  reachable cfg s ->
  (exists r s' evs, stop soundId s = Ret r s' evs) /\
  (exists r s' evs, pause soundId s = Ret r s' evs) /\
  (exists r s' evs, resume pf soundId s = Ret r s' evs) /\
  (exists s' evs, stopAll s = Ret tt s' evs) /\
  (forall device, exists s' evs, onFinished device s = Ret tt s' evs).
Proof.
  intros I%Inv_reachable. split_and!.
  - by apply stop_defined_Inv.
  - by apply pause_defined_Inv.
  - by apply resume_defined_Inv.
  - destruct (stopAll_ok s (Inv_wf s I)) as (s' & evs & H & _). eauto.
  - intros device. by apply onFinished_defined_Inv.
Qed.

(** While ["a.wav"] plays as session 1 on stream 2, each of the calls
    returns for that session. *)
Lemma control_calls_return_witness :
  (exists r s' evs, stop 1 Ex.playing = Ret r s' evs) /\
  (exists r s' evs, pause 1 Ex.playing = Ret r s' evs) /\
  (exists r s' evs, resume Ex.platform 1 Ex.playing = Ret r s' evs) /\
  (exists s' evs, stopAll Ex.playing = Ret tt s' evs) /\
  (forall device, exists s' evs, onFinished device Ex.playing = Ret tt s' evs).
Proof.
  apply (control_calls_return Ex.overlapping Ex.platform Ex.playing 1).
  apply playing_reachable.
Defined.

(** ** [play] in full *)

Lemma emits_for_each (P : Event -> Prop) {A} (l : list A) (body : A -> M unit) :
  (forall x, emits P (body x)) -> emits P (for_each l body).
Proof.
  intros Hb. induction l as [|x l IH]; [apply emits_ret|].
  change (for_each (x :: l) body) with (body x ;;; for_each l body).
  apply emits_bind; [apply Hb|]. intros _. apply IH.
Qed.

Lemma emits_stopAll : emits (fun e => is_ma e = true) stopAll.
Proof.
  unfold stopAll. apply emits_bind; [apply emits_get|]. intros s.
  apply emits_bind; [|intros _; apply emits_modify].
  apply emits_for_each. intros x.
  apply emits_bind; [apply emits_the_stream|]. intros d. cbv zeta.
  apply emits_bind; [|intros _].
  - unfold ma_device_uninit. apply emits_bind; [by apply emits_emit|]. intros _.
    apply emits_bind; [apply emits_the_stream|]. intros d0.
    destruct (dev_state d0); first [apply emits_ret | apply emits_modify].
  - unfold ma_decoder_uninit. apply emits_bind; [by apply emits_emit|]. intros _.
    destruct (pUserData d); [|apply emits_ret].
    apply emits_bind; [apply emits_the_decoder|]. intros d0. apply emits_modify.
Qed.

Lemma stopAll_registry s s1 e1 :
  stopAll s = Ret tt s1 e1 -> playingSounds s1 = ∅.
Proof.
  intros H. unfold stopAll in H.
  apply bind_inv in H as (s0 & s2 & e0 & e2 & Hg & H & _).
  apply bind_inv in H as ([] & s3 & e3 & e4 & _ & H & _).
  by injection H as <- _.
Qed.

Lemma play_split cfg pf sound playbackDevice s r s' evs :
  play cfg pf sound playbackDevice s = Ret r s' evs ->
  exists s1 e1 e2,
    (if allowOverlapping cfg then s1 = s /\ e1 = [] else stopAll s = Ret tt s1 e1) /\
    play (mkSettings true (deviceSettings cfg)) pf sound playbackDevice s1
    = Ret r s' e2 /\
    evs = e1 ++ e2.
Proof.
  intros H. destruct (allowOverlapping cfg) eqn:Hov.
  - exists s, [], evs. split; [done|]. split; [|done].
    rewrite <- H. unfold play. cbn [allowOverlapping]. by rewrite Hov.
  - destruct (stopAll s) as [[] s1 e1|] eqn:Hs.
    + rewrite (play_exclusive _ _ _ _ _ _ _ Hov Hs) in H.
      destruct (play _ pf sound playbackDevice s1) as [r2 s2 e2|] eqn:H2; [|done].
      injection H as <- <- <-. by exists s1, e1, e2.
    + unfold play in H. rewrite Hov in H. cbn [negb when] in H.
      by rewrite bind_Undefined in H.
Qed.

Lemma play_returns_session_overlapping cfg pf sound playbackDevice s p s' evs :
  allowOverlapping cfg = true ->
  play cfg pf sound playbackDevice s = Ret (Some p) s' evs ->
  exists len rate ms dev,
    decode_file pf (path sound) = Some (len, rate) /\
    Num.scale len rate 1000 = Some ms /\
    chosen_device playbackDevice s = Some dev /\
    p = new_session sound dev s len rate ms /\
    s' = mkSystem (devices s) (defaultOutputDevice s)
           (insert_new (next_ptr s + 1) p (playingSounds s))
           (Num.u32 (playingSoundIdCounter s + 1)) (next_ptr s + 1 + 1)
           (<[next_ptr s := mkDecoder rate len 0 true]> (decoders s))
           (<[next_ptr s + 1 :=
                mkDevice (Some (next_ptr s)) (default_name pf) Num.one_f
                  StreamStarted]> (streams s))
           (gQueue s) /\
    evs = [Ma (DecoderInitFile (path sound) (next_ptr s));
           Ma (DeviceInit (next_ptr s + 1)); Ma (DeviceStart (next_ptr s + 1));
           GuiSoundPlayed p].
Proof.
  intros Hov H.
  destruct (decode_file pf (path sound)) as [[len rate]|] eqn:Hd;
    [|by rewrite (play_bad_path_overlapping _ _ _ _ _ Hov Hd) in H].
  destruct (device_init_ok pf) eqn:Hi;
    [|by rewrite (play_init_failure_overlapping _ _ _ _ _ _ _ Hov Hd Hi) in H].
  destruct (device_start_ok pf) eqn:Hst;
    [|by rewrite (play_start_failure_overlapping _ _ _ _ _ _ _ Hov Hd Hi Hst) in H].
  rewrite (play_started_overlapping _ _ _ _ _ _ _ Hov Hd Hi Hst) in H.
  destruct (Num.scale len rate 1000) as [ms|] eqn:Hms; [|done].
  destruct (chosen_device playbackDevice s) as [dev|] eqn:Hch; [|done].
  cbv zeta in H. injection H as <- <- <-. exists len, rate, ms, dev.
  by split_and!.
Qed.

Lemma play_returns_nothing_overlapping cfg pf sound playbackDevice s s' evs :
  allowOverlapping cfg = true ->
  play cfg pf sound playbackDevice s = Ret None s' evs ->
  devices s' = devices s /\ defaultOutputDevice s' = defaultOutputDevice s /\
  playingSounds s' = playingSounds s /\
  playingSoundIdCounter s' = playingSoundIdCounter s /\ gQueue s' = gQueue s /\
  Forall (fun e => is_gui e = false) evs /\
  (forall k d, streams s' !! k = Some d ->
               streams s !! k = Some d \/ stream_released d).
Proof.
  intros Hov H.
  destruct (decode_file pf (path sound)) as [[len rate]|] eqn:Hd.
  2: { rewrite (play_bad_path_overlapping _ _ _ _ _ Hov Hd) in H.
       injection H as <- <-. split_and!; try done; [|by left].
       by repeat constructor. }
  destruct (device_init_ok pf) eqn:Hi.
  2: { rewrite (play_init_failure_overlapping _ _ _ _ _ _ _ Hov Hd Hi) in H.
       injection H as <- <-. split_and!; try done; [|by left].
       by repeat constructor. }
  destruct (device_start_ok pf) eqn:Hst.
  2: { rewrite (play_start_failure_overlapping _ _ _ _ _ _ _ Hov Hd Hi Hst) in H.
       injection H as <- <-. split_and!; try done; [by repeat constructor|].
       cbn. intros k d [[_ <-]|[_ Hk]]%lookup_insert_Some; [by right|by left]. }
  rewrite (play_started_overlapping _ _ _ _ _ _ _ Hov Hd Hi Hst) in H.
  destruct (Num.scale len rate 1000) as [ms|]; [|done].
  by destruct (chosen_device playbackDevice s) as [dev|].
Qed.

Lemma play_prelude cfg pf sound playbackDevice s r s' evs :
  Inv s ->
  play cfg pf sound playbackDevice s = Ret r s' evs ->
  exists s1 e1 e2,
    play (mkSettings true (deviceSettings cfg)) pf sound playbackDevice s1
    = Ret r s' e2 /\
    evs = e1 ++ e2 /\ Forall (fun e => is_ma e = true) e1 /\
    Inv s1 /\ evolves s s1 /\
    playingSounds s1 = (if allowOverlapping cfg then playingSounds s else ∅).
Proof.
  intros I H. destruct (play_split _ _ _ _ _ _ _ _ H) as (s1 & e1 & e2 & Hpre & H2 & ->).
  exists s1, e1, e2. split; [done|]. split; [done|].
  destruct (allowOverlapping cfg).
  - destruct Hpre as [-> ->]. split_and!; try done. apply evolves_refl.
  - destruct (Inv_stopAll _ _ _ _ I Hpre) as [I1 Hreg]. split_and!; try done.
    + by apply (emits_stopAll _ _ _ _ Hpre).
    + by apply (evolves_stopAll _ _ _ _ Hpre).
Qed.

Lemma chosen_device_evolves playbackDevice s s1 :
  evolves s s1 -> chosen_device playbackDevice s1 = chosen_device playbackDevice s.
Proof. intros (Hd & Hf & _). unfold chosen_device. by rewrite Hd, Hf. Qed.

(** X6. What a successful [play] leaves.  In a state the engine reaches by
    calls that each run to completion, with the id counter below its last
    value, a [play] that returns a session has created it for the sound
    and the device asked for (the default device without one), with the
    next id, unpaused, at position zero, with the file's length and sample
    rate and the length in milliseconds computed from them; its stream and
    decoder objects are new; the session is registered under its stream
    handle on top of the sessions that were there (of none, when
    overlapping is disabled), it is the one found by its id, and
    [onSoundPlayed] is called with it, once, after all miniaudio calls. *)
Theorem play_registers_new_session
    (cfg : Settings) (pf : Platform) (sound : Sound)
    (playbackDevice : option AudioDevice) (s : System) p s' evs :
  reachable cfg s -> playingSoundIdCounter s + 1 < 2 ^ 32 ->
  play cfg pf sound playbackDevice s = Ret (Some p) s' evs ->
  ps_sound p = sound /\ chosen_device playbackDevice s = Some (ps_device p) /\
  ps_id p = playingSoundIdCounter s + 1 /\ playingSoundIdCounter s' = ps_id p /\
  paused p = false /\ ps_repeat p = false /\ shouldSeek p = false /\
  readFrames p = 0 /\ readInMs p = 0 /\
  decode_file pf (path sound) = Some (ps_length p, sampleRate p) /\
  Num.scale (ps_length p) (sampleRate p) 1000 = Some (lengthInMs p) /\
  streams s !! rawDevice p = None /\ decoders s !! rawDecoder p = None /\
  playingSounds s'
  = <[rawDevice p := p]> (if allowOverlapping cfg then playingSounds s else ∅) /\
  find_sound (ps_id p) (playingSounds s') = Some (rawDevice p, p) /\
  exists evs0, evs = evs0 ++ [GuiSoundPlayed p] /\
               Forall (fun e => is_ma e = true) evs0.
Proof.
  intros I%Inv_reachable Hc H.
  pose proof (Inv_play _ _ _ _ _ _ _ _ I Hc H) as I'.
  destruct (play_prelude _ _ _ _ _ _ _ _ I H)
    as (s1 & e1 & e2 & H2 & -> & He1 & I1 & Hev & Hreg).
  destruct (play_returns_session_overlapping (mkSettings true (deviceSettings cfg))
              _ _ _ _ _ _ _ eq_refl H2)
    as (len & rate & ms & dev & Hd & Hms & Hch & -> & -> & ->).
  pose proof Hev as (_ & _ & Hcnt & Hnp & _ & Hsd & _ & Hdd & _).
  assert (Hfresh : forall k, next_ptr s <= k ->
                             streams s !! k = None /\ decoders s !! k = None).
  { intros k Hk. split.
    - destruct (streams s !! k) eqn:E; [|done].
      assert (0 < k < next_ptr s) by (apply (inv_alloc s I); eauto). lia.
    - destruct (decoders s !! k) eqn:E; [|done].
      assert (0 < k < next_ptr s) by (apply (inv_alloc s I); eauto). lia. }
  assert (Hins : insert_new (next_ptr s1 + 1)
                   (new_session sound dev s1 len rate ms) (playingSounds s1)
                 = <[next_ptr s1 + 1 := new_session sound dev s1 len rate ms]>
                     (playingSounds s1)).
  { unfold insert_new. by rewrite (Inv_unregistered s1 (next_ptr s1 + 1) I1) by lia. }
  match type of I' with
  | Inv ?st =>
      assert (Hfind : find_sound (Num.u32 (playingSoundIdCounter s1 + 1))
                        (playingSounds st)
                      = Some (next_ptr s1 + 1, new_session sound dev s1 len rate ms))
  end.
  { apply (find_sound_Inv _ _ _ _ I'). cbn [playingSounds].
    by rewrite Hins, lookup_insert_eq. }
  cbn [ps_sound ps_device ps_id paused ps_repeat shouldSeek readFrames readInMs
       ps_length sampleRate lengthInMs rawDevice rawDecoder new_session
       playingSounds playingSoundIdCounter] in Hfind |- *.
  rewrite Hins, Hnp, Hcnt, Hreg in Hfind |- *.
  rewrite (u32_small (playingSoundIdCounter s + 1)) in Hfind |- *
    by (pose proof (inv_counter s I); lia).
  split_and!; try done.
  - by rewrite <- (chosen_device_evolves _ s s1).
  - apply Hfresh. lia.
  - apply Hfresh. lia.
  - eexists (e1 ++ [_; _; _]). rewrite <- app_assoc. split; [done|].
    apply Forall_app. split; [done|]. by repeat constructor.
Qed.

Lemma play_registers_new_session_witness :
  find_sound 1 (playingSounds Ex.playing) = Some (2, Ex.session) /\
  playingSounds Ex.playing = <[2 := Ex.session]> (playingSounds Ex.fresh).
Proof.
  destruct (play_registers_new_session Ex.overlapping Ex.platform Ex.a_wav None
              Ex.fresh Ex.session Ex.playing _
              (reachable_new _ Ex.platform) eq_refl fresh_play_a_wav)
    as (_ & _ & _ & _ & _ & _ & _ & _ & _ & _ & _ & _ & _ & Hreg & Hf & _).
  split; [exact Hf|exact Hreg].
Defined.

(** X7. What a failed [play] leaves.  A [play] that returns nothing, for
    whatever reason, uses no id, calls no method of the notification
    sink, registers nothing (the registry is what it was or, when
    overlapping is disabled, empty) and leaves the device table and the
    default-device pointer alone; a stream object it has allocated is
    released again. *)
Theorem failed_play_registers_nothing
    (cfg : Settings) (pf : Platform) (sound : Sound)
    (playbackDevice : option AudioDevice) (s : System) s' evs :
  play cfg pf sound playbackDevice s = Ret None s' evs ->
  playingSoundIdCounter s' = playingSoundIdCounter s /\
  playingSounds s' = (if allowOverlapping cfg then playingSounds s else ∅) /\
  devices s' = devices s /\ defaultOutputDevice s' = defaultOutputDevice s /\
  Forall (fun e => is_gui e = false) evs /\
  (forall k d, streams s' !! k = Some d -> streams s !! k = None ->
               stream_released d).
Proof.
  intros H. destruct (play_split _ _ _ _ _ _ _ _ H) as (s1 & e1 & e2 & Hpre & H2 & ->).
  destruct (play_returns_nothing_overlapping (mkSettings true (deviceSettings cfg))
              _ _ _ _ _ _ eq_refl H2)
    as (Hd & Hf & Hr & Hc & _ & Hg & Hs).
  assert (Hpre' : evolves s s1 /\ Forall (fun e => is_ma e = true) e1 /\
                  playingSounds s1
                  = (if allowOverlapping cfg then playingSounds s else ∅)).
  { destruct (allowOverlapping cfg).
    - destruct Hpre as [-> ->]. split; [apply evolves_refl|done].
    - split; [by apply (evolves_stopAll _ _ _ _ Hpre)|].
      split; [by apply (emits_stopAll _ _ _ _ Hpre)|by eapply stopAll_registry]. }
  destruct Hpre' as ((Hd1 & Hf1 & Hc1 & _ & _ & Hsd & _) & He1 & Hr1).
  split_and!; try congruence.
  - apply Forall_app. split; [|done].
    eapply Forall_impl; [exact He1|]. intros [] ?; done.
  - intros k d Hk Hnone. destruct (Hs k d Hk) as [Hk1|?]; [|done].
    assert (is_Some (streams s !! k)) as [? ?] by (apply Hsd; eauto). congruence.
Qed.

Lemma failed_play_registers_nothing_witness :
  exists s' evs,
    play Ex.exclusive Ex.no_start Ex.a_wav None Ex.playing = Ret None s' evs /\
    playingSounds s' = ∅ /\ playingSoundIdCounter s' = 1 /\
    Forall (fun e => is_gui e = false) evs.
Proof.
  destruct (play Ex.exclusive Ex.no_start Ex.a_wav None Ex.playing)
    as [[p|] s' evs|] eqn:E; try (vm_compute in E; discriminate E).
  exists s', evs.
  destruct (failed_play_registers_nothing _ _ _ _ _ _ _ E)
    as (Hc & Hr & _ & _ & Hg & _).
  split; [reflexivity|]. split; [exact Hr|]. split; [exact Hc|exact Hg].
Defined.

(** ** [stop] after [play] *)

Lemma stop_registered_Inv s k p :
  Inv s -> playingSounds s !! k = Some p ->
  exists d dc,
    streams s !! k = Some d /\ decoders s !! rawDecoder p = Some dc /\
    stop (ps_id p) s
    = Ret true
        (mkSystem (devices s) (defaultOutputDevice s)
           (delete k (playingSounds s)) (playingSoundIdCounter s) (next_ptr s)
           (<[rawDecoder p := released_decoder dc]> (decoders s))
           (<[k := released_stream d]> (streams s)) (gQueue s))
        [Ma (DeviceUninit k); Ma (DecoderUninit (Some (rawDecoder p)))].
Proof.
  intros I Hp.
  destruct (Inv_session s k p I Hp) as (Hk & d & dc & Hd & Hu & _ & Hdc & _).
  exists d, dc. split; [done|]. split; [done|].
  assert (Hf : find_sound (ps_id p) (playingSounds s) = Some (k, p))
    by by apply find_sound_Inv.
  rewrite <- Hk in Hd. rewrite (stop_found _ _ _ _ _ _ _ Hf Hd Hu Hdc).
  by rewrite Hk.
Qed.

(** X8. [stop] undoes [play].  In a state the engine reaches by calls that
    each run to completion (id counter below its last value), the session
    a successful [play] returns can be stopped by its id: [stop] returns
    true after releasing exactly the stream and the decoder of that
    session, the registry is then what it was before [play] (empty, when
    overlapping is disabled), both objects are left uninitialised and the
    stream holds no decoder pointer; a second [stop] of the same id
    returns false, reports the failure and changes nothing. *)
Theorem stop_undoes_play
    (cfg : Settings) (pf : Platform) (sound : Sound)
    (playbackDevice : option AudioDevice) (s : System) p s1 e1 :
  reachable cfg s -> playingSoundIdCounter s + 1 < 2 ^ 32 ->
  play cfg pf sound playbackDevice s = Ret (Some p) s1 e1 ->
  exists s2,
    stop (ps_id p) s1
    = Ret true s2 [Ma (DeviceUninit (rawDevice p));
                   Ma (DecoderUninit (Some (rawDecoder p)))] /\
    playingSounds s2 = (if allowOverlapping cfg then playingSounds s else ∅) /\
    (exists d, streams s2 !! rawDevice p = Some d /\
               dev_state d = StreamUninit /\ pUserData d = None) /\
    (exists dc, decoders s2 !! rawDecoder p = Some dc /\ dec_inited dc = false) /\
    stop (ps_id p) s2 = Ret false s2 [Log (FailedStop (ps_id p))].
Proof.
  intros R Hc H. pose proof (Inv_reachable _ _ R) as I.
  pose proof (Inv_play _ _ _ _ _ _ _ _ I Hc H) as I1.
  destruct (play_prelude _ _ _ _ _ _ _ _ I H)
    as (s0 & e0 & e2 & H2 & _ & _ & I0 & Hev & Hreg0).
  destruct (play_returns_session_overlapping (mkSettings true (deviceSettings cfg))
              _ _ _ _ _ _ _ eq_refl H2)
    as (len & rate & ms & dev & _ & _ & _ & Hp & Hs1 & _).
  assert (Hk : rawDevice p = next_ptr s0 + 1) by by rewrite Hp.
  assert (Hnone : playingSounds s0 !! rawDevice p = None).
  { rewrite Hk. apply (Inv_unregistered s0 _ I0). lia. }
  assert (Hreg : playingSounds s1 = <[rawDevice p := p]> (playingSounds s0)).
  { rewrite Hs1. cbn [playingSounds]. unfold insert_new.
    rewrite <- Hk. by rewrite Hnone. }
  assert (Hin : playingSounds s1 !! rawDevice p = Some p)
    by (rewrite Hreg; apply lookup_insert_eq).
  destruct (stop_registered_Inv s1 (rawDevice p) p I1 Hin) as (d & dc & Hd & Hdc & Hstop).
  eexists. split; [exact Hstop|]. cbn [playingSounds streams decoders].
  split_and!.
  - by rewrite Hreg, delete_insert_id, Hreg0.
  - rewrite lookup_insert_eq. eexists. split; [done|].
    split; [apply released_stream_uninit|].
    unfold released_stream. destruct (dev_state d) eqn:E; try done.
    by apply (inv_closed s1 I1 (rawDevice p) d).
  - rewrite lookup_insert_eq. by eexists.
  - apply stop_unknown. cbn [playingSounds]. apply find_sound_None.
    intros k v [Hne Hv]%lookup_delete_Some Hid. apply Hne.
    by apply (inv_unique s1 I1 (rawDevice p) k p v).
Qed.

Lemma stop_undoes_play_witness :
  exists s2,
    stop 1 Ex.playing = Ret true s2 [Ma (DeviceUninit 2); Ma (DecoderUninit (Some 1))] /\
    playingSounds s2 = playingSounds Ex.fresh /\
    stop 1 s2 = Ret false s2 [Log (FailedStop 1)].
Proof.
  destruct (stop_undoes_play Ex.overlapping Ex.platform Ex.a_wav None
              Ex.fresh Ex.session Ex.playing _
              (reachable_new _ Ex.platform) eq_refl fresh_play_a_wav)
    as (s2 & Hstop & Hreg & _ & _ & Hagain).
  exists s2. split; [exact Hstop|]. split; [exact Hreg|exact Hagain].
Defined.

(** ** [stopAll] *)

Lemma released_decoder_stays s s' k dc :
  evolves s s' -> decoders s !! k = Some dc -> dec_inited dc = false ->
  exists dc', decoders s' !! k = Some dc' /\ dec_inited dc' = false.
Proof.
  intros (_&_&_&_&_&_&_&Hdd&Hdc) Hk Hi.
  assert (is_Some (decoders s' !! k)) as [dc' Hk'] by (apply Hdd; eauto).
  exists dc'. split; [done|]. destruct (Hdc _ _ _ Hk Hk') as (_ & _ & Hmono).
  destruct (dec_inited dc'); [|done]. rewrite Hmono in Hi; done.
Qed.

Lemma teardown_all_releases (l : list (Z * PlayingSound)) :
  forall s s' evs,
    NoDup (map (fun x => rawDevice (snd x)) l) ->
    (forall x, x ∈ l ->
       exists d, streams s !! rawDevice (snd x) = Some d /\
                 pUserData d = Some (rawDecoder (snd x))) ->
    for_each l (fun sound =>
      d <~ the_stream (rawDevice (snd sound)) ;;
      let decoder := pUserData d in
      ma_device_uninit (rawDevice (snd sound)) ;;;
      ma_decoder_uninit decoder) s = Ret tt s' evs ->
    forall x, x ∈ l ->
      exists dc, decoders s' !! rawDecoder (snd x) = Some dc /\ dec_inited dc = false.
Proof.
  induction l as [|x l IH]; intros s s' evs Hnd Hl H y Hy;
    [by apply elem_of_nil in Hy|].
  change (for_each (x :: l) ?b) with (b x ;;; for_each l b) in H.
  apply bind_inv in H as ([] & s1 & e1 & e2 & Hx & Hrest & _).
  apply NoDup_cons in Hnd as [Hnotin Hnd].
  destruct (Hl x) as (d & Hd & Hu); [by left|].
  cbn in Hx. rewrite Hd in Hx. cbn in Hx. rewrite Hu in Hx.
  rewrite (ma_device_uninit_known _ _ _ Hd) in Hx. cbn in Hx.
  destruct (decoders s !! rawDecoder x.2) as [dc|] eqn:Hdc.
  2: { unfold ma_decoder_uninit in Hx. cbn in Hx. by rewrite Hdc in Hx. }
  erewrite ma_decoder_uninit_known in Hx by (cbn; exact Hdc).
  cbn in Hx. injection Hx as <- _.
  apply elem_of_cons in Hy as [->|Hy].
  - eapply released_decoder_stays.
    + eapply (respects_for_each evolves evolves_refl evolves_trans); [|exact Hrest].
      intros z. evolves_auto.
    + cbn. apply lookup_insert_eq.
    + done.
  - eapply (IH _ _ _ Hnd); [|exact Hrest|exact Hy].
    intros z Hz. destruct (Hl z) as (dz & Hdz & Huz); [by right|].
    exists dz. split; [|done]. cbn. rewrite lookup_insert_ne; [done|].
    intros Heq. apply Hnotin. rewrite Heq.
    apply (list_elem_of_fmap_2 (fun x => rawDevice x.2)). done.
Qed.

Lemma NoDup_entries_handles s :
  Inv s -> NoDup (map (fun x : Z * PlayingSound => rawDevice (snd x))
                      (entries (playingSounds s))).
Proof.
  intros I.
  assert (Heq : map (fun x : Z * PlayingSound => rawDevice (snd x))
                    (entries (playingSounds s))
                = (entries (playingSounds s)).*1).
  { apply map_ext_in. intros [k p] Hin%list_elem_of_In%elem_of_entries.
    cbn. by apply (inv_key s I). }
  rewrite Heq. unfold entries. rewrite merge_sort_Permutation.
  apply NoDup_fst_map_to_list.
Qed.

(** X9. [stopAll] closes everything.  In every state the engine reaches by
    calls that each run to completion, [stopAll] (and with it the
    destructor) returns, having made only miniaudio calls; afterwards the
    registry and the list [getPlayingSounds] returns are empty, no stream
    object at all is left initialised or pointing to a decoder, the
    decoder of every session that was registered is uninitialised, and a
    second [stopAll] does nothing. *)
Theorem stopAll_closes_everything (cfg : Settings) (s : System) :
  reachable cfg s ->
  exists s' evs,
    stopAll s = Ret tt s' evs /\
    Forall (fun e => is_ma e = true) evs /\
    playingSounds s' = ∅ /\ getPlayingSounds s' = [] /\
    (forall k d, streams s' !! k = Some d ->
                 dev_state d = StreamUninit /\ pUserData d = None) /\
    (forall k p, playingSounds s !! k = Some p ->
       exists dc, decoders s' !! rawDecoder p = Some dc /\ dec_inited dc = false) /\
    stopAll s' = Ret tt s' [].
Proof.
  intros I%Inv_reachable.
  destruct (stopAll_ok s (Inv_wf s I)) as (s' & evs & H & Hreg & _).
  destruct (Inv_stopAll _ _ _ _ I H) as [I' _].
  exists s', evs. split; [done|]. split; [by apply (emits_stopAll _ _ _ _ H)|].
  split; [done|]. split_and!.
  - unfold getPlayingSounds. by rewrite Hreg.
  - intros k d Hd.
    assert (Hu : dev_state d = StreamUninit).
    { destruct (dev_state d) eqn:E; [done| |].
      all: destruct (inv_open s' I' k d Hd) as [p Hp]; [by rewrite E|].
      all: by rewrite Hreg, lookup_empty in Hp. }
    split; [done|]. by apply (inv_closed s' I' k d).
  - intros k p Hp. unfold stopAll in H.
    apply bind_inv in H as (s0 & s1 & e0 & e1 & Hg & H & _).
    injection Hg as <- <- _.
    apply bind_inv in H as ([] & s2 & e2 & e3 & Hloop & Hclear & _).
    injection Hclear as <- _. cbn [decoders set_playingSounds].
    assert (Hbound : forall x, x ∈ entries (playingSounds s) ->
              exists d, streams s !! rawDevice (snd x) = Some d /\
                        pUserData d = Some (rawDecoder (snd x))).
    { intros [k0 p0] Hx%elem_of_entries. cbn.
      destruct (Inv_session s k0 p0 I Hx) as (Hk & d & dc & Hd & Hu & _).
      exists d. by rewrite Hk. }
    eapply (teardown_all_releases _ _ _ _ (NoDup_entries_handles s I) Hbound
              Hloop (k, p)).
    by apply elem_of_entries.
  - unfold stopAll. rewrite (bind_Ret get _ s' s' s' [] eq_refl).
    rewrite Hreg. change (entries ∅) with (@nil (Z * PlayingSound)).
    cbn. rewrite <- Hreg. by destruct s'.
Qed.

Lemma stopAll_closes_everything_witness :
  exists s' evs,
    stopAll Ex.playing = Ret tt s' evs /\ getPlayingSounds s' = [] /\
    stopAll s' = Ret tt s' [].
Proof.
  destruct (stopAll_closes_everything Ex.overlapping Ex.playing playing_reachable)
    as (s' & evs & H & _ & _ & Hl & _ & _ & Hagain).
  by exists s', evs.
Defined.

(** ** The device table *)

(** X10. The device table the constructor builds.  It holds exactly the
    enumerated device names.  Every device starts at volume [1.f]; a
    stored setting replaces the volume of the enumerated device of its
    name, the last setting of a name winning, and a setting for a name
    that was not enumerated is ignored: [getVolume] answers [1.f] for
    every name without a setting and for every name that was not
    enumerated. *)
Theorem constructor_device_table (cfg : Settings) (pf : Platform) :
  (forall k, is_Some (devices (Audio_Audio cfg pf) !! k) <->
             exists d, d ∈ getAudioDevices pf /\ name d = k) /\
  (forall k, (forall dv, dv ∈ deviceSettings cfg -> name dv <> k) ->
             getVolume (Audio_Audio cfg pf) k = Num.one_f) /\
  (forall k, (forall d, d ∈ getAudioDevices pf -> name d <> k) ->
             getVolume (Audio_Audio cfg pf) k = Num.one_f) /\
  (forall l1 dv l2 d,
      deviceSettings cfg = l1 ++ dv :: l2 ->
      (forall dv', dv' ∈ l2 -> name dv' <> name dv) ->
      d ∈ getAudioDevices pf -> name d = name dv ->
      getVolume (Audio_Audio cfg pf) (name dv) = volume dv).
Proof.
  destruct (Audio_Audio_table cfg pf) as (Hdom & _ & _ & Hone).
  split_and!; [done|done| |].
  - intros k Hk. unfold getVolume.
    destruct (devices (Audio_Audio cfg pf) !! k) as [d|] eqn:E; [|done].
    destruct (proj1 (Hdom k)) as (d0 & Hd0 & Hn); [eauto|]. by destruct (Hk d0).
  - intros l1 dv l2 d Hl Hl2 Hd Hn.
    destruct (Audio_Audio_fields cfg pf) as (Hdev & _).
    set (r := fold_left _ (getAudioDevices pf) (∅, None)) in *.
    assert (is_Some (r.1 !! name dv)) as [d0 Hd0].
    { pose proof (restore_fold_shape (deviceSettings cfg) r.1 (name dv)) as Hs.
      rewrite <- Hdev in Hs.
      destruct (proj2 (Hdom (name dv))) as [d1 Hd1]; [eauto|].
      rewrite Hd1 in Hs. destruct (r.1 !! name dv); [eauto|done]. }
    destruct (restore_fold_last l1 l2 dv r.1 d0 Hd0 Hl2) as (d' & Hd' & Hv).
    unfold getVolume. by rewrite Hdev, Hl, Hd'.
Qed.

Lemma constructor_device_table_witness :
  getVolume (Audio_Audio Ex.quiet_speakers Ex.platform) "Speakers" = Ex.half_f /\
  getVolume (Audio_Audio Ex.quiet_speakers Ex.platform) "HDMI" = Num.one_f /\
  getVolume (Audio_Audio Ex.quiet_speakers Ex.platform) "Headset" = Num.one_f.
Proof.
  destruct (constructor_device_table Ex.quiet_speakers Ex.platform)
    as (_ & Hnone & Hunknown & Hlast).
  split_and!.
  - apply (Hlast [mkAudioDevice "Speakers" false (S754_zero false)]
                 (mkAudioDevice "Speakers" false Ex.half_f)
                 [mkAudioDevice "Headset" false Ex.half_f]
                 (mkAudioDevice "Speakers" true Num.one_f)).
    + reflexivity.
    + intros dv' ->%list_elem_of_singleton. discriminate.
    + vm_compute. right. left.
    + reflexivity.
  - apply Hnone. intros dv' Hin.
    repeat (apply elem_of_cons in Hin as [->|Hin]; [discriminate|]).
    by apply elem_of_nil in Hin.
  - apply Hunknown. intros d Hin. vm_compute in Hin.
    repeat (apply elem_of_cons in Hin as [->|Hin]; [discriminate|]).
    by apply elem_of_nil in Hin.
Defined.

Lemma call_keeps_devices cfg s s' :
  Inv s -> call cfg s s' ->
  devices s' = devices s /\ defaultOutputDevice s' = defaultOutputDevice s.
Proof.
  intros I Hcall. revert I.
  assert (He : forall s s', evolves s s' ->
            devices s' = devices s /\ defaultOutputDevice s' = defaultOutputDevice s)
    by (by intros ? ? (? & ? & _)).
  destruct Hcall as [pf sound pd s0 r s1 evs Hc H | s0 s1 evs H | id s0 r s1 evs H
           | id s0 r s1 evs H | pf id s0 r s1 evs H | id pos s0 r s1 evs H
           | dev n s0 s1 evs H | s0 s1 evs H | dev k t q s0 s1 evs Hq H]; intros I.
  - destruct (play_prelude _ _ _ _ _ _ _ _ I H)
      as (sm & e1 & e2 & H2 & _ & _ & _ & (Hd & Hf & _) & _).
    destruct r as [p|].
    + destruct (play_returns_session_overlapping
                  (mkSettings true (deviceSettings cfg)) _ _ _ _ _ _ _ eq_refl H2)
        as (len & rate & ms & dev & _ & _ & _ & _ & -> & _). by cbn.
    + destruct (play_returns_nothing_overlapping
                  (mkSettings true (deviceSettings cfg)) _ _ _ _ _ _ eq_refl H2)
        as (Hd2 & Hf2 & _). split; congruence.
  - apply He. by eapply evolves_stopAll.
  - apply He. by eapply evolves_stop.
  - apply He, steady_evolves. by eapply steady_pause.
  - apply He, steady_evolves. by eapply steady_resume.
  - apply He, steady_evolves. by eapply steady_seek.
  - apply He, steady_evolves. by eapply steady_data_callback.
  - apply He. by eapply evolves_queue_run_next.
  - apply He. by eapply evolves_finish.
Qed.

Lemma reachable_devices cfg s :
  reachable cfg s ->
  exists pf, devices s = devices (Audio_Audio cfg pf) /\
             defaultOutputDevice s = defaultOutputDevice (Audio_Audio cfg pf).
Proof.
  induction 1 as [pf|s s' R (pf & Hd & Hf) Hc]; [by exists pf|].
  destruct (call_keeps_devices cfg s s' (Inv_reachable _ _ R) Hc) as [Hd' Hf'].
  exists pf. split; congruence.
Qed.

(** X11. The device table is fixed at construction and the default-device
    pointer is never dangling.  In every state the engine reaches by calls
    that each run to completion, the device table and the default-device
    pointer are the ones the constructor has built: no call changes or
    re-enumerates them.  The pointer, when it is set, points to the entry
    of the device table that carries the default stream's name and is
    marked default, so the dereference in a [play] without explicit device
    is defined and yields that entry. *)
Theorem default_device_pointer_valid (cfg : Settings) (s : System) :
  reachable cfg s ->
  exists pf,
    devices s = devices (Audio_Audio cfg pf) /\
    defaultOutputDevice s = defaultOutputDevice (Audio_Audio cfg pf) /\
    forall k, defaultOutputDevice s = Some k ->
      k = default_name pf /\
      exists d, devices s !! k = Some d /\ name d = k /\ isDefault d = true /\
                deref_defaultOutputDevice s = Ret d s [] /\
                chosen_device None s = Some d.
Proof.
  intros R. destruct (reachable_devices cfg s R) as (pf & Hd & Hf).
  exists pf. split; [done|]. split; [done|]. intros k Hk.
  destruct (Audio_Audio_table cfg pf) as (_ & Hname & Hdef & _).
  rewrite Hf in Hk. destruct (Hdef k Hk) as [-> [d Hdev]].
  split; [done|]. exists d. destruct (Hname _ _ Hdev) as [Hn Hi].
  rewrite <- Hd in Hdev. rewrite <- Hf in Hk.
  split_and!; [done|done|by apply Hi| |].
  - unfold deref_defaultOutputDevice. cbn. rewrite Hk. by rewrite Hdev.
  - unfold chosen_device. by rewrite Hk.
Qed.

Lemma default_device_pointer_valid_witness :
  exists d, devices Ex.playing !! "Speakers"%string = Some d /\
            isDefault d = true /\
            deref_defaultOutputDevice Ex.playing = Ret d Ex.playing [].
Proof.
  destruct (default_device_pointer_valid Ex.overlapping Ex.playing playing_reachable)
    as (pf & _ & _ & H).
  destruct (H "Speakers"%string eq_refl) as (_ & d & Hd & _ & Hi & Hderef & _).
  by exists d.
Defined.

(** ** [pause] and [resume] once more *)

(** X12. [pause] and [resume] are idempotent.  When [pause] returns a
    session it is marked paused, and a second [pause] of the same id
    returns the same session without any miniaudio call and without
    changing the state; likewise for [resume] and the cleared flag. *)
Theorem pause_resume_idempotent (pf : Platform) (soundId : Z) (s : System) p s1 e1 :
  (pause soundId s = Ret (Some p) s1 e1 ->
   paused p = true /\ pause soundId s1 = Ret (Some p) s1 []) /\
  (resume pf soundId s = Ret (Some p) s1 e1 ->
   paused p = false /\ resume pf soundId s1 = Ret (Some p) s1 []).
Proof.
  split; intros H.
  - destruct (find_sound soundId (playingSounds s)) as [[key sound]|] eqn:Hf;
      [|by rewrite (pause_unknown _ _ Hf) in H].
    destruct (streams s !! rawDevice sound) as [d|] eqn:Hd.
    2: { unfold pause in H. cbn in H. rewrite Hf in H. cbn in H. by rewrite Hd in H. }
    rewrite (pause_found _ _ _ _ _ Hf Hd) in H.
    destruct (paused sound) eqn:Hp.
    + injection H as <- <- _. split; [done|].
      by rewrite (pause_found _ _ _ _ _ Hf Hd), Hp.
    + injection H as <- <- _. split; [done|].
      rewrite (pause_found soundId _ key (set_paused true sound) (stopped d));
        [done|cbn; by apply (find_sound_update soundId _ key sound)|cbn; apply lookup_insert_eq].
  - destruct (find_sound soundId (playingSounds s)) as [[key sound]|] eqn:Hf;
      [|by rewrite (resume_unknown _ _ _ Hf) in H].
    destruct (streams s !! rawDevice sound) as [d|] eqn:Hd.
    2: { unfold resume in H. cbn in H. rewrite Hf in H. cbn in H. by rewrite Hd in H. }
    rewrite (resume_found _ _ _ _ _ _ Hf Hd) in H.
    destruct (paused sound) eqn:Hp.
    + injection H as <- <- _. split; [done|].
      rewrite (resume_found pf soundId _ key (set_paused false sound) (started pf d));
        [done|cbn; by apply (find_sound_update soundId _ key sound)|cbn; apply lookup_insert_eq].
    + injection H as <- <- _. split; [done|].
      by rewrite (resume_found _ _ _ _ _ _ Hf Hd), Hp.
Qed.

Lemma pause_resume_idempotent_witness :
  exists p s1 e1,
    pause 1 Ex.playing = Ret (Some p) s1 e1 /\
    paused p = true /\ pause 1 s1 = Ret (Some p) s1 [].
Proof.
  destruct (pause 1 Ex.playing) as [[p|] s1 e1|] eqn:E;
    try (vm_compute in E; discriminate E).
  exists p, s1, e1. split; [reflexivity|].
  exact (proj1 (pause_resume_idempotent Ex.platform 1 Ex.playing p s1 e1) E).
Defined.

(** ** The list of playing sounds *)

Lemma NoDup_entries (m : gmap Z PlayingSound) : NoDup (entries m).
Proof. unfold entries. rewrite merge_sort_Permutation. apply NoDup_map_to_list. Qed.

Lemma NoDup_entries_keys (m : gmap Z PlayingSound) : NoDup (entries m).*1.
Proof.
  unfold entries. rewrite merge_sort_Permutation. apply NoDup_fst_map_to_list.
Qed.

Lemma elem_of_getPlayingSounds s p :
  p ∈ getPlayingSounds s <-> exists k, playingSounds s !! k = Some p.
Proof.
  unfold getPlayingSounds. change (map snd ?l) with (snd <$> l).
  rewrite list_elem_of_fmap. split.
  - intros ([k q] & -> & Hin%elem_of_entries). by exists k.
  - intros (k & Hk). exists (k, p). split; [done|]. by apply elem_of_entries.
Qed.

(** The ids in the order of [getPlayingSounds] depend on the registry's
    handles and the id stored under each of them only. *)
Lemma entries_ids_stable (m m' : gmap Z PlayingSound) :
  (forall k p', m' !! k = Some p' -> exists p, m !! k = Some p /\ ps_id p' = ps_id p) ->
  (forall k, is_Some (m !! k) -> is_Some (m' !! k)) ->
  map ps_id (map snd (entries m')) = map ps_id (map snd (entries m)).
Proof.
  intros Hback Hforth.
  set (tag := fun x : Z * PlayingSound => (x.1, ps_id x.2)).
  assert (Htag : forall m0 : gmap Z PlayingSound,
            map ps_id (map snd (entries m0)) = (tag <$> entries m0).*2).
  { intros m0. rewrite map_map. change (map ?f ?l) with (f <$> l).
    by rewrite <- list_fmap_compose. }
  rewrite !Htag. f_equal.
  assert (Hel : forall (m0 : gmap Z PlayingSound) k i,
            (k, i) ∈ tag <$> entries m0 <-> exists p, m0 !! k = Some p /\ ps_id p = i).
  { intros m0 k i. rewrite list_elem_of_fmap. split.
    - intros ([k0 p] & [= -> ->] & Hin%elem_of_entries). by exists p.
    - intros (p & Hp & <-). exists (k, p). split; [done|]. by apply elem_of_entries. }
  assert (Hnd : forall m0 : gmap Z PlayingSound, NoDup (tag <$> entries m0)).
  { intros m0. apply (NoDup_fmap_1 fst). rewrite <- list_fmap_compose.
    apply NoDup_entries_keys. }
  assert (Hsort : forall m0 : gmap Z PlayingSound,
            StronglySorted (fun a b : Z * Z => a.1 <= b.1) (tag <$> entries m0)).
  { intros m0. apply (StronglySorted_fmap tag key_le); [by intros [] []|].
    apply StronglySorted_merge_sort; apply _. }
  apply (StronglySorted_unique_strong (fun a b : Z * Z => a.1 <= b.1));
    [|apply Hsort|apply Hsort|].
  - intros [k1 i1] [k2 i2] (p1 & Hp1 & <-)%Hel (p2 & Hp2 & <-)%Hel. cbn.
    intros ? ?. assert (k1 = k2) as -> by lia.
    destruct (Hback _ _ Hp1) as (p & Hp & Hid). f_equal. congruence.
  - apply NoDup_Permutation; [apply Hnd|apply Hnd|].
    intros [k i]. rewrite !Hel. split.
    + intros (p' & Hp' & <-). destruct (Hback _ _ Hp') as (p & Hp & Hid). eauto.
    + intros (p & Hp & <-). destruct (Hforth k) as [p' Hp']; [eauto|].
      destruct (Hback _ _ Hp') as (p0 & Hp0 & Hid). exists p'. split; [done|].
      congruence.
Qed.

(** X13. [getPlayingSounds] lists each session once.  In every state the
    engine reaches by calls that each run to completion, the list holds
    exactly the registered sessions, as many as the registry has entries,
    and no id occurs in it twice; what [getPlayingSound] returns for a
    stream handle is the element of the list with that handle. *)
Theorem getPlayingSounds_lists_each_session_once (cfg : Settings) (s : System) :
  reachable cfg s ->
  (forall p, p ∈ getPlayingSounds s <-> playingSounds s !! rawDevice p = Some p) /\
  NoDup (map ps_id (getPlayingSounds s)) /\
  length (getPlayingSounds s) = size (playingSounds s) /\
  (forall device p, getPlayingSound s device = Some p ->
                    p ∈ getPlayingSounds s /\ rawDevice p = device).
Proof.
  intros I%Inv_reachable. split_and!.
  - intros p. rewrite elem_of_getPlayingSounds. split; [|eauto].
    intros [k Hk]. by rewrite (inv_key s I k p Hk).
  - unfold getPlayingSounds. rewrite map_map.
    change (map ?f ?l) with (f <$> l).
    apply NoDup_fmap_2_strong; [|apply NoDup_entries].
    intros [k p] [k' p'] Hin%elem_of_entries Hin'%elem_of_entries Hid. cbn in Hid.
    assert (k = k') as <- by by apply (inv_unique s I k k' p p').
    f_equal. congruence.
  - unfold getPlayingSounds, entries. rewrite length_map.
    rewrite merge_sort_Permutation. apply length_map_to_list.
  - intros device p Hp. unfold getPlayingSound in Hp.
    split; [apply elem_of_getPlayingSounds; eauto|by apply (inv_key s I)].
Qed.

Lemma getPlayingSounds_lists_each_session_once_witness :
  NoDup (map ps_id (getPlayingSounds Ex.playing)) /\
  length (getPlayingSounds Ex.playing) = size (playingSounds Ex.playing).
Proof.
  destruct (getPlayingSounds_lists_each_session_once Ex.overlapping Ex.playing
              playing_reachable) as (_ & Hnd & Hlen & _).
  split; [exact Hnd|exact Hlen].
Defined.

(** X14. [pause], [resume], [seek] and the callback only adjust sessions.
    None of them registers or erases a session, changes the sound, the
    device, the handles, the length, the sample rate, the id or the
    repeat flag of one, releases or rebinds a stream, initialises or
    releases a decoder, or touches the id counter or the device table:
    the ids [getPlayingSounds] lists are the same, in the same order,
    before and after. *)
Theorem adjustments_keep_sessions (pf : Platform) (s s' : System) :
  (exists soundId r evs, pause soundId s = Ret r s' evs) \/
  (exists soundId r evs, resume pf soundId s = Ret r s' evs) \/
  (exists soundId position r evs, seek soundId position s = Ret r s' evs) \/
  (exists device frameCount evs, data_callback device frameCount s = Ret tt s' evs) ->
  (forall k, is_Some (playingSounds s' !! k) <-> is_Some (playingSounds s !! k)) /\
  (forall k p p', playingSounds s !! k = Some p -> playingSounds s' !! k = Some p' ->
                  same_identity p p') /\
  map ps_id (getPlayingSounds s') = map ps_id (getPlayingSounds s) /\
  playingSoundIdCounter s' = playingSoundIdCounter s /\
  devices s' = devices s /\ defaultOutputDevice s' = defaultOutputDevice s /\
  (forall k d, streams s !! k = Some d ->
     exists d', streams s' !! k = Some d' /\ pUserData d' = pUserData d /\
                (dev_state d' = StreamUninit <-> dev_state d = StreamUninit)) /\
  (forall k c, decoders s !! k = Some c ->
     exists c', decoders s' !! k = Some c' /\ dec_inited c' = dec_inited c /\
                dec_length c' = dec_length c /\
                outputSampleRate c' = outputSampleRate c).
Proof.
  intros H.
  assert (Hst : steady s s').
  { destruct H as [(id & r & evs & H)|[(id & r & evs & H)|[(id & pos & r & evs & H)
                  |(dev & n & evs & H)]]].
    - by eapply steady_pause.
    - by eapply steady_resume.
    - by eapply steady_seek.
    - by eapply steady_data_callback. }
  destruct Hst as ((Hd & Hf & Hc & _ & Hr & Hsd & _ & Hdd & Hdc) & Hk & Hs & Hi).
  split_and!; try done.
  - intros k. split; [|apply Hk]. intros [p' Hp']. destruct (Hr _ _ Hp') as (p & ? & _).
    eauto.
  - intros k p p' Hp Hp'. destruct (Hr _ _ Hp') as (p0 & Hp0 & Hid). congruence.
  - unfold getPlayingSounds. apply entries_ids_stable; [|done].
    intros k p' Hp'. destruct (Hr _ _ Hp') as (p & Hp & Hid). exists p.
    split; [done|]. by destruct Hid as (_&_&_&_&_&_&_&?&_).
  - intros k d Hk0.
    assert (is_Some (streams s' !! k)) as [d' Hd'] by (apply Hsd; eauto).
    exists d'. split; [done|]. by apply (Hs k).
  - intros k c Hk0.
    assert (is_Some (decoders s' !! k)) as [c' Hc'] by (apply Hdd; eauto).
    exists c'. split; [done|]. split; [by apply (Hi k)|].
    destruct (Hdc _ _ _ Hk0 Hc') as (? & ? & _). done.
Qed.

Lemma adjustments_keep_sessions_witness :
  exists s',
    data_callback 2 512 Ex.playing = Ret tt s' [Ma (DecoderRead 1 512)] /\
    map ps_id (getPlayingSounds s') = map ps_id (getPlayingSounds Ex.playing).
Proof.
  destruct (data_callback 2 512 Ex.playing) as [[] s' evs|] eqn:E;
    [|vm_compute in E; discriminate E].
  exists s'.
  assert (Hevs : evs = [Ma (DecoderRead 1 512)])
    by (vm_compute in E; by injection E as _ <-).
  split; [by rewrite Hevs|].
  apply (adjustments_keep_sessions Ex.platform Ex.playing s').
  right. right. right. by exists 2, 512, evs.
Defined.

(** ** A pending seek and the callback *)

Lemma onSoundProgressed_registered device frames s sound s' evs :
  playingSounds s !! device = Some sound ->
  onSoundProgressed device frames s = Ret tt s' evs ->
  exists p',
    s' = set_playingSounds (<[device := p']> (playingSounds s)) s /\
    readFrames p' = Num.u64 (readFrames sound + frames) /\
    shouldSeek p' = shouldSeek sound /\ seekTo p' = seekTo sound /\
    paused p' = paused sound /\ same_identity sound p' /\
    List.filter is_ma evs = [].
Proof.
  intros Hs. unfold onSoundProgressed. cbn. rewrite Hs. cbn.
  destruct (_ <? _); cbn.
  - destruct (Num.scale _ _ _); cbn; [|done].
    intros [= <- <-]. eexists. split; [reflexivity|]. by cbn.
  - intros [= <- <-]. eexists. split; [reflexivity|]. by cbn.
Qed.

(** X15. The callback applies a pending seek after its read.  When a seek
    is pending for the session of a stream and the callback reads at
    least one frame, it reads from the old position first, then moves the
    decoder to the pending target and clears the request; the frames just
    read are added to the target, so the session's [readFrames] is the
    target plus the frames read while the decoder stands at the target.
    No finish task is queued and no other session changes. *)
Theorem callback_applies_pending_seek
    (device frameCount : Z) (s : System) d decoder dc p s' evs :
  streams s !! device = Some d -> pUserData d = Some decoder ->
  decoders s !! decoder = Some dc ->
  playingSounds s !! device = Some p -> shouldSeek p = true ->
  seekTo p <= dec_length dc -> 0 < read_count frameCount dc ->
  data_callback device frameCount s = Ret tt s' evs ->
  exists p' dc',
    playingSounds s' !! device = Some p' /\ decoders s' !! decoder = Some dc' /\
    shouldSeek p' = false /\ same_identity p p' /\
    dec_cursor dc' = seekTo p /\
    readFrames p' = Num.u64 (seekTo p + read_count frameCount dc) /\
    gQueue s' = gQueue s /\
    (forall k, k <> device -> playingSounds s' !! k = playingSounds s !! k) /\
    List.filter is_ma evs
    = [Ma (DecoderRead decoder frameCount); Ma (DecoderSeek decoder (seekTo p))].
Proof.
  intros Hd Hp Hdc Hs Hsk Hle Hr H.
  unfold data_callback in H. cbn in H. rewrite Hd in H. cbn in H.
  rewrite Hp in H. cbn in H.
  erewrite ma_decoder_read_known in H by (cbn; exact Hdc). cbn in H.
  unfold getPlayingSound in H. cbn in H. rewrite Hs in H. cbn in H.
  rewrite Hsk in H. cbn in H.
  erewrite ma_decoder_seek_known in H by (cbn; apply lookup_insert_eq). cbn in H.
  rewrite insert_insert_eq in H.
  unfold onSoundSeeked in H. cbn in H. rewrite Hs in H. cbn in H.
  destruct (Num.scale (seekTo p) (ps_length p) (lengthInMs p)) as [ms|]; [|done].
  cbn in H.
  assert (Hpos : (0 <? read_count frameCount dc) = true) by (apply Z.ltb_lt; lia).
  assert (Hnz : (read_count frameCount dc <=? 0) = false) by (apply Z.leb_gt; lia).
  rewrite Hpos, Hnz in H. cbn in H.
  match type of H with
  | context [onSoundProgressed ?dv ?n ?st] =>
      destruct (onSoundProgressed dv n st) as [[] s2 e2|] eqn:Hprog; [|done]
  end.
  cbn in H. injection H as <- <-.
  eapply onSoundProgressed_registered in Hprog; [|cbn; apply lookup_insert_eq].
  destruct Hprog as (p' & -> & Hrf & Hsk' & Hst' & _ & Hid & Hev).
  exists p', (seeked (seekTo p) (advanced (read_count frameCount dc) dc)).
  cbn. rewrite !lookup_insert_eq.
  assert (Hcur : dec_cursor (seeked (seekTo p)
                               (advanced (read_count frameCount dc) dc)) = seekTo p).
  { unfold seeked. cbn. by destruct (seekTo p <=? dec_length dc) eqn:E; [|lia]. }
  assert (Hid' : same_identity p p').
  { eapply same_identity_trans; [|exact Hid]. by repeat split. }
  split_and!; try done.
  - intros k Hne. by rewrite !lookup_insert_ne.
  - rewrite app_nil_r. by rewrite Hev.
Qed.

Lemma callback_applies_pending_seek_witness :
  exists s' evs p',
    data_callback 2 512 Ex.seeking = Ret tt s' evs /\
    playingSounds s' !! 2 = Some p' /\
    shouldSeek p' = false /\ readFrames p' = 110762.
Proof.
  destruct (data_callback 2 512 Ex.seeking) as [[] s' evs|] eqn:E;
    [|vm_compute in E; discriminate E].
  destruct (callback_applies_pending_seek 2 512 Ex.seeking Ex.stream_2 1
              (mkDecoder 44100 441000 0 true)
              (set_shouldSeek true (set_seekTo 110250 Ex.session)) s' evs)
    as (p' & dc' & Hp' & _ & Hsk & _ & _ & Hrf & _).
  - vm_compute. reflexivity.
  - reflexivity.
  - vm_compute. reflexivity.
  - vm_compute. reflexivity.
  - reflexivity.
  - vm_compute. discriminate.
  - vm_compute. reflexivity.
  - exact E.
  - exists s', evs, p'. split; [reflexivity|]. split; [exact Hp'|].
    split; [exact Hsk|exact Hrf].
Defined.

(** ** The volume of a stream *)

Lemma keeps_streams_refl s : keeps_streams s s.
Proof. done. Qed.

Lemma keeps_streams_trans s1 s2 s3 :
  keeps_streams s1 s2 -> keeps_streams s2 s3 -> keeps_streams s1 s3.
Proof. unfold keeps_streams. congruence. Qed.

Lemma keeps_streams_decoder_read dec n :
  respects keeps_streams (ma_decoder_read_pcm_frames dec n).
Proof.
  intros s a s' evs. unfold ma_decoder_read_pcm_frames. cbn.
  destruct (decoders s !! dec); cbn; [|done]. by intros [= _ <- _].
Qed.

Lemma keeps_streams_decoder_seek dec n :
  respects keeps_streams (ma_decoder_seek_to_pcm_frame dec n).
Proof.
  intros s a s' evs. unfold ma_decoder_seek_to_pcm_frame. cbn.
  destruct (decoders s !! dec); cbn; [|done].
  destruct (_ <=? _); cbn; by intros [= _ <- _].
Qed.

Lemma keeps_streams_push_unique key t : respects keeps_streams (push_unique key t).
Proof.
  intros s a s' evs. unfold push_unique. cbn.
  destruct (existsb _ (gQueue s)); by intros [= _ <- _].
Qed.

Lemma keeps_streams_onSoundProgressed device frames :
  respects keeps_streams (onSoundProgressed device frames).
Proof.
  intros s a s' evs. unfold onSoundProgressed. cbn.
  destruct (playingSounds s !! device); cbn; [|by intros [= _ <- _]].
  destruct (_ <? _); cbn; [|by intros [= _ <- _]].
  destruct (Num.scale _ _ _); cbn; [|done]. by intros [= _ <- _].
Qed.

Lemma keeps_streams_onSoundSeeked device frame :
  respects keeps_streams (onSoundSeeked device frame).
Proof.
  intros s a s' evs. unfold onSoundSeeked. cbn.
  destruct (playingSounds s !! device); cbn; [|by intros [= _ <- _]].
  destruct (Num.scale _ _ _); cbn; [|done]. by intros [= _ <- _].
Qed.

(** X16. The callback sets the volume of its stream.  Every run of the
    callback on a stream that is bound to a decoder stores, before it
    reads, the volume the device table holds for the name of the device
    the stream plays on ([1.f] for a name that is not in the table) as the
    stream's master volume; nothing else of the stream object and no other
    stream object changes. *)
Theorem callback_sets_stream_volume
    (device frameCount : Z) (s : System) d decoder s' evs :
  streams s !! device = Some d -> pUserData d = Some decoder ->
  data_callback device frameCount s = Ret tt s' evs ->
  streams s'
  = <[device := mkDevice (pUserData d) (playback_name d)
                  (getVolume s (playback_name d)) (dev_state d)]> (streams s) /\
  devices s' = devices s /\
  forall d', streams s' !! device = Some d' ->
             masterVolumeFactor d' = getVolume s' (playback_name d').
Proof.
  intros Hd Hp H.
  pose proof (steady_data_callback _ _ _ _ _ _ H) as ((Hdev & _) & _).
  unfold data_callback in H.
  apply bind_inv in H as (d0 & s0 & e0 & e1 & Hd0 & H & _).
  unfold the_stream in Hd0. cbn in Hd0. rewrite Hd in Hd0. cbn in Hd0.
  injection Hd0 as <- <- _. rewrite Hp in H.
  apply bind_inv in H as (s1 & s2 & e2 & e3 & Hg & H & _).
  injection Hg as <- <- _.
  apply bind_inv in H as ([] & s3 & e4 & e5 & Hst & H & _).
  cbn in Hst. injection Hst as <- _.
  assert (Hkeep : streams s'
    = <[device := mkDevice (Some decoder) (playback_name d)
                    (getVolume s (playback_name d)) (dev_state d)]> (streams s)).
  { revert H.
    match goal with |- ?m ?st = _ -> _ =>
      assert (Hrest : respects keeps_streams m);
        [|intros H; exact (Hrest _ _ _ _ H)] end.
    unfold getPlayingSound.
    repeat first
      [ apply keeps_streams_decoder_read | apply keeps_streams_decoder_seek
      | apply keeps_streams_push_unique
      | apply keeps_streams_onSoundProgressed | apply keeps_streams_onSoundSeeked
      | apply (respects_ret keeps_streams keeps_streams_refl)
      | apply (respects_get keeps_streams keeps_streams_refl)
      | apply (respects_when keeps_streams keeps_streams_refl)
      | apply (respects_bind keeps_streams keeps_streams_trans); [|intros ?]
      | match goal with
        | |- respects _ (match ?x with _ => _ end) => destruct x
        | |- respects _ (let _ := _ in _) => cbv zeta
        end ]. }
  rewrite Hp. split; [done|]. split; [done|].
  intros d'. rewrite Hkeep, lookup_insert_eq. intros [= <-]. cbn.
  unfold getVolume. by rewrite Hdev.
Qed.

Lemma callback_sets_stream_volume_witness :
  exists s' evs d',
    data_callback 2 512 (set_devices Ex.quiet_table Ex.playing) = Ret tt s' evs /\
    streams s' !! 2 = Some d' /\ masterVolumeFactor d' = Ex.half_f.
Proof.
  destruct (data_callback 2 512 (set_devices Ex.quiet_table Ex.playing))
    as [[] s' evs|] eqn:E; [|vm_compute in E; discriminate E].
  destruct (callback_sets_stream_volume 2 512
              (set_devices Ex.quiet_table Ex.playing) Ex.stream_2 1 s' evs)
    as (Hs & _ & _); [vm_compute; reflexivity|reflexivity|exact E|].
  exists s', evs. eexists. split; [reflexivity|].
  rewrite Hs, lookup_insert_eq. split; [reflexivity|]. vm_compute. reflexivity.
Defined.

(** ** From the last frame to the finish notification *)

(** X17. A session that has played out is finished once.  In a state the
    engine reaches by calls that each run to completion, take a registered
    session that does not repeat and has no seek pending, whose decoder
    stands at its last frame, with an empty finish queue.  The next
    callback of its stream reads nothing, notifies nobody and queues one
    task under the stream's handle.  A call of [onFinished] with that
    handle then releases the stream and the decoder, calls
    [onSoundFinished] with the session, once, and erases it; a further
    call only logs, and a further callback of the stream does nothing.
    (How the worker runs the queued closure is not part of this
    statement.) *)
Theorem played_out_session_finishes_once
    (cfg : Settings) (s : System) device p dc frameCount :
  reachable cfg s ->
  playingSounds s !! device = Some p ->
  shouldSeek p = false -> ps_repeat p = false -> gQueue s = [] ->
  decoders s !! rawDecoder p = Some dc -> dec_cursor dc = dec_length dc ->
  exists s1 s2,
    data_callback device frameCount s
    = Ret tt s1 [Ma (DecoderRead (rawDecoder p) frameCount)] /\
    playingSounds s1 = playingSounds s /\
    gQueue s1 = [(device, TaskOnFinished)] /\
    onFinished device s1
    = Ret tt s2 [Ma (DeviceUninit device);
                 Ma (DecoderUninit (Some (rawDecoder p)));
                 GuiSoundFinished p] /\
    playingSounds s2 = delete device (playingSounds s) /\
    is_released s2 device /\
    (exists dc', decoders s2 !! rawDecoder p = Some dc' /\ dec_inited dc' = false) /\
    onFinished device s2 = Ret tt s2 [Log FinishedNotPlaying] /\
    data_callback device frameCount s2 = Ret tt s2 [].
Proof.
  intros I%Inv_reachable Hs Hsk Hrep Hq Hdc Hend.
  destruct (Inv_session s device p I Hs) as (Hk & d & dc0 & Hd & Hu & Ho & Hdc0 & _).
  assert (dc0 = dc) as -> by congruence.
  assert (Hr : read_count frameCount dc = 0) by (unfold read_count; lia).
  assert (H1 : data_callback device frameCount s
    = Ret tt
        (mkSystem (devices s) (defaultOutputDevice s) (playingSounds s)
           (playingSoundIdCounter s) (next_ptr s) (decoders s)
           (<[device := mkDevice (pUserData d) (playback_name d)
                          (getVolume s (playback_name d)) (dev_state d)]> (streams s))
           [(device, TaskOnFinished)])
        [Ma (DecoderRead (rawDecoder p) frameCount)]).
  { unfold data_callback. cbn. rewrite Hd. cbn. rewrite Hu. cbn.
    erewrite ma_decoder_read_known by (cbn; exact Hdc).
    rewrite Hr, advanced_0. cbn. rewrite (insert_id (decoders s)) by done.
    unfold getPlayingSound. cbn. rewrite Hs. cbn. rewrite Hsk, Hrep. cbn.
    rewrite push_unique_finish. cbn. by rewrite Hq. }
  eexists _, _. split; [exact H1|]. split; [done|]. split; [done|].
  assert (H2 : forall st q,
    st = mkSystem (devices s) (defaultOutputDevice s) (playingSounds s)
           (playingSoundIdCounter s) (next_ptr s) (decoders s)
           (<[device := mkDevice (pUserData d) (playback_name d)
                          (getVolume s (playback_name d)) (dev_state d)]> (streams s))
           q ->
    onFinished device st
    = Ret tt
        (mkSystem (devices s) (defaultOutputDevice s) (delete device (playingSounds s))
           (playingSoundIdCounter s) (next_ptr s)
           (<[rawDecoder p := released_decoder dc]> (decoders s))
           (<[device := zeroed_device]> (streams s)) q)
        [Ma (DeviceUninit device); Ma (DecoderUninit (Some (rawDecoder p)));
         GuiSoundFinished p]).
  { intros st q ->.
    erewrite onFinished_registered;
      [|exact Hs|cbn; rewrite Hk; apply lookup_insert_eq|exact Hdc].
    cbn. rewrite Hk, insert_insert_eq. unfold released_stream. cbn.
    by destruct (dev_state d). }
  split; [exact (H2 _ _ eq_refl)|].
  cbn. split; [done|]. split_and!.
  - exists zeroed_device. cbn. by rewrite lookup_insert_eq.
  - eexists. by rewrite lookup_insert_eq.
  - apply onFinished_unregistered. cbn. apply lookup_delete_eq.
  - unfold data_callback. cbn. by rewrite lookup_insert_eq.
Qed.

Lemma at_end_reachable : reachable Ex.overlapping Ex.at_end.
Proof.
  eapply reachable_call; [apply playing_reachable|].
  eapply (call_callback _ 2 441000 Ex.playing _
            [Ma (DecoderRead 1 441000);
             GuiSoundProgressed (set_buffer 441000 Ex.played_out)]).
  vm_compute. reflexivity.
Qed.

Lemma played_out_session_finishes_once_witness :
  exists s1 s2,
    data_callback 2 512 Ex.at_end = Ret tt s1 [Ma (DecoderRead 1 512)] /\
    onFinished 2 s1
    = Ret tt s2 [Ma (DeviceUninit 2); Ma (DecoderUninit (Some 1));
                 GuiSoundFinished Ex.played_out] /\
    playingSounds s2 = ∅ /\
    data_callback 2 512 s2 = Ret tt s2 [].
Proof.
  destruct (played_out_session_finishes_once Ex.overlapping Ex.at_end 2
              Ex.played_out (mkDecoder 44100 441000 441000 true) 512)
    as (s1 & s2 & H1 & _ & _ & H2 & Hreg & _ & _ & _ & Hidle).
  - apply at_end_reachable.
  - vm_compute. reflexivity.
  - reflexivity.
  - reflexivity.
  - reflexivity.
  - vm_compute. reflexivity.
  - reflexivity.
  - exists s1, s2. split; [exact H1|]. split; [exact H2|].
    split; [rewrite Hreg; by vm_compute|exact Hidle].
Defined.

(** ** The device a sound is played on *)

Lemma play_join cfg pf sound playbackDevice s s1 e1 :
  (if allowOverlapping cfg then s1 = s /\ e1 = [] else stopAll s = Ret tt s1 e1) ->
  play cfg pf sound playbackDevice s
  = match play (mkSettings true (deviceSettings cfg)) pf sound playbackDevice s1 with
    | Ret a s2 e2 => Ret a s2 (e1 ++ e2)
    | Undefined => Undefined
    end.
Proof.
  destruct (allowOverlapping cfg) eqn:Hov.
  - intros [-> ->].
    assert (Heq : play cfg pf sound playbackDevice s
                  = play (mkSettings true (deviceSettings cfg)) pf sound
                      playbackDevice s)
      by (unfold play; cbn [allowOverlapping]; by rewrite Hov).
    rewrite Heq.
    destruct (play (mkSettings true (deviceSettings cfg)) pf sound playbackDevice s);
      reflexivity.
  - intros Hs. by apply play_exclusive.
Qed.

Lemma play_returns_session_platform cfg pf sound playbackDevice s p s' evs :
  allowOverlapping cfg = true ->
  play cfg pf sound playbackDevice s = Ret (Some p) s' evs ->
  device_init_ok pf = true /\ device_start_ok pf = true.
Proof.
  intros Hov H.
  destruct (decode_file pf (path sound)) as [[len rate]|] eqn:Hd;
    [|by rewrite (play_bad_path_overlapping _ _ _ _ _ Hov Hd) in H].
  destruct (device_init_ok pf) eqn:Hi;
    [|by rewrite (play_init_failure_overlapping _ _ _ _ _ _ _ Hov Hd Hi) in H].
  destruct (device_start_ok pf) eqn:Hst;
    [|by rewrite (play_start_failure_overlapping _ _ _ _ _ _ _ Hov Hd Hi Hst) in H].
  done.
Qed.

(** X18. The device passed to [play] does not reach miniaudio.  Whatever
    device a successful [play] is called with, the stream it opens is the
    default-configured one: it carries the name of the platform's default
    device.  The same call with any other device (or with none, the
    default-device pointer being set) makes the same miniaudio calls,
    leaves the same stream, decoder and queue objects, and returns a
    session that differs in its recorded device only. *)
Theorem play_ignores_playback_device
    (cfg : Settings) (pf : Platform) (sound : Sound)
    (device1 device2 : option AudioDevice) (s : System) p1 s1 e1 dev2 :
  play cfg pf sound device1 s = Ret (Some p1) s1 e1 ->
  chosen_device device2 s = Some dev2 ->
  (exists d, streams s1 !! rawDevice p1 = Some d /\
             playback_name d = default_name pf) /\
  exists p2 s2 e2,
    play cfg pf sound device2 s = Ret (Some p2) s2 e2 /\
    ps_device p2 = dev2 /\
    ps_sound p2 = ps_sound p1 /\ ps_id p2 = ps_id p1 /\
    rawDevice p2 = rawDevice p1 /\ rawDecoder p2 = rawDecoder p1 /\
    ps_length p2 = ps_length p1 /\ lengthInMs p2 = lengthInMs p1 /\
    sampleRate p2 = sampleRate p1 /\
    streams s2 = streams s1 /\ decoders s2 = decoders s1 /\
    gQueue s2 = gQueue s1 /\
    playingSoundIdCounter s2 = playingSoundIdCounter s1 /\
    List.filter is_ma e2 = List.filter is_ma e1.
Proof.
  intros H Hch2.
  destruct (play_split _ _ _ _ _ _ _ _ H) as (s0 & e0 & e & Hpre & H0 & ->).
  destruct (play_returns_session_platform (mkSettings true (deviceSettings cfg))
              _ _ _ _ _ _ _ eq_refl H0) as [Hi Hst].
  destruct (play_returns_session_overlapping (mkSettings true (deviceSettings cfg))
              _ _ _ _ _ _ _ eq_refl H0)
    as (len & rate & ms & dev & Hd & Hms & Hch & -> & -> & ->).
  assert (Hch0 : chosen_device device2 s0 = Some dev2).
  { rewrite <- Hch2. destruct (allowOverlapping cfg).
    - by destruct Hpre as [-> _].
    - apply chosen_device_evolves. by apply (evolves_stopAll _ _ _ _ Hpre). }
  split.
  { cbn. rewrite lookup_insert_eq. by eexists. }
  rewrite (play_join _ _ _ _ _ _ _ Hpre).
  rewrite (play_started_overlapping (mkSettings true (deviceSettings cfg))
             _ _ _ _ _ _ eq_refl Hd Hi Hst).
  rewrite Hms, Hch0. cbv zeta.
  eexists _, _, _. split; [reflexivity|]. cbn. split_and!; try done.
  by rewrite !List.filter_app.
Qed.

Lemma play_ignores_playback_device_witness :
  exists p2 s2 e2,
    play Ex.overlapping Ex.platform Ex.a_wav (Some Ex.hdmi) Ex.fresh
    = Ret (Some p2) s2 e2 /\
    ps_device p2 = Ex.hdmi /\ streams s2 = streams Ex.playing.
Proof.
  destruct (play_ignores_playback_device Ex.overlapping Ex.platform Ex.a_wav
              None (Some Ex.hdmi) Ex.fresh Ex.session Ex.playing _ Ex.hdmi
              fresh_play_a_wav eq_refl)
    as (_ & p2 & s2 & e2 & H2 & Hdev & _ & _ & _ & _ & _ & _ & _ & Hs & _).
  by exists p2, s2, e2.
Defined.

(** ** The system report *)

Lemma append_empty (a b : string) :
  String.append a b = EmptyString <-> a = EmptyString /\ b = EmptyString.
Proof.
  destruct a; cbn; [|split; [done|by intros [? _]]].
  split; [done|by intros [_ ?]].
Qed.

Lemma append_empty_r (a : string) : String.append a EmptyString = a.
Proof.
  induction a as [|c a IH]; [done|].
  change (String c (String.append a EmptyString) = String c a). by rewrite IH.
Qed.

(** X19. When the system report is empty and when it is complete.
    [getSystemInfo] returns the empty string only if [lsb_release] could
    not be run and left nothing and [XDG_CURRENT_DESKTOP] is not set.  When
    the command ran, the report starts with its output or, the output
    being empty, with the text [lsb_release failed]; when the variable is
    set, the report ends with the desktop line.  Nothing is logged exactly
    if the command ran with output and the variable is set. *)
Theorem getSystemInfo_report (exec_ok : bool) (exec_result : string)
    (desktopEnv : option string) :
  let info := getSystemInfo exec_ok exec_result desktopEnv in
  (fst info = EmptyString
   <-> exec_ok = false /\ exec_result = EmptyString /\ desktopEnv = None) /\
  (exec_ok = true ->
   exists rest,
     fst info
     = String.append (if String.eqb exec_result EmptyString
                      then "lsb_release failed"%string else exec_result) rest) /\
  (forall env, desktopEnv = Some env ->
     exists front,
       fst info
       = String.append front
           (String.append
              (String.append (String.append newline "Current Desktop: ") env)
              newline)) /\
  (snd info = []
   <-> exec_ok = true /\ exec_result <> EmptyString /\ is_Some desktopEnv).
Proof.
  set (line := fun env =>
         String.append
           (String.append (String.append newline "Current Desktop: ") env) newline).
  set (result0 := if exec_ok
                  then if String.eqb exec_result EmptyString
                       then "lsb_release failed"%string else exec_result
                  else exec_result).
  assert (Hfst : fst (getSystemInfo exec_ok exec_result desktopEnv)
                 = match desktopEnv with
                   | Some env => String.append result0 (line env)
                   | None => result0
                   end).
  { unfold getSystemInfo, result0.
    by destruct exec_ok, (String.eqb exec_result EmptyString), desktopEnv. }
  assert (Hsnd : snd (getSystemInfo exec_ok exec_result desktopEnv)
                 = (if exec_ok
                    then if String.eqb exec_result EmptyString
                         then [LsbOutputEmpty] else []
                    else [LsbFailed])
                   ++ match desktopEnv with Some _ => [] | None => [DesktopNotSet] end).
  { unfold getSystemInfo.
    destruct exec_ok, (String.eqb exec_result EmptyString), desktopEnv; cbn;
      by rewrite ?app_nil_r. }
  cbv zeta. rewrite Hfst, Hsnd. split_and!.
  - destruct desktopEnv as [env|].
    + split; [|by intros (_ & _ & ?)].
      intros [_ Hl]%append_empty. discriminate Hl.
    + unfold result0. destruct exec_ok.
      * destruct (String.eqb_spec exec_result EmptyString) as [->|Hne];
          split; try done; by intros (? & _).
      * split; [done|by intros (_ & ? & _)].
  - intros Hok. unfold result0. rewrite Hok. destruct desktopEnv as [env|].
    + by exists (line env).
    + exists EmptyString. by rewrite append_empty_r.
  - intros env ->. by exists result0.
  - destruct exec_ok.
    + destruct (String.eqb_spec exec_result EmptyString) as [->|Hne].
      * split; [done|by intros (_ & ? & _)].
      * destruct desktopEnv as [env|]; cbn.
        -- split; [eauto|done].
        -- split; [done|]. by intros (_ & _ & [? ?]).
    + split; [done|by intros (? & _)].
Qed.

Lemma getSystemInfo_report_witness :
  fst (getSystemInfo true EmptyString (Some "GNOME"%string))
  = String.append "lsb_release failed"
      (String.append (String.append (String.append newline "Current Desktop: ") "GNOME")
         newline) /\
  fst (getSystemInfo false EmptyString None) = EmptyString.
Proof.
  destruct (getSystemInfo_report false EmptyString None) as (Hempty & _).
  split; [reflexivity|]. by apply Hempty.
Defined.

(** ** A [resume] whose stream does not start *)

(** X21. [resume] does not notice a stream that fails to start.  When
    the stream of a paused session cannot be started, [resume] still
    clears the paused flag and returns the session as resumed; the stream
    stays stopped, and since the flag is cleared no later [resume] calls
    miniaudio for it again, whatever the platform would answer then. *)
Theorem resume_drops_start_failure
    (pf : Platform) (soundId : Z) (s : System) key p d :
  find_sound soundId (playingSounds s) = Some (key, p) ->
  streams s !! rawDevice p = Some d ->
  paused p = true -> dev_state d = StreamStopped ->
  device_start_ok pf = false ->
  exists s1,
    resume pf soundId s
    = Ret (Some (set_paused false p)) s1 [Ma (DeviceStart (rawDevice p))] /\
    playingSounds s1 !! key = Some (set_paused false p) /\
    streams s1 !! rawDevice p = Some d /\
    forall pf', resume pf' soundId s1 = Ret (Some (set_paused false p)) s1 [].
Proof.
  intros Hf Hd Hp Hs Hst.
  assert (Hsame : started pf d = d) by (unfold started; by rewrite Hs, Hst).
  rewrite (resume_found _ _ _ _ _ _ Hf Hd), Hp, Hsame.
  eexists. split; [reflexivity|]. cbn. rewrite !lookup_insert_eq.
  split; [done|]. split; [done|]. intros pf'.
  rewrite (resume_found pf' soundId _ key (set_paused false p) d);
    [done|cbn; by apply (find_sound_update soundId _ key p)
    |cbn; apply lookup_insert_eq].
Qed.

Lemma resume_drops_start_failure_witness :
  exists s1,
    resume Ex.no_start 1 Ex.paused_state
    = Ret (Some Ex.session) s1 [Ma (DeviceStart 2)] /\
    streams s1 !! 2
    = Some (mkDevice (Some 1) "Speakers" Num.one_f StreamStopped) /\
    resume Ex.platform 1 s1 = Ret (Some Ex.session) s1 [].
Proof.
  destruct (resume_drops_start_failure Ex.no_start 1 Ex.paused_state 2
              (set_paused true Ex.session)
              (mkDevice (Some 1) "Speakers" Num.one_f StreamStopped))
    as (s1 & H1 & _ & Hd & H2).
  - vm_compute. reflexivity.
  - vm_compute. reflexivity.
  - reflexivity.
  - reflexivity.
  - reflexivity.
  - exists s1. split; [exact H1|]. split; [exact Hd|exact (H2 Ex.platform)].
Defined.

(** ** Exclusive playback *)

Lemma play_registry cfg pf sound playbackDevice s r s' evs :
  Inv s -> play cfg pf sound playbackDevice s = Ret r s' evs ->
  forall k q, playingSounds s' !! k = Some q ->
    (allowOverlapping cfg = true /\ playingSounds s !! k = Some q) \/
    r = Some q.
Proof.
  intros I H k q Hq.
  destruct (play_prelude _ _ _ _ _ _ _ _ I H)
    as (s1 & e1 & e2 & H2 & _ & _ & I1 & Hev & Hreg).
  destruct r as [p|].
  - destruct (play_returns_session_overlapping
                (mkSettings true (deviceSettings cfg)) _ _ _ _ _ _ _ eq_refl H2)
      as (len & rate & ms & dev & _ & _ & _ & -> & -> & _).
    cbn in Hq. unfold insert_new in Hq.
    rewrite (Inv_unregistered s1 (next_ptr s1 + 1) I1) in Hq by lia.
    apply lookup_insert_Some in Hq as [[_ <-]|[_ Hq]]; [by right|].
    left. rewrite Hreg in Hq. destruct (allowOverlapping cfg); [done|].
    by rewrite lookup_empty in Hq.
  - destruct (play_returns_nothing_overlapping
                (mkSettings true (deviceSettings cfg)) _ _ _ _ _ _ eq_refl H2)
      as (_ & _ & Hr & _).
    left. rewrite Hr, Hreg in Hq. destruct (allowOverlapping cfg); [done|].
    by rewrite lookup_empty in Hq.
Qed.

(** X22. With overlapping disabled at most one session is registered.  In
    every state an engine configured without overlapping reaches by calls
    that each run to completion, the registry holds no session or exactly
    one: [getPlayingSounds] never returns two. *)
Theorem exclusive_playback_holds_one_session (cfg : Settings) (s : System) :
  allowOverlapping cfg = false -> reachable cfg s ->
  (forall k k' p p', playingSounds s !! k = Some p ->
                     playingSounds s !! k' = Some p' -> k = k' /\ p = p') /\
  (length (getPlayingSounds s) <= 1)%nat.
Proof.
  intros Hov R.
  assert (Hone : forall k k' p p', playingSounds s !! k = Some p ->
                   playingSounds s !! k' = Some p' -> k = k').
  { induction R as [pf|s s' R IH Hc].
    - destruct (Audio_Audio_fields cfg pf) as (_ & _ & Hreg & _). rewrite Hreg.
      intros k k' p p' Hk. by rewrite lookup_empty in Hk.
    - pose proof (Inv_reachable _ _ R) as I.
      assert (Hsub : forall s0 s1, evolves s0 s1 ->
                (forall k k' p p', playingSounds s0 !! k = Some p ->
                    playingSounds s0 !! k' = Some p' -> k = k') ->
                forall k k' p p', playingSounds s1 !! k = Some p ->
                    playingSounds s1 !! k' = Some p' -> k = k').
      { intros s0 s1 (_&_&_&_&Hr&_) H0 k k' p p' Hk Hk'.
        destruct (Hr _ _ Hk) as (q & Hq & _). destruct (Hr _ _ Hk') as (q' & Hq' & _).
        by apply (H0 k k' q q'). }
      revert IH I.
      destruct Hc as [pf sound pd s0 r s1 evs Hc H | s0 s1 evs H | id s0 r s1 evs H
           | id s0 r s1 evs H | pf id s0 r s1 evs H | id pos s0 r s1 evs H
           | dev n s0 s1 evs H | s0 s1 evs H | dev k0 t q s0 s1 evs Hq H];
        intros IH I.
      + intros k k' p p' Hk Hk'.
        pose proof (Inv_play _ _ _ _ _ _ _ _ I Hc H) as I1.
        destruct (play_registry _ _ _ _ _ _ _ _ I H k p Hk) as [[? _]|Hr];
          [congruence|].
        destruct (play_registry _ _ _ _ _ _ _ _ I H k' p' Hk') as [[? _]|Hr'];
          [congruence|].
        assert (p' = p) as -> by congruence.
        rewrite <- (inv_key s1 I1 k p Hk). by apply (inv_key s1 I1 k' p Hk').
      + apply (Hsub s0 s1); [by eapply evolves_stopAll|done].
      + apply (Hsub s0 s1); [by eapply evolves_stop|done].
      + apply (Hsub s0 s1); [eapply steady_evolves; by eapply steady_pause|done].
      + apply (Hsub s0 s1); [eapply steady_evolves; by eapply steady_resume|done].
      + apply (Hsub s0 s1); [eapply steady_evolves; by eapply steady_seek|done].
      + apply (Hsub s0 s1);
          [eapply steady_evolves; by eapply steady_data_callback|done].
      + apply (Hsub s0 s1); [by eapply evolves_queue_run_next|done].
      + apply (Hsub s0 s1); [by eapply evolves_finish|done]. }
  split.
  - intros k k' p p' Hk Hk'. assert (k = k') as <- by by eapply Hone.
    split; [done|congruence].
  - unfold getPlayingSounds. rewrite length_map.
    destruct (entries (playingSounds s)) as [|[k p] [|[k' p'] l]] eqn:E;
      cbn; [lia|lia|].
    exfalso.
    assert (Hk : playingSounds s !! k = Some p)
      by (apply elem_of_entries; rewrite E; by left).
    assert (Hk' : playingSounds s !! k' = Some p')
      by (apply elem_of_entries; rewrite E; right; by left).
    assert (k = k') as <- by by eapply Hone.
    pose proof (NoDup_entries_keys (playingSounds s)) as Hnd. rewrite E in Hnd.
    cbn in Hnd. apply NoDup_cons in Hnd as [Hnotin _]. apply Hnotin. by left.
Qed.

Lemma exclusive_playback_holds_one_session_witness :
  (length (getPlayingSounds Ex.second_play) <= 1)%nat /\
  playingSounds Ex.second_play !! 4 = Some Ex.second_session.
Proof.
  split; [|vm_compute; reflexivity].
  apply (exclusive_playback_holds_one_session Ex.exclusive Ex.second_play eq_refl).
  eapply reachable_call;
    [|eapply (call_play _ Ex.platform Ex.a_wav None Ex.first_play
                (Some Ex.second_session) _
                [Ma (DeviceUninit 2); Ma (DecoderUninit (Some 1));
                 Ma (DecoderInitFile "a.wav" 3); Ma (DeviceInit 4);
                 Ma (DeviceStart 4); GuiSoundPlayed Ex.second_session])].
  - eapply reachable_call; [apply (reachable_new _ Ex.platform)|].
    eapply (call_play _ Ex.platform Ex.a_wav None _ (Some Ex.session) _
              [Ma (DecoderInitFile "a.wav" 1); Ma (DeviceInit 2);
               Ma (DeviceStart 2); GuiSoundPlayed Ex.session]);
      [|vm_compute; reflexivity].
    vm_compute. reflexivity.
  - vm_compute. reflexivity.
  - vm_compute. reflexivity.
Defined.

(** ** Read position over runs without [seek] *)






Lemma tracks_registered key s : tracks key s -> is_Some (playingSounds s !! key).
Proof. intros (sound & _ & _ & _ & Hs & _). eauto. Qed.


















